(** * jsonDB: a shallow embedding of the document store and its specification

    The development follows the Go sources of the repository:
    - [utils.go]        value coercion and the three-way compare,
    - [trie.go]         the trie behind fuzzy queries,
    - [indexs.go]       single-field and composite indexes,
    - [write.go]        the write-ahead log, the data file and their readers,
    - [document.go]     Insert, Update, Delete, Get,
    - the database file (NewDatabase, Close, Count) and the query files.

    Locks, wait groups, the worker pool and the logger carry no data and are
    left out: every operation is modelled as it runs when no other goroutine
    interleaves with it, and a background data-file write is taken at the
    point where the operation schedules it. *)

From Stdlib Require Import ZArith String Ascii List Bool Lia.
From Stdlib Require Import Floats.PrimFloat Floats.SpecFloat Floats.FloatOps Floats.FloatAxioms.
From Stdlib Require Import Strings.Byte Numbers.DecimalString.
From stdpp Require Import gmap strings list fin_maps.

Set Warnings "-register-all".
Local Open Scope Z_scope.

(** ** Go strings, runes and bytes *)

(** A Go string is a sequence of bytes; [string] of the standard library is
    one.  A rune is a Unicode code point. *)
Definition rune := Z.

Definition RuneError : rune := 65533.

Definition byteZ (a : ascii) : Z := Z.of_N (N_of_ascii a).

Definition stringBytes (s : string) : list Z := map byteZ (list_ascii_of_string s).

Definition inRange (lo hi b : Z) : bool := (lo <=? b) && (b <=? hi).

(** [utf8.DecodeRuneInString]: the rune at the head of the bytes and its width.
    An ill-formed or truncated sequence decodes to [RuneError] of width 1. *)
Definition decodeRune (s : list Z) : rune * nat :=
  match s with
  | [] => (RuneError, 0%nat)
  | b0 :: tl =>
      if b0 <? 128 then (b0, 1%nat)
      else if inRange 194 223 b0 then
        match tl with
        | b1 :: _ =>
            if inRange 128 191 b1
            then (Z.lor (Z.shiftl (Z.land b0 31) 6) (Z.land b1 63), 2%nat)
            else (RuneError, 1%nat)
        | _ => (RuneError, 1%nat)
        end
      else if inRange 224 239 b0 then
        match tl with
        | b1 :: b2 :: _ =>
            let lo := if b0 =? 224 then 160 else 128 in
            let hi := if b0 =? 237 then 159 else 191 in
            if inRange lo hi b1 && inRange 128 191 b2
            then (Z.lor (Z.shiftl (Z.land b0 15) 12)
                    (Z.lor (Z.shiftl (Z.land b1 63) 6) (Z.land b2 63)), 3%nat)
            else (RuneError, 1%nat)
        | _ => (RuneError, 1%nat)
        end
      else if inRange 240 244 b0 then
        match tl with
        | b1 :: b2 :: b3 :: _ =>
            let lo := if b0 =? 240 then 144 else 128 in
            let hi := if b0 =? 244 then 143 else 191 in
            if inRange lo hi b1 && inRange 128 191 b2 && inRange 128 191 b3
            then (Z.lor (Z.shiftl (Z.land b0 7) 18)
                    (Z.lor (Z.shiftl (Z.land b1 63) 12)
                       (Z.lor (Z.shiftl (Z.land b2 63) 6) (Z.land b3 63))), 4%nat)
            else (RuneError, 1%nat)
        | _ => (RuneError, 1%nat)
        end
      else (RuneError, 1%nat)
  end.

(** [for _, char := range word]: the runes of a string in order.  [skip]
    counts the bytes of the current rune still to be passed over. *)
Fixpoint runesFrom (skip : nat) (s : list Z) : list rune :=
  match s with
  | [] => []
  | _ :: tl =>
      match skip with
      | S k => runesFrom k tl
      | O => let '(r, size) := decodeRune s in r :: runesFrom (size - 1) tl
      end
  end.

Definition runes (word : string) : list rune := runesFrom 0 (stringBytes word).

(** [rune(word[i])]: the byte at index [i], read as a rune.  Go panics when
    [i] is out of range; [Trie.Remove] only reads indices below the number of
    runes, which never exceeds the number of bytes. *)
Definition byteRune (word : string) (i : nat) : rune :=
  match stringBytes word !! i with
  | Some b => b
  | None => 0
  end.

(** ** trie.go *)

Module Trie.

(** [TrieNode]: the children by rune and the set of document ids stored at
    the node ([docs] is a [sync.Map] used as a set of id strings). *)
Inductive TrieNode := mkTrieNode {
  children : gmap Z TrieNode;
  docs : gset string
}.

Record Trie := mkTrie { root : TrieNode }.

Definition newNode : TrieNode := {| children := ∅; docs := ∅ |}.

Definition NewTrie : Trie := {| root := newNode |}.

(** The loop of [Insert]: create the child when it is missing, move to it and
    store the id there. *)
Fixpoint insertLoop (rs : list rune) (docID : string) (node : TrieNode) : TrieNode :=
  match rs with
  | [] => node
  | char :: rs' =>
      let child := match children node !! char with
                   | Some c => c
                   | None => newNode
                   end in
      let child := {| children := children child; docs := {[docID]} ∪ docs child |} in
      {| children := <[char := insertLoop rs' docID child]> (children node);
         docs := docs node |}
  end.

Definition Insert (t : Trie) (word docID : string) : Trie :=
  {| root := insertLoop (runes word) docID (root t) |}.

(** [len(node.children) == 0 && syncMapSize(node.docs) == 0] *)
Definition isEmptyNode (node : TrieNode) : bool :=
  Nat.eqb (size (children node)) 0 && Nat.eqb (size (docs node)) 0.

(** [Remove] walks down the word, deletes the id from the node it ends at and
    prunes on the way back.  [removeLoop] is both loops of the source run on
    the node at depth [i]: it is [None] when a rune of the word has no child
    (the early return), and otherwise gives the node after the call together
    with a flag telling that the pruning loop has not hit its [break] yet.
    The key deleted from the parent is [rune(word[i])], the byte at index [i],
    as in the source. *)
Fixpoint removeLoop (word docID : string) (i : nat) (rs : list rune)
    (node : TrieNode) : option (TrieNode * bool) :=
  match rs with
  | [] => Some ({| children := children node; docs := docs node ∖ {[docID]} |}, true)
  | char :: rs' =>
      match children node !! char with
      | None => None
      | Some next =>
          match removeLoop word docID (S i) rs' next with
          | None => None
          | Some (next', pruning) =>
              let parent := {| children := <[char := next']> (children node);
                               docs := docs node |} in
              if pruning && isEmptyNode next'
              then Some ({| children := delete (byteRune word i) (children parent);
                            docs := docs parent |}, true)
              else Some (parent, false)
          end
      end
  end.

Definition Remove (t : Trie) (word docID : string) : Trie :=
  match removeLoop word docID 0 (runes word) (root t) with
  | None => t
  | Some (r, _) => {| root := r |}
  end.

(** The node a word ends at, when the trie has one. *)
Fixpoint nodeAt (rs : list rune) (node : TrieNode) : option TrieNode :=
  match rs with
  | [] => Some node
  | char :: rs' =>
      match children node !! char with
      | Some next => nodeAt rs' next
      | None => None
      end
  end.

(** The id is in the id set of the node the word ends at. *)
Definition idAtTerminal (t : Trie) (word docID : string) : bool :=
  match nodeAt (runes word) (root t) with
  | Some n => bool_decide (docID ∈ docs n)
  | None => false
  end.

(** [N] calls of [Insert(word, docID)]. *)
Definition insertMany (N : nat) (t : Trie) (word docID : string) : Trie :=
  Nat.iter N (fun t' => Insert t' word docID) t.

(** The byte [*], the wildcard of a search pattern. *)
Definition star : Z := 42.

(** [searchRecursive]: the pattern is read byte by byte ([pattern[0]],
    [pattern[1:]]), and [results] is a set of ids.  The call on the child
    [node.children[rune(pattern[0])]] is written as a fold over the children
    that keeps the child under that key ([searchRecursive_literal] below
    states it as the lookup of the source): the termination checker follows
    the recursion into the children through a fold. *)
Fixpoint searchRecursive (node : TrieNode) : list Z -> gset string :=
  match node with
  | mkTrieNode children docs =>
      fix search (pattern : list Z) : gset string :=
        match pattern with
        | [] => docs
        | b :: rest =>
            if b =? star then
              let below :=
                map_fold (fun _ child results => searchRecursive child pattern ∪ results)
                         ∅ children in
              search rest ∪ below
            else
              map_fold (fun r child found =>
                          if r =? b then searchRecursive child rest else found)
                       ∅ children
        end
  end.

(** [Search] *)
Definition Search (t : Trie) (pattern : string) : gset string :=
  searchRecursive (root t) (stringBytes pattern).

(** [fuzzySearchRecursive] (complexquery.go): as [searchRecursive], with the
    two branches of the wildcard in the other order.  Its argument
    [currentStr] is built and never read; it is left out. *)
Fixpoint fuzzySearchRecursive (node : TrieNode) : list Z -> gset string :=
  match node with
  | mkTrieNode children docs =>
      fix search (pattern : list Z) : gset string :=
        match pattern with
        | [] => docs
        | b :: rest =>
            if b =? star then
              let here := search rest in
              map_fold (fun _ child results => fuzzySearchRecursive child pattern ∪ results)
                       here children
            else
              map_fold (fun r child found =>
                          if r =? b then fuzzySearchRecursive child rest else found)
                       ∅ children
        end
  end.

(** [FuzzySearch] *)
Definition FuzzySearch (t : Trie) (pattern : string) : gset string :=
  fuzzySearchRecursive (root t) (stringBytes pattern).

(** A pattern matches a path of runes: a byte other than [*] matches the rune
    of the same value, [*] matches any run of runes. *)
Inductive globMatch : list Z -> list rune -> Prop :=
| glob_end : globMatch [] []
| glob_literal b rest path :
    b <> star -> globMatch rest path -> globMatch (b :: rest) (b :: path)
| glob_star_empty rest path :
    globMatch rest path -> globMatch (star :: rest) path
| glob_star_more rest r path :
    globMatch (star :: rest) path -> globMatch (star :: rest) (r :: path).

(** The number of levels of a trie, the measure of the proofs. *)
Fixpoint height (node : TrieNode) : nat :=
  match node with
  | mkTrieNode children _ =>
      S (map_fold (fun _ child h => Nat.max (height child) h) 0%nat children)
  end.

(** The tries a program reaches: from [NewTrie] by [Insert] and [Remove]. *)
Inductive built : Trie -> Prop :=
| built_new : built NewTrie
| built_insert t word docID : built t -> built (Insert t word docID)
| built_remove t word docID : built t -> built (Remove t word docID).

End Trie.

(** ** Values held in documents *)

(** The dynamic types the sources discriminate on ([interface{}] values):
    nil, bool, the integer types named in the type switches, the two float
    types, strings and [time.Time] (its Unix seconds and the nanoseconds
    within the second).  Integers are kept as [Z] within the range of their
    type; a [float32] is kept as the [float64] it converts to exactly. *)
Inductive Value :=
| VNil
| VBool (b : bool)
| VInt (n : Z)
| VInt32 (n : Z)
| VInt64 (n : Z)
| VFloat32 (x : float)
| VFloat64 (x : float)
| VString (s : string)
| VTime (sec nsec : Z).

(** [map[string]interface{}] *)
Abbreviation DocumentData := (gmap string Value).

(** A result that may be a run-time panic (a failed type assertion). *)
Inductive Res (A : Type) :=
| Ok (a : A)
| Panic.
Arguments Ok {A} a.
Arguments Panic {A}.

#[global] Instance Res_bind : MBind Res := fun A B k r =>
  match r with
  | Ok a => k a
  | Panic => Panic
  end.

Definition minInt64 : Z := - 2 ^ 63.
Definition maxInt64 : Z := 2 ^ 63 - 1.

(** [float64(n)] for an integer [n]: the nearest float, ties to even. *)
Definition floatOfInt (n : Z) : float :=
  SF2Prim (binary_normalize prec emax n 0 false).

(** [int64(x)] for a float [x]: the fraction is discarded (truncation toward
    zero).  Where the value does not fit the Go specification leaves the
    result to the implementation; the model gives [minInt64] there, as amd64
    does. *)
Definition intOfFloat (x : float) : Z :=
  match Prim2SF x with
  | S754_zero _ => 0
  | S754_finite s m e =>
      let a := if 0 <=? e then Z.pos m * 2 ^ e else Z.pos m / 2 ^ (- e) in
      let v := if s then - a else a in
      if (minInt64 <=? v) && (v <=? maxInt64) then v else minInt64
  | _ => minInt64
  end.

(** [a < b], [a > b] on floats are the IEEE comparisons: both are false when
    an operand is NaN. *)
Definition threeWayInt (va vb : Z) : Z :=
  if va <? vb then -1 else if vb <? va then 1 else 0.

Definition threeWayFloat (va vb : float) : Z :=
  if PrimFloat.ltb va vb then -1 else if PrimFloat.ltb vb va then 1 else 0.

(** [strings.Compare]: byte-wise lexicographic order. *)
Definition stringsCompare (a b : string) : Z :=
  match String.compare a b with
  | Lt => -1
  | Eq => 0
  | Gt => 1
  end.

(** [strings.Join] *)
Definition stringsJoin (elems : list string) (sep : string) : string :=
  String.concat sep elems.

(** Decimal form of an integer, as [%v] prints it. *)
Definition formatInt (n : Z) : string := NilZero.string_of_int (Z.to_int n).

(** Equality of two interface values ([==], and the key equality of a
    [sync.Map]): the same dynamic type and equal contents; floats compare as
    IEEE numbers, so NaN differs from itself and the two zeros are equal. *)
Definition ifaceEq (a b : Value) : bool :=
  match a, b with
  | VNil, VNil => true
  | VBool x, VBool y => Bool.eqb x y
  | VInt x, VInt y => x =? y
  | VInt32 x, VInt32 y => x =? y
  | VInt64 x, VInt64 y => x =? y
  | VFloat32 x, VFloat32 y => PrimFloat.eqb x y
  | VFloat64 x, VFloat64 y => PrimFloat.eqb x y
  | VString x, VString y => String.eqb x y
  | VTime s n, VTime s' n' => (s =? s') && (n =? n')
  | _, _ => false
  end.

(** ** What the model takes from Go's libraries

    The text [fmt] prints for floats and times, Unicode lower-casing, and
    the JSON and MessagePack codecs are not code of this repository.  The
    model is stated over any implementation of them. *)
Class GoLib := {
  (** [fmt.Sprintf("%v", x)] for a [float32], a [float64] and a [time.Time] *)
  formatFloat32 : float -> string;
  formatFloat64 : float -> string;
  formatTime : Z -> Z -> string;
  (** [strings.ToLower] *)
  ToLower : string -> string;
  (** [json.Unmarshal] of a string into a [map[string]interface{}];
      [None] is a parse error *)
  jsonUnmarshal : string -> option DocumentData;
  (** [msgpack.Marshal] and [msgpack.Unmarshal] of the WAL entry
      [{Operation, ID, Document}]; the document is [None] for the nil map *)
  marshalWAL : string -> string -> option DocumentData -> option (list byte);
  unmarshalWAL : list byte -> option (string * string * DocumentData);
  (** ... and of the data record [{ID, Data}] *)
  marshalData : string -> DocumentData -> option (list byte);
  unmarshalData : list byte -> option (string * DocumentData)
}.

(** ** utils.go *)

Definition OperationInsert : string := "INSERT".
Definition OperationUpdate : string := "UPDATE".
Definition OperationDelete : string := "DELETE".

Definition toFloat64 (v : Value) : float :=
  match v with
  | VInt value => floatOfInt value
  | VInt64 value => floatOfInt value
  | VFloat32 value => value
  | VFloat64 value => value
  | _ => nan
  end.

Definition toComparableValue (v : Value) : Value :=
  match v with
  | VInt value => VInt64 value
  | VInt32 value => VInt64 value
  | VInt64 value => VInt64 value
  | VFloat32 value => VFloat64 value
  | VFloat64 value => VFloat64 value
  | VTime sec _ => VInt64 sec
  | _ => v
  end.

Section Utils.
Context `{GoLib}.

(** [fmt.Sprintf("%v", v)], the default textual form. *)
Definition Sprintf (v : Value) : string :=
  match v with
  | VNil => "<nil>"
  | VBool true => "true"
  | VBool false => "false"
  | VInt n | VInt32 n | VInt64 n => formatInt n
  | VFloat32 x => formatFloat32 x
  | VFloat64 x => formatFloat64 x
  | VString s => s
  | VTime sec nsec => formatTime sec nsec
  end.

(** The type assertions [bValue.(float64)], [bValue.(int64)] and
    [bValue.(string)] panic when [bValue] has another dynamic type. *)
Definition compareValues (a b : Value) : Res Z :=
  let aValue := toComparableValue a in
  let bValue := toComparableValue b in
  match aValue with
  | VInt64 va =>
      vb ← match bValue with
           | VInt64 vb => Ok vb
           | VFloat64 f => Ok (intOfFloat f)
           | _ => Panic
           end;
      Ok (threeWayInt va vb)
  | VFloat64 va =>
      vb ← match bValue with
           | VFloat64 vb => Ok vb
           | VInt64 n => Ok (floatOfInt n)
           | _ => Panic
           end;
      Ok (threeWayFloat va vb)
  | VString va =>
      match bValue with
      | VString vb => Ok (stringsCompare va vb)
      | _ => Panic
      end
  | _ => Ok (stringsCompare (Sprintf a) (Sprintf b))
  end.

End Utils.

(** ** indexs.go *)

(** [Index.values] is a [sync.Map] from an interface value to a set of ids.
    Its keys are compared as interface values, so it is kept as an
    association list searched with [ifaceEq]. *)
Record Index := mkIndex {
  field : string;
  values : list (Value * gset string);
  trie : Trie.Trie
}.

Record CompositeIndex := mkCompositeIndex {
  fields : list string;
  compositeValues : gmap string (gset string)
}.

(** What the registry [db.indexes] holds under a key. *)
Inductive IndexEntry :=
| SingleIndex (idx : Index)
| CompIndex (idx : CompositeIndex).

(** [index.values.Load(k)] *)
Fixpoint valuesLoad (k : Value) (vs : list (Value * gset string)) : option (gset string) :=
  match vs with
  | [] => None
  | (k', ids) :: vs' => if ifaceEq k' k then Some ids else valuesLoad k vs'
  end.

(** [m, _ := index.values.LoadOrStore(k, &sync.Map{}); m.Store(id, struct{}{})] *)
Fixpoint valuesStoreID (k : Value) (id : string) (vs : list (Value * gset string))
    : list (Value * gset string) :=
  match vs with
  | [] => [(k, {[id]})]
  | (k', ids) :: vs' =>
      if ifaceEq k' k then (k', {[id]} ∪ ids) :: vs'
      else (k', ids) :: valuesStoreID k id vs'
  end.

(** [if m, ok := index.values.Load(k); ok { m.Delete(id) }] *)
Fixpoint valuesDeleteID (k : Value) (id : string) (vs : list (Value * gset string))
    : list (Value * gset string) :=
  match vs with
  | [] => []
  | (k', ids) :: vs' =>
      if ifaceEq k' k then (k', ids ∖ {[id]}) :: vs'
      else (k', ids) :: valuesDeleteID k id vs'
  end.

(** The same two steps on the string-keyed map of a composite index. *)
Definition compositeStoreID (key id : string) (m : gmap string (gset string))
    : gmap string (gset string) :=
  <[key := {[id]} ∪ default ∅ (m !! key)]> m.

Definition compositeDeleteID (key id : string) (m : gmap string (gset string))
    : gmap string (gset string) :=
  match m !! key with
  | Some ids => <[key := ids ∖ {[id]}]> m
  | None => m
  end.

(** [doc.data[f]] read without the presence flag: nil when [f] is missing. *)
Definition fieldOrNil (doc : DocumentData) (f : string) : Value :=
  default VNil (doc !! f).

Section Indexes.
Context `{GoLib}.

(** The value a document is filed under by [indexDocument]. *)
Definition indexValueOf (fieldValue : Value) : Value :=
  match fieldValue with
  | VInt _ | VInt64 _ | VFloat32 _ | VFloat64 _ => VFloat64 (toFloat64 fieldValue)
  | VTime sec _ => VInt64 sec
  | _ => fieldValue
  end.

Definition indexDocument (doc : DocumentData) (id : string) (index : Index) : Index :=
  match doc !! field index with
  | Some fieldValue =>
      let indexValue := indexValueOf fieldValue in
      let strValue := Sprintf indexValue in
      {| field := field index;
         values := valuesStoreID indexValue id (values index);
         trie := Trie.Insert (trie index) (ToLower strValue) id |}
  | None => index
  end.

(** The key built by the loop of [indexDocumentComposite]. *)
Definition indexCompositeKey (doc : DocumentData) (index : CompositeIndex) : string :=
  let fieldValues :=
    map (fun field => match doc !! field with
                      | Some fieldValue => Sprintf fieldValue
                      | None => ""
                      end) (fields index) in
  stringsJoin fieldValues "-".

Definition indexDocumentComposite (doc : DocumentData) (id : string)
    (index : CompositeIndex) : CompositeIndex :=
  let compositeKey := indexCompositeKey doc index in
  {| fields := fields index;
     compositeValues := compositeStoreID compositeKey id (compositeValues index) |}.

Definition updateIndex (id : string) (oldDoc newDoc : DocumentData) (index : Index)
    : Index :=
  let oldValue := fieldOrNil oldDoc (field index) in
  let newValue := fieldOrNil newDoc (field index) in
  if negb (ifaceEq oldValue newValue) then
    let vs := valuesDeleteID oldValue id (values index) in
    let t := Trie.Remove (trie index) (ToLower (Sprintf oldValue)) id in
    let vs := valuesStoreID newValue id vs in
    let t := Trie.Insert t (ToLower (Sprintf newValue)) id in
    {| field := field index; values := vs; trie := t |}
  else index.

(** The key built for one side by the loop of [updateCompositeIndex]: the
    field is read without a presence test. *)
Definition updateCompositeKey (doc : DocumentData) (index : CompositeIndex) : string :=
  stringsJoin (map (fun field => Sprintf (fieldOrNil doc field)) (fields index)) "-".

Definition updateCompositeIndex (id : string) (oldDoc newDoc : DocumentData)
    (index : CompositeIndex) : CompositeIndex :=
  let oldCompositeKey := updateCompositeKey oldDoc index in
  let newCompositeKey := updateCompositeKey newDoc index in
  if negb (String.eqb oldCompositeKey newCompositeKey) then
    let m := compositeDeleteID oldCompositeKey id (compositeValues index) in
    let m := compositeStoreID newCompositeKey id m in
    {| fields := fields index; compositeValues := m |}
  else index.

Definition removeFromIndex (id : string) (doc : DocumentData) (index : Index) : Index :=
  match doc !! field index with
  | Some fieldValue =>
      {| field := field index;
         values := valuesDeleteID fieldValue id (values index);
         trie := Trie.Remove (trie index) (ToLower (Sprintf fieldValue)) id |}
  | None => index
  end.

(** The key built by the loop of [removeFromCompositeIndex]. *)
Definition removeCompositeKey (doc : DocumentData) (index : CompositeIndex) : string :=
  let fieldValues :=
    map (fun field => match doc !! field with
                      | Some fieldValue => Sprintf fieldValue
                      | None => ""
                      end) (fields index) in
  stringsJoin fieldValues "-".

Definition removeFromCompositeIndex (id : string) (doc : DocumentData)
    (index : CompositeIndex) : CompositeIndex :=
  let compositeKey := removeCompositeKey doc index in
  {| fields := fields index;
     compositeValues := compositeDeleteID compositeKey id (compositeValues index) |}.

End Indexes.

(** ** The database *)

(** [Database]: the document store, the index registry, the primary-key
    field, the contents of the two files and the document counter. *)
Record Database := mkDatabase {
  data : gmap string DocumentData;
  indexes : gmap string IndexEntry;
  primaryKey : string;
  dataFile : list byte;
  walFile : list byte;
  docCount : Z
}.

(** The two files of a database directory, [data.db] and [wal.log]. *)
Record Disk := mkDisk {
  diskData : list byte;
  diskWAL : list byte
}.

(** [atomic.AddInt64]: addition on 64-bit signed integers wraps around. *)
Definition wrapInt64 (z : Z) : Z := (z + 2 ^ 63) mod 2 ^ 64 - 2 ^ 63.

Definition addInt64 (a b : Z) : Z := wrapInt64 (a + b).

(** How the two writes of an append go: both succeed, the write of the
    length fails, or the write of the body fails after the length went out. *)
Inductive WriteFault :=
| NoFault
| SizeWriteFails
| BodyWriteFails.

(** The outcome of the file system calls of one operation: the append to the
    WAL, the seek to the end of the data file and the append to it. *)
Record IO := mkIO {
  walFault : WriteFault;
  dataSeekFails : bool;
  dataFault : WriteFault
}.

Definition ioOK : IO := {| walFault := NoFault; dataSeekFails := false; dataFault := NoFault |}.

Inductive WriteError :=
| MarshalFailed
| SeekFailed
| SizeWriteFailed
| BodyWriteFailed.

Inductive ReadError :=
| ReadSizeFailed
| ReadDataFailed
| UnmarshalFailed.

Inductive Error :=
| ErrParseJSON
| ErrUnsupportedInputType
| ErrPrimaryKeyNotFound
| ErrAlreadyExists
| ErrNotFound
| ErrWriteWAL (cause : WriteError)
| ErrLoadData (cause : ReadError)
| ErrRecoverWAL (cause : ReadError).

(** ** write.go *)

Definition byteOfN (n : N) : byte :=
  match Byte.of_N (n mod 256) with
  | Some b => b
  | None => x00
  end.

(** [uint32(len(data))] *)
Definition uint32OfLen (n : nat) : N := (N.of_nat n mod 2 ^ 32)%N.

(** [binary.Write(f, binary.LittleEndian, size)] for a [uint32]. *)
Definition putUint32 (size : N) : list byte :=
  [byteOfN size; byteOfN (size / 256); byteOfN (size / 65536); byteOfN (size / 16777216)].

Definition getUint32 (b0 b1 b2 b3 : byte) : N :=
  (Byte.to_N b0 + 256 * Byte.to_N b1 + 65536 * Byte.to_N b2 + 16777216 * Byte.to_N b3)%N.

(** The length and the body as the two writes leave them in the file. *)
Definition appendRecord (fault : WriteFault) (file body : list byte)
    : list byte * option WriteError :=
  match fault with
  | SizeWriteFails => (file, Some SizeWriteFailed)
  | BodyWriteFails => (file ++ putUint32 (uint32OfLen (length body)), Some BodyWriteFailed)
  | NoFault => (file ++ putUint32 (uint32OfLen (length body)) ++ body, None)
  end.

(** The two reads at the head of the loops of [loadData] and
    [recoverFromWAL]: [binary.Read] of the length, which is [io.EOF] only
    when no byte is left and [io.ErrUnexpectedEOF] when one to three are,
    then [io.ReadFull] of the body. *)
Inductive ReadResult :=
| ReadEOF
| ReadSizeError
| ReadDataError
| ReadRecord (body rest : list byte).

Definition readRecord (file : list byte) : ReadResult :=
  match file with
  | [] => ReadEOF
  | b0 :: b1 :: b2 :: b3 :: rest =>
      let size := N.to_nat (getUint32 b0 b1 b2 b3) in
      if (size <=? length rest)%nat
      then ReadRecord (take size rest) (drop size rest)
      else ReadDataError
  | _ => ReadSizeError
  end.

Section Store.
Context `{GoLib}.

Definition writeWAL (fault : WriteFault) (db : Database) (operation id : string)
    (doc : option DocumentData) : Database * option WriteError :=
  match marshalWAL operation id doc with
  | None => (db, Some MarshalFailed)
  | Some body =>
      let '(file, err) := appendRecord fault (walFile db) body in
      ({| data := data db; indexes := indexes db; primaryKey := primaryKey db;
          dataFile := dataFile db; walFile := file; docCount := docCount db |}, err)
  end.

Definition writeToDataFile (io : IO) (db : Database) (id : string) (doc : DocumentData)
    : Database * option WriteError :=
  match marshalData id doc with
  | None => (db, Some MarshalFailed)
  | Some body =>
      if dataSeekFails io then (db, Some SeekFailed)
      else
        let '(file, err) := appendRecord (dataFault io) (dataFile db) body in
        ({| data := data db; indexes := indexes db; primaryKey := primaryKey db;
            dataFile := file; walFile := walFile db; docCount := docCount db |}, err)
  end.

(** [db.indexes.Range] with the type switch of [Insert] and [loadData]. *)
Definition indexAll (doc : DocumentData) (id : string) (e : IndexEntry) : IndexEntry :=
  match e with
  | SingleIndex idx => SingleIndex (indexDocument doc id idx)
  | CompIndex idx => CompIndex (indexDocumentComposite doc id idx)
  end.

(** One round of the loop of [loadData] on what is left of the file.  The
    loop reads at least four bytes a round, so [fuel] above the length of the
    file is never used up. *)
Fixpoint loadLoop (fuel : nat) (db : Database) (file : list byte)
    : Database * option ReadError :=
  match fuel with
  | O => (db, None)
  | S fuel' =>
      match readRecord file with
      | ReadEOF => (db, None)
      | ReadSizeError => (db, Some ReadSizeFailed)
      | ReadDataError => (db, Some ReadDataFailed)
      | ReadRecord body rest =>
          match unmarshalData body with
          | None => (db, Some UnmarshalFailed)
          | Some (ID, Data) =>
              loadLoop fuel'
                {| data := <[ID := Data]> (data db);
                   indexes := indexAll Data ID <$> indexes db;
                   primaryKey := primaryKey db;
                   dataFile := dataFile db; walFile := walFile db;
                   docCount := addInt64 (docCount db) 1 |}
                rest
          end
      end
  end.

Definition loadData (db : Database) : Database * option ReadError :=
  loadLoop (S (length (dataFile db))) db (dataFile db).

Fixpoint recoverLoop (fuel : nat) (db : Database) (file : list byte)
    : Database * option ReadError :=
  match fuel with
  | O => (db, None)
  | S fuel' =>
      match readRecord file with
      | ReadEOF => (db, None)
      | ReadSizeError => (db, Some ReadSizeFailed)
      | ReadDataError => (db, Some ReadDataFailed)
      | ReadRecord body rest =>
          match unmarshalWAL body with
          | None => (db, Some UnmarshalFailed)
          | Some (Operation, ID, Document) =>
              let store :=
                if String.eqb Operation OperationInsert || String.eqb Operation OperationUpdate
                then <[ID := Document]> (data db)
                else if String.eqb Operation OperationDelete
                then delete ID (data db)
                else data db in
              recoverLoop fuel'
                {| data := store; indexes := indexes db; primaryKey := primaryKey db;
                   dataFile := dataFile db; walFile := walFile db;
                   docCount := docCount db |}
                rest
          end
      end
  end.

Definition recoverFromWAL (db : Database) : Database * option ReadError :=
  recoverLoop (S (length (walFile db))) db (walFile db).

(** ** The database file: NewDatabase, Close, Count *)

(** [NewDatabase] on a directory holding [disk]: the data file is opened as
    it is, the WAL is opened with [O_TRUNC].  Creating the directory and
    opening the files are taken to succeed. *)
Definition NewDatabase (primaryKey : string) (disk : Disk) : Database + Error :=
  let db := {| data := ∅; indexes := ∅; primaryKey := primaryKey;
               dataFile := diskData disk; walFile := [];
               docCount := 0 |} in
  match loadData db with
  | (_, Some err) => inr (ErrLoadData err)
  | (db, None) =>
      match recoverFromWAL db with
      | (_, Some err) => inr (ErrRecoverWAL err)
      | (db, None) => inl db
      end
  end.

(** [Close] leaves the two files on disk. *)
Definition Close (db : Database) : Disk :=
  {| diskData := dataFile db; diskWAL := walFile db |}.

Definition Count (db : Database) : Z := docCount db.

(** ** document.go *)

(** The argument of [Insert], an [interface{}]: a map, a string, or a value
    of any other type. *)
Inductive InsertArg :=
| ArgMap (v : DocumentData)
| ArgString (v : string)
| ArgOther.

(** [Get] returns the stored map and [true], or nil and [false]. *)
Definition Get (db : Database) (id : string) : option DocumentData := data db !! id.

Definition exists_ (db : Database) (id : string) : bool :=
  match Get db id with
  | Some _ => true
  | None => false
  end.

(** The type switch at the head of [Insert]. *)
Definition decodeArg (docData : InsertArg) : DocumentData + Error :=
  match docData with
  | ArgMap v => inl v
  | ArgString v =>
      match jsonUnmarshal v with
      | Some doc => inl doc
      | None => inr ErrParseJSON
      end
  | ArgOther => inr ErrUnsupportedInputType
  end.

Definition Insert (io : IO) (db : Database) (docData : InsertArg)
    : Database * option Error :=
  match decodeArg docData with
  | inr err => (db, Some err)
  | inl doc =>
      match doc !! primaryKey db with
      | None => (db, Some ErrPrimaryKeyNotFound)
      | Some id =>
          let idStr := Sprintf id in
          if exists_ db idStr then (db, Some ErrAlreadyExists)
          else
            match writeWAL (walFault io) db OperationInsert idStr (Some doc) with
            | (db, Some err) => (db, Some (ErrWriteWAL err))
            | (db, None) =>
                let db := {| data := <[idStr := doc]> (data db);
                             indexes := indexAll doc idStr <$> indexes db;
                             primaryKey := primaryKey db;
                             dataFile := dataFile db; walFile := walFile db;
                             docCount := addInt64 (docCount db) 1 |} in
                (* go func() { db.writeToDataFile(idStr, doc) }(): an error is only logged *)
                ((writeToDataFile io db idStr doc).1, None)
            end
      end
  end.

(** The type switch of [Update] over the registry. *)
Definition updateAll (id : string) (oldDoc newDoc : DocumentData) (e : IndexEntry)
    : IndexEntry :=
  match e with
  | SingleIndex idx => SingleIndex (updateIndex id oldDoc newDoc idx)
  | CompIndex idx => CompIndex (updateCompositeIndex id oldDoc newDoc idx)
  end.

(** With no concurrent writer the compare-and-swap succeeds at once.  The
    new map is the old one overlaid with the updates. *)
Definition Update (io : IO) (db : Database) (id : string) (updates : DocumentData)
    : Database * option Error :=
  match data db !! id with
  | Some oldDoc =>
      let newData := updates ∪ oldDoc in
      let db := {| data := <[id := newData]> (data db);
                   indexes := indexes db; primaryKey := primaryKey db;
                   dataFile := dataFile db; walFile := walFile db;
                   docCount := docCount db |} in
      match writeWAL (walFault io) db OperationUpdate id (Some newData) with
      | (db, Some err) => (db, Some (ErrWriteWAL err))
      | (db, None) =>
          let db := {| data := data db;
                       indexes := updateAll id oldDoc newData <$> indexes db;
                       primaryKey := primaryKey db;
                       dataFile := dataFile db; walFile := walFile db;
                       docCount := docCount db |} in
          ((writeToDataFile io db id newData).1, None)
      end
  | None => (db, Some ErrNotFound)
  end.

(** The type switch of [Delete] over the registry. *)
Definition removeAll (id : string) (doc : DocumentData) (e : IndexEntry) : IndexEntry :=
  match e with
  | SingleIndex idx => SingleIndex (removeFromIndex id doc idx)
  | CompIndex idx => CompIndex (removeFromCompositeIndex id doc idx)
  end.

Definition Delete (io : IO) (db : Database) (id : string) : Database * option Error :=
  match data db !! id with
  | Some doc =>
      let db := {| data := delete id (data db);
                   indexes := indexes db; primaryKey := primaryKey db;
                   dataFile := dataFile db; walFile := walFile db;
                   docCount := docCount db |} in
      match writeWAL (walFault io) db OperationDelete id None with
      | (db, Some err) => (db, Some (ErrWriteWAL err))
      | (db, None) =>
          ({| data := data db;
              indexes := removeAll id doc <$> indexes db;
              primaryKey := primaryKey db;
              dataFile := dataFile db; walFile := walFile db;
              docCount := addInt64 (docCount db) (-1) |}, None)
      end
  | None => (db, None)
  end.

(** ** indexs.go: creating indexes *)

Definition NewIndex (field : string) : Index :=
  {| field := field; values := []; trie := Trie.NewTrie |}.

Definition CreateIndex (db : Database) (field : string) : Database :=
  match indexes db !! field with
  | None =>
      let index :=
        map_fold (fun key doc index => indexDocument doc key index)
                 (NewIndex field) (data db) in
      {| data := data db;
         indexes := <[field := SingleIndex index]> (indexes db);
         primaryKey := primaryKey db;
         dataFile := dataFile db; walFile := walFile db;
         docCount := docCount db |}
  | Some _ => db
  end.

Definition CreateCompositeIndex (db : Database) (fields : list string) : Database :=
  let indexKey := stringsJoin fields "-" in
  match indexes db !! indexKey with
  | None =>
      let index :=
        map_fold (fun key doc index => indexDocumentComposite doc key index)
                 {| fields := fields; compositeValues := ∅ |} (data db) in
      {| data := data db;
         indexes := <[indexKey := CompIndex index]> (indexes db);
         primaryKey := primaryKey db;
         dataFile := dataFile db; walFile := walFile db;
         docCount := docCount db |}
  | Some _ => db
  end.

(** ** The query files *)

(** The documents of a set of ids that [Get] still finds. *)
Definition resolveIDs (db : Database) (ids : gset string) : list DocumentData :=
  omap (Get db) (elements ids).

Definition QueryComposite (db : Database) (fields : list string) (values : list Value)
    : list DocumentData :=
  let indexKey := stringsJoin fields "-" in
  match indexes db !! indexKey with
  | Some (CompIndex idx) =>
      let compositeKey := stringsJoin (map Sprintf values) "-" in
      match compositeValues idx !! compositeKey with
      | Some ids => resolveIDs db ids
      | None => []
      end
  | Some (SingleIndex _) => []
  | None => []
  end.

(** [compareValues(v, minValue) >= 0 && compareValues(v, maxValue) <= 0] *)
Definition withinRange (v minValue maxValue : Value) : Res bool :=
  lo ← compareValues v minValue;
  if 0 <=? lo
  then hi ← compareValues v maxValue; Ok (hi <=? 0)
  else Ok false.

(** A [Range] whose callback may panic. *)
Fixpoint rangeCollect {A : Type} (f : A -> Res (list DocumentData)) (l : list A)
    : Res (list DocumentData) :=
  match l with
  | [] => Ok []
  | x :: l' =>
      found ← f x;
      more ← rangeCollect f l';
      Ok (found ++ more)
  end.

Definition RangeQuery (db : Database) (field : string) (min max : Value)
    : Res (list DocumentData) :=
  let minValue := toComparableValue min in
  let maxValue := toComparableValue max in
  match indexes db !! field with
  | Some (SingleIndex idx) =>
      rangeCollect
        (fun bucket : Value * gset string =>
           let '(key, ids) := bucket in
           let keyValue := toComparableValue key in
           hit ← withinRange keyValue minValue maxValue;
           Ok (if hit : bool then resolveIDs db ids else []))
        (values idx)
  | Some (CompIndex _) => Ok []
  | None =>
      rangeCollect
        (fun entry : string * DocumentData =>
           let '(_, doc) := entry in
           match doc !! field with
           | Some fieldValue =>
               let docValue := toComparableValue fieldValue in
               hit ← withinRange docValue minValue maxValue;
               Ok (if hit : bool then [doc] else [])
           | None => Ok []
           end)
        (map_to_list (data db))
  end.

End Store.

(** ** The query files: Query, GetAll and the fuzzy queries *)

(** [regexp.QuoteMeta]: a backslash before each of the bytes
    [\.+*?()|[]{}^$]. *)
Definition isRegexpMeta (a : ascii) : bool :=
  existsb (Ascii.eqb a) (list_ascii_of_string "\.+*?()|[]{}^$").

Fixpoint QuoteMeta (s : string) : string :=
  match s with
  | EmptyString => EmptyString
  | String a s' =>
      if isRegexpMeta a then String "\" (String a (QuoteMeta s'))
      else String a (QuoteMeta s')
  end.

(** [strings.ReplaceAll(s, old, new)] for a non-empty [old]: the occurrences
    of [old] are replaced from left to right, without overlap.  [skip] counts
    the bytes of a replaced occurrence that are still to be passed over. *)
Fixpoint replaceFrom (old new : string) (skip : nat) (s : string) : string :=
  match s with
  | EmptyString => EmptyString
  | String a s' =>
      match skip with
      | S k => replaceFrom old new k s'
      | O =>
          if String.prefix old s
          then (new ++ replaceFrom old new (String.length old - 1) s')%string
          else String a (replaceFrom old new 0 s')
      end
  end.

Definition ReplaceAll (s old new : string) : string := replaceFrom old new 0 s.

(** The text [wildcardToRegexp] hands to [regexp.MustCompile]. *)
Definition wildcardRegexpText (pattern : string) : string :=
  ("^" ++ ReplaceAll (QuoteMeta pattern) "\*" ".*" ++ "$")%string.

(** What one byte of a wildcard pattern stands for in a regular expression:
    [.*] for the star, the escaped byte for any other special byte, the byte
    itself otherwise. *)
Definition regexpOfByte (a : ascii) : string :=
  if Ascii.eqb a "*" then ".*"%string
  else if isRegexpMeta a then String "\" (String a EmptyString)
  else String a EmptyString.

Fixpoint regexpOfBytes (s : string) : string :=
  match s with
  | EmptyString => EmptyString
  | String a s' => (regexpOfByte a ++ regexpOfBytes s')%string
  end.

(** [regexp.MustCompile], which panics on a text it cannot parse, and
    [MatchString] of the compiled expression. *)
Class GoRegexp := {
  MustCompile : string -> Res (string -> bool)
}.

Section Queries.
Context `{GoLib} `{GoRegexp}.


(** [GetAll]: a copy of every stored map, in the order of the [Range]. *)
Definition GetAll (db : Database) : list DocumentData :=
  map snd (map_to_list (data db)).

Definition wildcardToRegexp (pattern : string) : Res (string -> bool) :=
  MustCompile (wildcardRegexpText pattern).

Definition fullScanFuzzyQuery (db : Database) (field pattern : string)
    : Res (list DocumentData) :=
  regex ← wildcardToRegexp pattern;
  Ok (concat (map (fun entry : string * DocumentData =>
                     let '(_, doc) := entry in
                     match doc !! field with
                     | Some fieldValue =>
                         if regex (Sprintf fieldValue) : bool then [doc] else []
                     | None => []
                     end)
                  (map_to_list (data db)))).

Definition FuzzyQuery (db : Database) (field pattern : string) : Res (list DocumentData) :=
  match indexes db !! field with
  | Some (SingleIndex idx) =>
      let matchedDocs := Trie.FuzzySearch (trie idx) (ToLower pattern) in
      Ok (resolveIDs db matchedDocs)
  | Some (CompIndex _) => Ok []
  | None => fullScanFuzzyQuery db field pattern
  end.

End Queries.

(** ** Vocabulary of the properties *)

(** A database just created on an empty directory. *)
Definition emptyDisk : Disk := {| diskData := []; diskWAL := [] |}.

Definition freshDatabase (primaryKey : string) : Database :=
  {| data := ∅; indexes := ∅; primaryKey := primaryKey;
     dataFile := []; walFile := []; docCount := 0 |}.

(** A record as [appendRecord] writes it, and a file made of whole records. *)
Definition frame (body : list byte) : list byte :=
  putUint32 (uint32OfLen (length body)) ++ body.

Definition frames (bodies : list (list byte)) : list byte :=
  concat (map frame bodies).

(** The counter after [n] increments by [atomic.AddInt64(&db.docCount, 1)]. *)
Definition countAfter (n : nat) (count : Z) : Z :=
  Nat.iter n (fun c => addInt64 c 1) count.

(** The length of the body fits the 32-bit length field. *)
Definition fitsUint32 (body : list byte) : Prop :=
  (N.of_nat (length body) < 2 ^ 32)%N.

(** The store, the registry and the counter of [db'] are those of [db]. *)
Definition sameMemory (db db' : Database) : Prop :=
  data db' = data db /\ indexes db' = indexes db /\ docCount db' = docCount db.


Section Vocabulary.
Context `{GoLib}.

(** A record body the data file reader, resp. the WAL reader, decodes. *)
Definition loadable (body : list byte) : Prop :=
  fitsUint32 body /\ is_Some (unmarshalData body).

Definition replayable (body : list byte) : Prop :=
  fitsUint32 body /\ is_Some (unmarshalWAL body).

(** The ways an [Insert] fails that come before any change to the store:
    an argument that is neither a map nor a string, a document without the
    primary-key field, an id already in the store, and a failed append to
    the WAL. *)
Inductive InsertFails (io : IO) (db : Database) : InsertArg -> Prop :=
| fails_unsupported_type :
    InsertFails io db ArgOther
| fails_primary_key_missing docData doc :
    decodeArg docData = inl doc ->
    doc !! primaryKey db = None ->
    InsertFails io db docData
| fails_id_exists docData doc id :
    decodeArg docData = inl doc ->
    doc !! primaryKey db = Some id ->
    is_Some (Get db (Sprintf id)) ->
    InsertFails io db docData
| fails_wal_append docData doc id err :
    decodeArg docData = inl doc ->
    doc !! primaryKey db = Some id ->
    (writeWAL (walFault io) db OperationInsert (Sprintf id) (Some doc)).2 = Some err ->
    InsertFails io db docData.


End Vocabulary.

(** ** Vocabulary of the further properties *)




Section Runs.
Context `{GoLib}.

(** A run of [Insert] calls, whatever each of them returns. *)
Definition insertAll (io : IO) (db : Database) (docs : list InsertArg) : Database :=
  fold_left (fun db docData => (Insert io db docData).1) docs db.

End Runs.

Section Coverage.
Context `{GoLib}.

(** The index [idx] covers the store [m]: an id is in a bucket exactly when
    its document holds the field, the key of the bucket being, or being equal
    as an interface value to, the value [indexDocument] files the document
    under; and the trie holds the id exactly along the lower-cased text of
    that value. *)
Definition indexCovers (m : gmap string DocumentData) (idx : Index) : Prop :=
  (forall k ids id, (k, ids) ∈ values idx -> id ∈ ids ->
     exists d v, m !! id = Some d /\ d !! field idx = Some v /\
                 (k = indexValueOf v \/ ifaceEq k (indexValueOf v) = true)) /\
  (forall pre n id, Trie.nodeAt pre (Trie.root (trie idx)) = Some n -> id ∈ Trie.docs n ->
     exists d v, m !! id = Some d /\ d !! field idx = Some v /\ pre <> [] /\
                 pre `prefix_of` runes (ToLower (Sprintf (indexValueOf v)))) /\
  (forall id d v, m !! id = Some d -> d !! field idx = Some v ->
     (exists k ids, (k, ids) ∈ values idx /\ id ∈ ids /\
                    (k = indexValueOf v \/ ifaceEq k (indexValueOf v) = true)) /\
     (forall pre, pre <> [] ->
        pre `prefix_of` runes (ToLower (Sprintf (indexValueOf v))) ->
        exists n, Trie.nodeAt pre (Trie.root (trie idx)) = Some n /\ id ∈ Trie.docs n)).

(** The registry holds under [f] a single-field index on [f] that covers the
    store. *)
Definition covered (db : Database) (f : string) : Prop :=
  exists idx, indexes db !! f = Some (SingleIndex idx) /\ field idx = f /\
              indexCovers (data db) idx.

End Coverage.

Section CompositeCoverage.
Context `{GoLib}.

(** The key [indexDocumentComposite] files a document under in a composite
    index on the fields [fs]. *)
Definition compositeKeyOf (doc : DocumentData) (fs : list string) : string :=
  indexCompositeKey doc {| fields := fs; compositeValues := ∅ |}.

(** A composite index covers the store [m]: an id is in the bucket of a key
    exactly when that key is the one of its document. *)
Definition compositeCovers (m : gmap string DocumentData) (idx : CompositeIndex) : Prop :=
  forall key id,
    (exists ids, compositeValues idx !! key = Some ids /\ id ∈ ids) <->
    (exists d, m !! id = Some d /\ key = compositeKeyOf d (fields idx)).

(** The registry holds, under the fields joined by [-], a composite index on
    [fs] that covers the store. *)
Definition compositeCovered (db : Database) (fs : list string) : Prop :=
  exists idx, indexes db !! stringsJoin fs "-" = Some (CompIndex idx) /\
              fields idx = fs /\ compositeCovers (data db) idx.

End CompositeCoverage.

(** The integer a value is compared as: [int], [int32] and [int64] by their
    value, a [time.Time] by its Unix seconds. *)
Definition integerOf (v : Value) : option Z :=
  match toComparableValue v with
  | VInt64 n => Some n
  | _ => None
  end.

Section Restart.
Context `{GoLib}.

(** [Close] followed by [NewDatabase] on the same directory with the same
    primary key. *)
Definition reopen (db : Database) : Database + Error :=
  NewDatabase (primaryKey db) (Close db).

(** A restart gives the store back. *)
Definition restartKeepsStore (db : Database) : Prop :=
  exists db', reopen db = inl db' /\ data db' = data db.

(** The data codec writes a record for the document that fits the length
    field and reads back as written. *)
Definition dataRecordReadsBack (id : string) (doc : DocumentData) : Prop :=
  exists body, marshalData id doc = Some body /\ fitsUint32 body /\
               unmarshalData body = Some (id, doc).

End Restart.

Section Replay.
Context `{GoLib}.

(** The WAL codec writes an entry that fits the length field and reads back
    with the operation, the id and, when there is one, the document. *)
Definition walRecordReadsBack (operation id : string) (doc : option DocumentData) : Prop :=
  exists body d, marshalWAL operation id doc = Some body /\ fitsUint32 body /\
                 unmarshalWAL body = Some (operation, id, d) /\
                 forall x, doc = Some x -> d = x.

(** [recoverFromWAL] run on the WAL of [db] over the store [base]. *)
Definition replayWAL (base : gmap string DocumentData) (db : Database)
    : Database * option ReadError :=
  recoverFromWAL {| data := base; indexes := indexes db; primaryKey := primaryKey db;
                    dataFile := dataFile db; walFile := walFile db;
                    docCount := docCount db |}.

(** Replaying the WAL over [base] succeeds and gives the store of [db]. *)
Definition walRebuildsStore (base : gmap string DocumentData) (db : Database) : Prop :=
  (replayWAL base db).2 = None /\ data (replayWAL base db).1 = data db.

End Replay.

Section Keys.
Context `{GoLib}.

(** Every document is stored under the text of its primary-key field. *)
Definition storedUnderKey (db : Database) : Prop :=
  forall id doc, data db !! id = Some doc ->
    exists key, doc !! primaryKey db = Some key /\ Sprintf key = id.

End Keys.

Section TextCoverage.
Context `{GoLib}.

(** Every stored document that has the field [f] holds a string in it. *)
Definition textField (m : gmap string DocumentData) (f : string) : Prop :=
  forall id d v, m !! id = Some d -> d !! f = Some v -> exists s, v = VString s.

(** The buckets of [idx] cover the store [m] on a string field: the keys are
    strings, no key occurs twice, and an id is in the bucket of a string
    exactly when its document holds that string in the field. *)
Definition textCovers (m : gmap string DocumentData) (idx : Index) : Prop :=
  NoDup (values idx).*1 /\
  (forall k, k ∈ (values idx).*1 -> exists s, k = VString s) /\
  (forall s id,
     id ∈ default ∅ (valuesLoad (VString s) (values idx)) <->
     exists d, m !! id = Some d /\ d !! field idx = Some (VString s)).

(** The field [f] holds only strings, and the registry holds under [f] a
    single-field index on [f] whose buckets cover the store. *)
Definition textCovered (db : Database) (f : string) : Prop :=
  textField (data db) f /\
  exists idx, indexes db !! f = Some (SingleIndex idx) /\ field idx = f /\
              textCovers (data db) idx.

End TextCoverage.

(** The float a value is compared as: a [float32] or a [float64]. *)
Definition floatOf (v : Value) : option float :=
  match toComparableValue v with
  | VFloat64 x => Some x
  | _ => None
  end.

(** ** Documents used in the examples *)

(** [{"id": "1", "age": 30}] with a Go [int], and the patch [{"age": 31}]. *)
Definition docAge30 : DocumentData := <["id" := VString "1"]> (<["age" := VInt 30]> ∅).
Definition patchAge31 : DocumentData := <["age" := VInt 31]> ∅.

(** [{"id": "1", "age": 1}] *)
Definition docAge1 : DocumentData := <["id" := VString "1"]> (<["age" := VInt 1]> ∅).

(** [{"id": "1", "a": "x"}], which has no field ["b"], and the patch [{"a": "y"}]. *)
Definition docAX : DocumentData := <["id" := VString "1"]> (<["a" := VString "x"]> ∅).
Definition patchAY : DocumentData := <["a" := VString "y"]> ∅.

(** ** A library instance to run the model on examples

    The theorems below hold for every [GoLib].  To evaluate the model on
    concrete inputs one instance is fixed here.  It agrees with Go on what
    the examples print and lower-case (integral floats below 10^6, ASCII
    text); its codec is a simple tagged binary format, not MessagePack, and
    its JSON decoder only accepts the empty object. *)
Module ExampleLib.

Definition lowerAscii (a : ascii) : ascii :=
  let n := N_of_ascii a in
  if ((65 <=? n) && (n <=? 90))%N then ascii_of_N (n + 32) else a.

Fixpoint lowerString (s : string) : string :=
  match s with
  | EmptyString => EmptyString
  | String a s' => String (lowerAscii a) (lowerString s')
  end.

Definition formatFloat (x : float) : string :=
  match Prim2SF x with
  | S754_nan => "NaN"
  | S754_infinity false => "+Inf"
  | S754_infinity true => "-Inf"
  | S754_zero false => "0"
  | S754_zero true => "-0"
  | S754_finite s m e =>
      let n := intOfFloat x in
      if PrimFloat.eqb (floatOfInt n) x && (Z.abs n <? 1000000)
      then formatInt n
      else ((if s then "-" else "") ++ formatInt (Z.pos m) ++ "p" ++ formatInt e)%string
  end.

Definition formatUnix (sec nsec : Z) : string :=
  ("unix:" ++ formatInt sec ++ "." ++ formatInt nsec)%string.

Definition decodeJSON (s : string) : option DocumentData :=
  if String.eqb s "{}" then Some ∅ else None.

(** The codec: a string is its length on four bytes and its bytes; an
    integer is its decimal text; a value is a tag byte and its payload; a
    document is the number of its fields and the fields in key order. *)
Definition putString (s : string) : list byte :=
  putUint32 (uint32OfLen (String.length s)) ++ list_byte_of_string s.

Definition putZ (z : Z) : list byte := putString (formatInt z).

Definition putFloat (x : float) : list byte :=
  match Prim2SF x with
  | S754_zero s => [if s then x01 else x00]
  | S754_infinity s => [if s then x03 else x02]
  | S754_nan => [x04]
  | S754_finite s m e => [if s then x06 else x05] ++ putZ (Z.pos m) ++ putZ e
  end.

Definition putValue (v : Value) : list byte :=
  match v with
  | VNil => [x00]
  | VBool b => [x01; if b then x01 else x00]
  | VInt n => x02 :: putZ n
  | VInt32 n => x03 :: putZ n
  | VInt64 n => x04 :: putZ n
  | VFloat32 x => x05 :: putFloat x
  | VFloat64 x => x06 :: putFloat x
  | VString s => x07 :: putString s
  | VTime sec nsec => x08 :: putZ sec ++ putZ nsec
  end.

Definition putDoc (doc : DocumentData) : list byte :=
  let kvs := map_to_list doc in
  putUint32 (uint32OfLen (length kvs))
  ++ concat (map (fun kv : string * Value => putString kv.1 ++ putValue kv.2) kvs).

Definition Parser (A : Type) : Type := list byte -> option (A * list byte).

Definition getString : Parser string := fun bs =>
  match bs with
  | b0 :: b1 :: b2 :: b3 :: rest =>
      let n := N.to_nat (getUint32 b0 b1 b2 b3) in
      if (n <=? length rest)%nat
      then Some (string_of_list_byte (take n rest), drop n rest)
      else None
  | _ => None
  end.

Definition getZ : Parser Z := fun bs =>
  match getString bs with
  | Some (s, rest) =>
      match NilZero.int_of_string s with
      | Some d => Some (Z.of_int d, rest)
      | None => None
      end
  | None => None
  end.

Definition getFloat : Parser float := fun bs =>
  match bs with
  | x00 :: rest => Some (SF2Prim (S754_zero false), rest)
  | x01 :: rest => Some (SF2Prim (S754_zero true), rest)
  | x02 :: rest => Some (SF2Prim (S754_infinity false), rest)
  | x03 :: rest => Some (SF2Prim (S754_infinity true), rest)
  | x04 :: rest => Some (SF2Prim S754_nan, rest)
  | tag :: rest =>
      match getZ rest with
      | Some (m, rest) =>
          match getZ rest with
          | Some (e, rest) =>
              match tag, m with
              | x05, Z.pos p => Some (SF2Prim (S754_finite false p e), rest)
              | x06, Z.pos p => Some (SF2Prim (S754_finite true p e), rest)
              | _, _ => None
              end
          | None => None
          end
      | None => None
      end
  | [] => None
  end.

Definition getValue : Parser Value := fun bs =>
  match bs with
  | x00 :: rest => Some (VNil, rest)
  | x01 :: b :: rest => Some (VBool (negb (Byte.eqb b x00)), rest)
  | x02 :: rest => prod_map VInt id <$> getZ rest
  | x03 :: rest => prod_map VInt32 id <$> getZ rest
  | x04 :: rest => prod_map VInt64 id <$> getZ rest
  | x05 :: rest => prod_map VFloat32 id <$> getFloat rest
  | x06 :: rest => prod_map VFloat64 id <$> getFloat rest
  | x07 :: rest => prod_map VString id <$> getString rest
  | x08 :: rest =>
      match getZ rest with
      | Some (sec, rest) => prod_map (VTime sec) id <$> getZ rest
      | None => None
      end
  | _ => None
  end.

Fixpoint getFields (n : nat) (acc : DocumentData) : Parser DocumentData := fun bs =>
  match n with
  | O => Some (acc, bs)
  | S n' =>
      match getString bs with
      | Some (k, rest) =>
          match getValue rest with
          | Some (v, rest) => getFields n' (<[k := v]> acc) rest
          | None => None
          end
      | None => None
      end
  end.

Definition getDoc : Parser DocumentData := fun bs =>
  match bs with
  | b0 :: b1 :: b2 :: b3 :: rest => getFields (N.to_nat (getUint32 b0 b1 b2 b3)) ∅ rest
  | _ => None
  end.

Definition encodeData (id : string) (doc : DocumentData) : option (list byte) :=
  Some (putString id ++ putDoc doc).

Definition decodeData (bs : list byte) : option (string * DocumentData) :=
  match getString bs with
  | Some (id, rest) =>
      match getDoc rest with
      | Some (doc, []) => Some (id, doc)
      | _ => None
      end
  | None => None
  end.

Definition encodeWAL (operation id : string) (doc : option DocumentData)
    : option (list byte) :=
  Some (putString operation ++ putString id ++ putDoc (default ∅ doc)).

Definition decodeWAL (bs : list byte) : option (string * string * DocumentData) :=
  match getString bs with
  | Some (operation, rest) =>
      match getString rest with
      | Some (id, rest) =>
          match getDoc rest with
          | Some (doc, []) => Some (operation, id, doc)
          | _ => None
          end
      | None => None
      end
  | None => None
  end.

Definition lib : GoLib :=
  {| formatFloat32 := formatFloat;
     formatFloat64 := formatFloat;
     formatTime := formatUnix;
     ToLower := lowerString;
     jsonUnmarshal := decodeJSON;
     marshalWAL := encodeWAL;
     unmarshalWAL := decodeWAL;
     marshalData := encodeData;
     unmarshalData := decodeData |}.

(** Regular expressions, for the texts [wildcardToRegexp] builds only: [^],
    then any sequence of [.*], escaped bytes and plain bytes, then [$].
    Every other text is refused. *)
Inductive Token :=
| AnyRun
| Literal (a : ascii).

Fixpoint parseTokens (s : string) : option (list Token) :=
  match s with
  | EmptyString => None
  | String a s' =>
      if Ascii.eqb a "$" then match s' with EmptyString => Some [] | _ => None end
      else if Ascii.eqb a "."
      then match s' with
           | String b s'' =>
               if Ascii.eqb b "*"
               then match parseTokens s'' with
                    | Some ts => Some (AnyRun :: ts)
                    | None => None
                    end
               else None
           | EmptyString => None
           end
      else if Ascii.eqb a "\"
      then match s' with
           | String b s'' =>
               match parseTokens s'' with
               | Some ts => Some (Literal b :: ts)
               | None => None
               end
           | EmptyString => None
           end
      else if isRegexpMeta a then None
      else match parseTokens s' with
           | Some ts => Some (Literal a :: ts)
           | None => None
           end
  end.

(** [.] matches any byte but the line feed. *)
Fixpoint matchTokens (ts : list Token) : string -> bool :=
  match ts with
  | [] => fun s => match s with EmptyString => true | _ => false end
  | Literal c :: ts' =>
      fun s => match s with
               | String a s' => Ascii.eqb a c && matchTokens ts' s'
               | EmptyString => false
               end
  | AnyRun :: ts' =>
      fix run (s : string) : bool :=
        matchTokens ts' s ||
        match s with
        | String a s' => negb (Ascii.eqb a "010") && run s'
        | EmptyString => false
        end
  end.

Definition compile (text : string) : Res (string -> bool) :=
  match text with
  | String a rest =>
      if Ascii.eqb a "^"
      then match parseTokens rest with
           | Some ts => Ok (matchTokens ts)
           | None => Panic
           end
      else Panic
  | EmptyString => Panic
  end.

Definition regexp : GoRegexp := {| MustCompile := compile |}.

End ExampleLib.

(** The record bodies [ExampleLib] writes for the example documents. *)
Definition dataBodyAge30 : list byte :=
  ExampleLib.putString "1" ++ ExampleLib.putDoc docAge30.

Definition dataBodyAge31 : list byte :=
  ExampleLib.putString "1" ++ ExampleLib.putDoc (patchAge31 ∪ docAge30).

Definition walBodyAge30 : list byte :=
  ExampleLib.putString "INSERT" ++ ExampleLib.putString "1" ++ ExampleLib.putDoc docAge30.

(** * Properties *)

(** ** The trie *)

Module TrieFacts.
Import Trie.

Lemma removeLoop_none word docID rs : forall i node,
  removeLoop word docID i rs node = None -> nodeAt rs node = None.
Proof.
  induction rs as [|char rs IH]; intros i node; simpl; [discriminate|].
  destruct (children node !! char) as [next|] eqn:Hc; [|reflexivity].
  destruct (removeLoop word docID (S i) rs next) as [[next' pruning]|] eqn:Hr.
  - destruct (pruning && isEmptyNode next'); discriminate.
  - intros _. eapply IH, Hr.
Qed.

Lemma removeLoop_terminal word docID rs : forall i node node' pruning,
  removeLoop word docID i rs node = Some (node', pruning) ->
  match nodeAt rs node' with
  | Some n => docID ∉ docs n
  | None => True
  end.
Proof.
  induction rs as [|char rs IH]; intros i node node' pruning; simpl.
  - intros Heq. injection Heq as <- _. simpl.
    intros [_ Hnot]%elem_of_difference. apply Hnot. by apply elem_of_singleton.
  - destruct (children node !! char) as [next|] eqn:Hc; [|discriminate].
    destruct (removeLoop word docID (S i) rs next) as [[next' p]|] eqn:Hr;
      [|discriminate].
    specialize (IH _ _ _ _ Hr).
    destruct (p && isEmptyNode next'); intros [= <- <-]; simpl.
    + destruct (decide (byteRune word i = char)) as [->|Hne].
      * by rewrite lookup_delete_eq.
      * rewrite lookup_delete_ne, lookup_insert_eq by done. exact IH.
    + rewrite lookup_insert_eq. exact IH.
Qed.

Lemma Remove_idAtTerminal t word docID :
  idAtTerminal (Remove t word docID) word docID = false.
Proof.
  unfold idAtTerminal, Remove.
  destruct (removeLoop word docID 0 (runes word) (root t)) as [[r p]|] eqn:Hr.
  - apply removeLoop_terminal in Hr. simpl.
    destruct (nodeAt (runes word) r); [|reflexivity].
    by apply bool_decide_eq_false.
  - apply removeLoop_none in Hr. by rewrite Hr.
Qed.

Lemma insertLoop_nodeAt docID rs : forall node,
  rs <> [] ->
  exists n, nodeAt rs (insertLoop rs docID node) = Some n /\ docID ∈ docs n.
Proof.
  induction rs as [|char rs IH]; intros node Hne; [done|].
  simpl. rewrite lookup_insert_eq.
  destruct rs as [|char' rs'].
  - simpl. eexists; split; [reflexivity|]. simpl. set_solver.
  - apply IH. discriminate.
Qed.

Lemma Insert_idAtTerminal t word docID :
  runes word <> [] -> idAtTerminal (Insert t word docID) word docID = true.
Proof.
  intros Hne. unfold idAtTerminal, Insert. simpl.
  destruct (insertLoop_nodeAt docID (runes word) (root t) Hne) as (n & -> & Hin).
  by apply bool_decide_eq_true.
Qed.

(** C7, as the claim states it, fails: the node keeps a set of ids, so two
    inserts of ("a", "1") and one remove leave the id absent although N > 1. *)
Lemma trie_remove_not_counted :
  ~ (forall (N : nat) (word docID : string), (1 <= N)%nat ->
       (idAtTerminal (Remove (insertMany N NewTrie word docID) word docID) word docID = true
        <-> (1 < N)%nat)).
Proof.
  intros H.
  destruct (H 2%nat "a"%string "1"%string ltac:(lia)) as [_ H2].
  specialize (H2 ltac:(lia)).
  rewrite Remove_idAtTerminal in H2. discriminate.
Qed.

(** C7 (amended): for every trie, word, id and count N >= 1, N calls of
    Insert(word, id) followed by one Remove(word, id) leave the id out of the
    id set of the node the word ends at, whatever N is. *)
Theorem trie_remove_clears_terminal (t : Trie) (word docID : string) (N : nat) :
  (1 <= N)%nat ->
  idAtTerminal (Remove (insertMany N t word docID) word docID) word docID = false.
Proof.
  intros _. apply Remove_idAtTerminal.
Qed.

Lemma trie_remove_clears_terminal_witness :
  (1 <= 3)%nat /\
  idAtTerminal (Remove (insertMany 3 NewTrie "go" "7") "go" "7") "go" "7" = false.
Proof.
  split; [lia|]. apply (trie_remove_clears_terminal NewTrie "go" "7" 3). lia.
Defined.

End TrieFacts.

(** ** Insert: the failure paths *)

Section StoreFacts.
Context `{GoLib}.

Lemma writeWAL_sameMemory fault db operation id doc :
  sameMemory db (writeWAL fault db operation id doc).1.
Proof.
  unfold writeWAL, sameMemory.
  destruct (marshalWAL operation id doc) as [body|]; [|done].
  by destruct (appendRecord fault (walFile db) body).
Qed.

Lemma writeToDataFile_sameMemory io db id doc :
  sameMemory db (writeToDataFile io db id doc).1.
Proof.
  unfold writeToDataFile, sameMemory.
  destruct (marshalData id doc) as [body|]; [|done].
  destruct (dataSeekFails io); [done|].
  by destruct (appendRecord (dataFault io) (dataFile db) body).
Qed.

(** Whenever [Insert] returns an error the memory is as it was. *)
Lemma Insert_error_sameMemory io db docData err :
  (Insert io db docData).2 = Some err ->
  sameMemory db (Insert io db docData).1.
Proof.
  unfold Insert.
  destruct (decodeArg docData) as [doc|e]; [|done].
  destruct (doc !! primaryKey db) as [id|]; [|done].
  destruct (exists_ db (Sprintf id)); [done|].
  pose proof (writeWAL_sameMemory (walFault io) db OperationInsert (Sprintf id) (Some doc)) as Hw.
  destruct (writeWAL (walFault io) db OperationInsert (Sprintf id) (Some doc))
    as [db' [e|]]; [done|].
  discriminate.
Qed.

(** C5: in each of the four failure cases [Insert] returns an error, and the
    document store, every index and the document counter are unchanged; when
    the WAL append is what failed, nothing in memory had been touched. *)
Theorem Insert_failure_leaves_memory (io : IO) (db : Database) (docData : InsertArg) :
  InsertFails io db docData ->
  exists err, (Insert io db docData).2 = Some err /\
              sameMemory db (Insert io db docData).1.
Proof.
  intros Hfail.
  assert (exists err, (Insert io db docData).2 = Some err) as [err Herr].
  { unfold Insert.
    destruct Hfail as [|docData doc Hdec Hkey|docData doc id Hdec Hkey Hdup
                       |docData doc id e Hdec Hkey Hwal].
    - eauto.
    - rewrite Hdec, Hkey. eauto.
    - rewrite Hdec, Hkey. unfold exists_. destruct Hdup as [d ->]. eauto.
    - rewrite Hdec, Hkey. destruct (exists_ db (Sprintf id)); [eauto|].
      destruct (writeWAL (walFault io) db OperationInsert (Sprintf id) (Some doc))
        as [db' [e'|]]; [eauto|discriminate]. }
  exists err. split; [done|]. by eapply Insert_error_sameMemory.
Qed.

End StoreFacts.

(** ** The index registry *)

Section RegistryFacts.
Context `{GoLib}.

Lemma CreateIndex_registered db field :
  is_Some (indexes (CreateIndex db field) !! field).
Proof.
  unfold CreateIndex.
  destruct (indexes db !! field) as [e|] eqn:He; simpl.
  - rewrite He. eauto.
  - rewrite lookup_insert_eq. eauto.
Qed.

Lemma CreateCompositeIndex_registered db fields :
  is_Some (indexes (CreateCompositeIndex db fields) !! stringsJoin fields "-").
Proof.
  unfold CreateCompositeIndex.
  destruct (indexes db !! stringsJoin fields "-") as [e|] eqn:He; simpl.
  - rewrite He. eauto.
  - rewrite lookup_insert_eq. eauto.
Qed.

Lemma CreateIndex_noop db field :
  is_Some (indexes db !! field) -> CreateIndex db field = db.
Proof. intros [e He]. unfold CreateIndex. by rewrite He. Qed.

Lemma CreateCompositeIndex_noop db fields :
  is_Some (indexes db !! stringsJoin fields "-") -> CreateCompositeIndex db fields = db.
Proof. intros [e He]. unfold CreateCompositeIndex. by rewrite He. Qed.

(** C10: the registry has one key space.  When no index is registered under
    the joined name of [fields], creating a single-field index under that
    name makes the later [CreateCompositeIndex fields] a no-op, and the other
    way round; after the first order [QueryComposite] finds a single-field
    entry under the key and returns nothing, whatever the store holds. *)
Theorem registry_key_is_shared (db : Database) (fields : list string)
    (values : list Value) :
  indexes db !! stringsJoin fields "-" = None ->
  let key := stringsJoin fields "-" in
  CreateCompositeIndex (CreateIndex db key) fields = CreateIndex db key /\
  CreateIndex (CreateCompositeIndex db fields) key = CreateCompositeIndex db fields /\
  QueryComposite (CreateCompositeIndex (CreateIndex db key) fields) fields values = [].
Proof.
  intros Hfree key. subst key.
  assert (CreateCompositeIndex (CreateIndex db (stringsJoin fields "-")) fields
          = CreateIndex db (stringsJoin fields "-")) as Hnoop
    by apply CreateCompositeIndex_noop, CreateIndex_registered.
  split; [exact Hnoop|]. split.
  - apply CreateIndex_noop, CreateCompositeIndex_registered.
  - rewrite Hnoop. unfold QueryComposite, CreateIndex.
    rewrite Hfree. simpl. by rewrite lookup_insert_eq.
Qed.

End RegistryFacts.

(** ** The record streams of the data file and the WAL *)

Lemma to_N_byteOfN n : Byte.to_N (byteOfN n) = (n mod 256)%N.
Proof.
  unfold byteOfN.
  destruct (Byte.of_N (n mod 256)) as [b|] eqn:Hb.
  - by apply Byte.to_of_N.
  - apply Byte.of_N_None_iff in Hb.
    pose proof (N.mod_upper_bound n 256 ltac:(done)). lia.
Qed.

Lemma getUint32_putUint32 n :
  (n < 2 ^ 32)%N ->
  getUint32 (byteOfN n) (byteOfN (n / 256)) (byteOfN (n / 65536)) (byteOfN (n / 16777216)) = n.
Proof.
  intros Hn. unfold getUint32. rewrite !to_N_byteOfN.
  change (2 ^ 32)%N with 4294967296%N in Hn.
  assert (n / 65536 = n / 256 / 256)%N as -> by (by rewrite N.Div0.div_div).
  assert (n / 16777216 = n / 256 / 256 / 256)%N as -> by (by rewrite !N.Div0.div_div).
  pose proof (N.div_mod n 256 ltac:(done)) as Hn0.
  pose proof (N.div_mod (n / 256) 256 ltac:(done)) as Ha.
  pose proof (N.div_mod (n / 256 / 256) 256 ltac:(done)) as Hb.
  generalize dependent (n / 256 / 256 / 256)%N. intros c.
  generalize dependent (n / 256 / 256)%N. intros b.
  generalize dependent (n / 256)%N. intros a.
  generalize (n mod 256)%N (a mod 256)%N (b mod 256)%N. intros r0 r1 r2 **.
  assert (c < 256)%N as Hc by lia.
  rewrite (N.mod_small c 256 Hc). lia.
Qed.

Lemma readRecord_header n rest :
  (n < 2 ^ 32)%N ->
  readRecord (putUint32 n ++ rest) =
    if (N.to_nat n <=? length rest)%nat
    then ReadRecord (take (N.to_nat n) rest) (drop (N.to_nat n) rest)
    else ReadDataError.
Proof.
  intros Hn. unfold putUint32. simpl. by rewrite getUint32_putUint32.
Qed.

Lemma readRecord_frame body rest :
  fitsUint32 body -> readRecord (frame body ++ rest) = ReadRecord body rest.
Proof.
  intros Hfit. unfold frame, uint32OfLen. rewrite <- app_assoc.
  rewrite N.mod_small by exact Hfit.
  rewrite readRecord_header by exact Hfit.
  rewrite Nat2N.id, length_app.
  destruct (Nat.leb_spec (length body) (length body + length rest)); [|lia].
  by rewrite take_app_length, drop_app_length.
Qed.

Lemma readRecord_partial_header tail :
  (0 < length tail < 4)%nat -> readRecord tail = ReadSizeError.
Proof.
  destruct tail as [|b0 [|b1 [|b2 [|b3 tail]]]]; simpl; intros; (done || lia).
Qed.

Lemma readRecord_short_body n short :
  (n < 2 ^ 32)%N -> (length short < N.to_nat n)%nat ->
  readRecord (putUint32 n ++ short) = ReadDataError.
Proof.
  intros Hn Hshort. rewrite readRecord_header by done.
  destruct (Nat.leb_spec (N.to_nat n) (length short)); [lia|done].
Qed.

Lemma frame_length body : (4 <= length (frame body))%nat.
Proof. unfold frame, putUint32. rewrite length_app. simpl. lia. Qed.

Lemma frames_cons body bodies tail :
  frames (body :: bodies) ++ tail = frame body ++ (frames bodies ++ tail).
Proof. unfold frames. simpl. by rewrite <- app_assoc. Qed.

Section StreamFacts.
Context `{GoLib}.

Lemma loadLoop_frames bodies : forall fuel db tail,
  (length (frames bodies ++ tail) < fuel)%nat ->
  Forall loadable bodies ->
  exists db' fuel', (length tail < fuel')%nat /\
    docCount db' = countAfter (length bodies) (docCount db) /\
    loadLoop fuel db (frames bodies ++ tail) = loadLoop fuel' db' tail.
Proof.
  induction bodies as [|body bodies IH]; intros fuel db tail Hfuel Hok.
  - exists db, fuel. done.
  - apply Forall_cons in Hok as [[Hfit [[ID Data] Hdec]] Hok].
    rewrite frames_cons in *.
    pose proof (frame_length body). rewrite length_app in Hfuel.
    destruct fuel as [|fuel]; [lia|]. cbn [loadLoop].
    rewrite readRecord_frame, Hdec by done.
    cbn [length]. unfold countAfter. rewrite Nat.iter_succ_r.
    match goal with |- context [loadLoop fuel ?d _] =>
      destruct (IH fuel d tail) as (db' & fuel' & Hlt & Hcount & Hrun); [lia|done|]
    end.
    exists db', fuel'. done.
Qed.

Lemma recoverLoop_frames bodies : forall fuel db tail,
  (length (frames bodies ++ tail) < fuel)%nat ->
  Forall replayable bodies ->
  exists db' fuel', (length tail < fuel')%nat /\
    recoverLoop fuel db (frames bodies ++ tail) = recoverLoop fuel' db' tail.
Proof.
  induction bodies as [|body bodies IH]; intros fuel db tail Hfuel Hok.
  - exists db, fuel. done.
  - apply Forall_cons in Hok as [[Hfit [[[Operation ID] Document] Hdec]] Hok].
    rewrite frames_cons in *.
    pose proof (frame_length body). rewrite length_app in Hfuel.
    destruct fuel as [|fuel]; [lia|]. cbn [recoverLoop].
    rewrite readRecord_frame, Hdec by done.
    apply IH; [lia|done].
Qed.

(** C9 (amended): the reader loops until end-of-file.  After any number of
    whole, decodable records, the load succeeds when no byte is left where the
    next length header is expected (and [loadData] has then counted every
    record); one to three leftover bytes there make it fail with a read
    error, and so does a body shorter than the length its header declares.
    This holds for the data file and for the WAL. *)
Theorem record_stream_end (db : Database) (dataBodies walBodies : list (list byte)) :
  Forall loadable dataBodies ->
  Forall replayable walBodies ->
  ((dataFile db = frames dataBodies ->
      (loadData db).2 = None /\
      docCount (loadData db).1 = countAfter (length dataBodies) (docCount db)) /\
   (forall tail, dataFile db = frames dataBodies ++ tail ->
      (0 < length tail < 4)%nat -> (loadData db).2 = Some ReadSizeFailed) /\
   (forall n short, dataFile db = frames dataBodies ++ putUint32 n ++ short ->
      (n < 2 ^ 32)%N -> (length short < N.to_nat n)%nat ->
      (loadData db).2 = Some ReadDataFailed)) /\
  ((walFile db = frames walBodies -> (recoverFromWAL db).2 = None) /\
   (forall tail, walFile db = frames walBodies ++ tail ->
      (0 < length tail < 4)%nat -> (recoverFromWAL db).2 = Some ReadSizeFailed) /\
   (forall n short, walFile db = frames walBodies ++ putUint32 n ++ short ->
      (n < 2 ^ 32)%N -> (length short < N.to_nat n)%nat ->
      (recoverFromWAL db).2 = Some ReadDataFailed)).
Proof.
  intros Hdata Hwal. split.
  - assert (forall tail, dataFile db = frames dataBodies ++ tail ->
              exists db' fuel,
                docCount db' = countAfter (length dataBodies) (docCount db) /\
                loadData db = loadLoop (S fuel) db' tail) as Hrun.
    { intros tail Hfile. unfold loadData. rewrite Hfile.
      destruct (loadLoop_frames dataBodies (S (length (frames dataBodies ++ tail))) db tail)
        as (db' & fuel' & Hfuel & Hcount & ->); [lia|done|].
      destruct fuel' as [|fuel']; [lia|]. eauto. }
    split; [|split].
    + intros Hfile.
      destruct (Hrun []) as (db' & fuel & Hcount & ->); [by rewrite app_nil_r|done].
    + intros tail Hfile Htail. destruct (Hrun tail Hfile) as (db' & fuel & _ & ->).
      cbn [loadLoop]. by rewrite readRecord_partial_header.
    + intros n short Hfile Hn Hshort. destruct (Hrun _ Hfile) as (db' & fuel & _ & ->).
      cbn [loadLoop]. by rewrite readRecord_short_body.
  - assert (forall tail, walFile db = frames walBodies ++ tail ->
              exists db' fuel, recoverFromWAL db = recoverLoop (S fuel) db' tail) as Hrun.
    { intros tail Hfile. unfold recoverFromWAL. rewrite Hfile.
      destruct (recoverLoop_frames walBodies (S (length (frames walBodies ++ tail))) db tail)
        as (db' & fuel' & Hfuel & ->); [lia|done|].
      destruct fuel' as [|fuel']; [lia|]. eauto. }
    split; [|split].
    + intros Hfile. destruct (Hrun []) as (db' & fuel & ->); [by rewrite app_nil_r|done].
    + intros tail Hfile Htail. destruct (Hrun tail Hfile) as (db' & fuel & ->).
      cbn [recoverLoop]. by rewrite readRecord_partial_header.
    + intros n short Hfile Hn Hshort. destruct (Hrun _ Hfile) as (db' & fuel & ->).
      cbn [recoverLoop]. by rewrite readRecord_short_body.
Qed.

End StreamFacts.

(** ** Acknowledged operations *)

Section OpFacts.
Context `{GoLib}.

Lemma appendRecord_ok file body :
  appendRecord NoFault file body = (file ++ frame body, None).
Proof. reflexivity. Qed.

(** An acknowledged [Insert]: what it leaves in memory. *)
Lemma Insert_ok io db doc id :
  doc !! primaryKey db = Some id ->
  Get db (Sprintf id) = None ->
  walFault io = NoFault ->
  is_Some (marshalWAL OperationInsert (Sprintf id) (Some doc)) ->
  let db' := (Insert io db (ArgMap doc)).1 in
  (Insert io db (ArgMap doc)).2 = None /\
  data db' = <[Sprintf id := doc]> (data db) /\
  indexes db' = indexAll doc (Sprintf id) <$> indexes db /\
  docCount db' = addInt64 (docCount db) 1 /\
  primaryKey db' = primaryKey db.
Proof.
  intros Hkey Hnew Hio [w Hw]. unfold Insert. cbn [decodeArg].
  rewrite Hkey. unfold exists_. rewrite Hnew.
  unfold writeWAL. rewrite Hw, Hio. cbn [appendRecord].
  match goal with |- context [writeToDataFile io ?d ?i ?c] =>
    destruct (writeToDataFile_sameMemory io d i c) as (Hd & Hi & Hc);
    assert (primaryKey (writeToDataFile io d i c).1 = primaryKey d) as Hp
  end.
  { unfold writeToDataFile. destruct (marshalData _ _); [|done].
    destruct (dataSeekFails io); [done|]. by destruct (appendRecord _ _ _). }
  cbn [fst snd]. rewrite Hd, Hi, Hc, Hp. done.
Qed.

Lemma Update_ok io db id oldDoc updates :
  data db !! id = Some oldDoc ->
  walFault io = NoFault ->
  is_Some (marshalWAL OperationUpdate id (Some (updates ∪ oldDoc))) ->
  let db' := (Update io db id updates).1 in
  (Update io db id updates).2 = None /\
  data db' = <[id := updates ∪ oldDoc]> (data db) /\
  indexes db' = updateAll id oldDoc (updates ∪ oldDoc) <$> indexes db /\
  docCount db' = docCount db /\
  primaryKey db' = primaryKey db.
Proof.
  intros Hold Hio [w Hw]. unfold Update. rewrite Hold.
  unfold writeWAL. rewrite Hw, Hio. cbn [appendRecord].
  match goal with |- context [writeToDataFile io ?d ?i ?c] =>
    destruct (writeToDataFile_sameMemory io d i c) as (Hd & Hi & Hc);
    assert (primaryKey (writeToDataFile io d i c).1 = primaryKey d) as Hp
  end.
  { unfold writeToDataFile. destruct (marshalData _ _); [|done].
    destruct (dataSeekFails io); [done|]. by destruct (appendRecord _ _ _). }
  cbn [fst snd]. rewrite Hd, Hi, Hc, Hp. done.
Qed.

Lemma Delete_ok io db id doc :
  data db !! id = Some doc ->
  walFault io = NoFault ->
  is_Some (marshalWAL OperationDelete id None) ->
  let db' := (Delete io db id).1 in
  (Delete io db id).2 = None /\
  data db' = delete id (data db) /\
  indexes db' = removeAll id doc <$> indexes db /\
  docCount db' = addInt64 (docCount db) (-1) /\
  primaryKey db' = primaryKey db /\
  dataFile db' = dataFile db.
Proof.
  intros Hdoc Hio [w Hw]. unfold Delete. rewrite Hdoc.
  unfold writeWAL. rewrite Hw, Hio. cbn [appendRecord]. done.
Qed.

Lemma values_indexDocument doc id index :
  values (indexDocument doc id index) =
    match doc !! field index with
    | Some fieldValue => valuesStoreID (indexValueOf fieldValue) id (values index)
    | None => values index
    end.
Proof. unfold indexDocument. by destruct (doc !! field index). Qed.

Lemma field_indexDocument doc id index : field (indexDocument doc id index) = field index.
Proof. unfold indexDocument. by destruct (doc !! field index). Qed.

Lemma values_updateIndex id oldDoc newDoc index :
  values (updateIndex id oldDoc newDoc index) =
    let oldValue := fieldOrNil oldDoc (field index) in
    let newValue := fieldOrNil newDoc (field index) in
    if negb (ifaceEq oldValue newValue)
    then valuesStoreID newValue id (valuesDeleteID oldValue id (values index))
    else values index.
Proof. unfold updateIndex. cbv zeta. by destruct (negb _). Qed.

Lemma values_removeFromIndex id doc index :
  values (removeFromIndex id doc index) =
    match doc !! field index with
    | Some fieldValue => valuesDeleteID fieldValue id (values index)
    | None => values index
    end.
Proof. unfold removeFromIndex. by destruct (doc !! field index). Qed.


Lemma writeToDataFile_ok db id doc body :
  marshalData id doc = Some body ->
  dataFile (writeToDataFile ioOK db id doc).1 = dataFile db ++ frame body /\
  primaryKey (writeToDataFile ioOK db id doc).1 = primaryKey db.
Proof. intros Hm. unfold writeToDataFile. rewrite Hm. done. Qed.

Lemma Insert_ok_dataFile db doc id body :
  doc !! primaryKey db = Some id ->
  Get db (Sprintf id) = None ->
  is_Some (marshalWAL OperationInsert (Sprintf id) (Some doc)) ->
  marshalData (Sprintf id) doc = Some body ->
  dataFile (Insert ioOK db (ArgMap doc)).1 = dataFile db ++ frame body.
Proof.
  intros Hkey Hnew [w Hw] Hm. unfold Insert. cbn [decodeArg].
  rewrite Hkey. unfold exists_. rewrite Hnew.
  unfold writeWAL. rewrite Hw. cbn [appendRecord walFault ioOK fst].
  match goal with |- context [writeToDataFile ioOK ?d ?i ?c] =>
    destruct (writeToDataFile_ok d i c body Hm) as [-> _] end.
  done.
Qed.

Lemma Update_ok_dataFile db id oldDoc updates body :
  data db !! id = Some oldDoc ->
  is_Some (marshalWAL OperationUpdate id (Some (updates ∪ oldDoc))) ->
  marshalData id (updates ∪ oldDoc) = Some body ->
  dataFile (Update ioOK db id updates).1 = dataFile db ++ frame body.
Proof.
  intros Hold [w Hw] Hm. unfold Update. rewrite Hold.
  unfold writeWAL. rewrite Hw. cbn [appendRecord walFault ioOK fst].
  match goal with |- context [writeToDataFile ioOK ?d ?i ?c] =>
    destruct (writeToDataFile_ok d i c body Hm) as [-> _] end.
  done.
Qed.

Lemma loadLoop_record fuel db body rest ID Data :
  fitsUint32 body ->
  unmarshalData body = Some (ID, Data) ->
  loadLoop (S fuel) db (frame body ++ rest) =
    loadLoop fuel
      {| data := <[ID := Data]> (data db);
         indexes := indexAll Data ID <$> indexes db;
         primaryKey := primaryKey db;
         dataFile := dataFile db; walFile := walFile db;
         docCount := addInt64 (docCount db) 1 |}
      rest.
Proof. intros Hfit Hdec. cbn [loadLoop]. by rewrite readRecord_frame, Hdec. Qed.

Lemma loadLoop_eof fuel db : loadLoop (S fuel) db [] = (db, None).
Proof. reflexivity. Qed.

Lemma NewDatabase_emptyDisk primaryKey :
  NewDatabase primaryKey emptyDisk = inl (freshDatabase primaryKey).
Proof. reflexivity. Qed.

(** C1 at the failing input.  For every library whose data codec reads back
    the record it wrote: insert a document into a fresh database, delete it
    (both acknowledged), close and open the directory again.  Before the
    close [Get] does not find the id; after the reopen it finds the deleted
    document again, because [Delete] writes nothing to the data file. *)
Theorem deleted_document_returns_after_reopen
    (pk : string) (doc : DocumentData) (id : Value) (body : list byte) :
  doc !! pk = Some id ->
  is_Some (marshalWAL OperationInsert (Sprintf id) (Some doc)) ->
  is_Some (marshalWAL OperationDelete (Sprintf id) None) ->
  marshalData (Sprintf id) doc = Some body ->
  fitsUint32 body ->
  unmarshalData body = Some (Sprintf id, doc) ->
  let db1 := (Insert ioOK (freshDatabase pk) (ArgMap doc)).1 in
  let db2 := (Delete ioOK db1 (Sprintf id)).1 in
  (Insert ioOK (freshDatabase pk) (ArgMap doc)).2 = None /\
  (Delete ioOK db1 (Sprintf id)).2 = None /\
  Get db2 (Sprintf id) = None /\
  exists db3, NewDatabase pk (Close db2) = inl db3 /\ Get db3 (Sprintf id) = Some doc.
Proof.
  intros Hkey Hwi Hwd Hm Hfit Hdec db1 db2.
  destruct (Insert_ok ioOK (freshDatabase pk) doc id) as (Hr1 & Hd1 & Hi1 & Hc1 & Hp1);
    [done..|].
  pose proof (Insert_ok_dataFile (freshDatabase pk) doc id body Hkey eq_refl Hwi Hm) as Hf1.
  fold db1 in Hd1, Hi1, Hc1, Hp1, Hf1. cbn [data dataFile freshDatabase] in Hd1, Hf1.
  destruct (Delete_ok ioOK db1 (Sprintf id) doc) as (Hr2 & Hd2 & Hi2 & Hc2 & Hp2 & Hf2);
    [by rewrite Hd1, lookup_insert_eq|done..|].
  fold db2 in Hd2, Hi2, Hc2, Hp2, Hf2.
  split; [done|]. split; [done|]. split.
  { unfold Get. rewrite Hd2. apply lookup_delete_eq. }
  unfold NewDatabase, Close, loadData. cbn [dataFile walFile diskData].
  rewrite Hf2, Hf1. cbn [app length].
  rewrite <- (app_nil_r (frame body)).
  rewrite (loadLoop_record _ _ body [] (Sprintf id) doc Hfit Hdec).
  pose proof (frame_length body) as Hlen. rewrite app_nil_r.
  destruct (length (frame body)) as [|n]; [lia|].
  rewrite loadLoop_eof. unfold recoverFromWAL. cbn [walFile length recoverLoop readRecord].
  eexists. split; [reflexivity|].
  unfold Get. cbn [data]. apply lookup_insert_eq.
Qed.

(** C8 at the failing input.  For every library whose data codec reads back
    the records it wrote: insert a document into a fresh database, update it
    (both acknowledged), close and open the directory again.  [loadData]
    counts the two records of the data file, so [Count] is 2 while the store
    holds one document. *)
Theorem reload_counts_every_record
    (pk : string) (doc updates : DocumentData) (id : Value) (body1 body2 : list byte) :
  doc !! pk = Some id ->
  is_Some (marshalWAL OperationInsert (Sprintf id) (Some doc)) ->
  is_Some (marshalWAL OperationUpdate (Sprintf id) (Some (updates ∪ doc))) ->
  marshalData (Sprintf id) doc = Some body1 ->
  marshalData (Sprintf id) (updates ∪ doc) = Some body2 ->
  fitsUint32 body1 -> fitsUint32 body2 ->
  unmarshalData body1 = Some (Sprintf id, doc) ->
  unmarshalData body2 = Some (Sprintf id, updates ∪ doc) ->
  let db1 := (Insert ioOK (freshDatabase pk) (ArgMap doc)).1 in
  let db2 := (Update ioOK db1 (Sprintf id) updates).1 in
  (Insert ioOK (freshDatabase pk) (ArgMap doc)).2 = None /\
  (Update ioOK db1 (Sprintf id) updates).2 = None /\
  exists db3, NewDatabase pk (Close db2) = inl db3 /\
    Count db3 = 2 /\ size (data db3) = 1%nat.
Proof.
  intros Hkey Hwi Hwu Hm1 Hm2 Hfit1 Hfit2 Hdec1 Hdec2 db1 db2.
  destruct (Insert_ok ioOK (freshDatabase pk) doc id) as (Hr1 & Hd1 & Hi1 & Hc1 & Hp1);
    [done..|].
  pose proof (Insert_ok_dataFile (freshDatabase pk) doc id body1 Hkey eq_refl Hwi Hm1) as Hf1.
  fold db1 in Hd1, Hi1, Hc1, Hp1, Hf1. cbn [data dataFile freshDatabase] in Hd1, Hf1.
  assert (data db1 !! Sprintf id = Some doc) as Hold by (by rewrite Hd1, lookup_insert_eq).
  destruct (Update_ok ioOK db1 (Sprintf id) doc updates) as (Hr2 & Hd2 & Hi2 & Hc2 & Hp2);
    [done..|].
  pose proof (Update_ok_dataFile db1 (Sprintf id) doc updates body2 Hold Hwu Hm2) as Hf2.
  fold db2 in Hd2, Hi2, Hc2, Hp2, Hf2.
  split; [done|]. split; [done|].
  unfold NewDatabase, Close, loadData. cbn [dataFile walFile diskData].
  rewrite Hf2, Hf1. cbn [app].
  pose proof (frame_length body1) as Hlen1. pose proof (frame_length body2) as Hlen2.
  rewrite length_app.
  destruct (length (frame body1)) as [|n1]; [lia|].
  destruct (length (frame body2)) as [|n2]; [lia|].
  replace (S (S n1 + S n2)) with (S (S (S (n1 + n2)))) by lia.
  rewrite (loadLoop_record _ _ body1 _ (Sprintf id) doc Hfit1 Hdec1).
  rewrite <- (app_nil_r (frame body2)).
  rewrite (loadLoop_record _ _ body2 [] (Sprintf id) (updates ∪ doc) Hfit2 Hdec2).
  rewrite loadLoop_eof. unfold recoverFromWAL. cbn [walFile length recoverLoop readRecord].
  eexists. split; [reflexivity|].
  unfold Count. cbn [data docCount]. split; [reflexivity|].
  rewrite insert_insert_eq, insert_empty. apply map_size_singleton.
Qed.

End OpFacts.

(** ** Where the code departs from the specification *)

Section Departures.
Context `{GoLib}.

(** C3 at the failing inputs.  An integer on the left of a float is compared
    after truncating the float, so compare(1, 1.5) is "equal", while
    compare(1.5, 1) is "greater"; an integer or a float against a string, and
    a string against a number, panic in a type assertion. *)
Theorem compareValues_mixed_pairs :
  compareValues (VInt 1) (VFloat64 1.5) = Ok 0 /\
  compareValues (VFloat64 1.5) (VInt 1) = Ok 1 /\
  compareValues (VInt 1) (VString "a") = Panic /\
  compareValues (VString "a") (VInt 1) = Panic /\
  compareValues (VFloat64 1.5) (VString "a") = Panic.
Proof. repeat split; vm_compute; reflexivity. Qed.

(** C2 at the failing input.  With an index on "age", insert
    [{"id": "1", "age": 30}] and update the age to 31, both acknowledged.
    [indexDocument] filed the id under the float 30; [updateIndex] looks for
    the bucket of the integer 30, finds none, and files the id under the
    integer 31.  The id stays in the bucket of the old value and is in no
    bucket keyed by the float 31. *)
Theorem update_leaves_id_in_old_bucket :
  is_Some (marshalWAL OperationInsert "1" (Some docAge30)) ->
  is_Some (marshalWAL OperationUpdate "1" (Some (patchAge31 ∪ docAge30))) ->
  let db0 := CreateIndex (freshDatabase "id") "age" in
  let db1 := (Insert ioOK db0 (ArgMap docAge30)).1 in
  let db2 := (Update ioOK db1 "1" patchAge31).1 in
  (Insert ioOK db0 (ArgMap docAge30)).2 = None /\
  (Update ioOK db1 "1" patchAge31).2 = None /\
  Get db2 "1" = Some (patchAge31 ∪ docAge30) /\
  exists idx, indexes db2 !! "age" = Some (SingleIndex idx) /\
    valuesLoad (VFloat64 30) (values idx) = Some {["1"]} /\
    valuesLoad (VFloat64 31) (values idx) = None /\
    valuesLoad (VInt 31) (values idx) = Some {["1"]}.
Proof.
  intros H1 H2 db0 db1 db2.
  destruct (Insert_ok ioOK db0 docAge30 (VString "1")) as (Hr1 & Hd1 & Hi1 & Hc1 & Hp1);
    [done..|].
  fold db1 in Hd1, Hi1, Hc1, Hp1. cbn [Sprintf] in *.
  destruct (Update_ok ioOK db1 "1" docAge30 patchAge31) as (Hr2 & Hd2 & Hi2 & Hc2 & Hp2);
    [by rewrite Hd1|done..|].
  fold db2 in Hd2, Hi2, Hc2, Hp2.
  split; [done|]. split; [done|]. split.
  { unfold Get. rewrite Hd2. apply lookup_insert_eq. }
  rewrite Hi2, Hi1.
  exists (updateIndex "1" docAge30 (patchAge31 ∪ docAge30)
            (indexDocument docAge30 "1" (NewIndex "age"))).
  split.
  { unfold db0, CreateIndex, freshDatabase. cbn [indexes data].
    rewrite lookup_empty, map_fold_empty.
    rewrite !lookup_fmap. cbn [indexes]. rewrite lookup_insert_eq. reflexivity. }
  rewrite values_updateIndex, field_indexDocument, values_indexDocument.
  vm_compute. done.
Qed.

(** C4 at the failing input.  The store holds [{"id": "1", "age": 1}].  The
    scan compares the integer 1 with the bounds 1.5 and 2.5 after truncating
    them and returns the document; the index holds the float 1 and returns
    nothing.  The scan also returns the document for the bounds 1.75 and
    1.25, where min > max. *)
Theorem range_query_scan_and_index_differ :
  is_Some (marshalWAL OperationInsert "1" (Some docAge1)) ->
  let db := (Insert ioOK (freshDatabase "id") (ArgMap docAge1)).1 in
  (Insert ioOK (freshDatabase "id") (ArgMap docAge1)).2 = None /\
  RangeQuery db "age" (VFloat64 1.5) (VFloat64 2.5) = Ok [docAge1] /\
  RangeQuery (CreateIndex db "age") "age" (VFloat64 1.5) (VFloat64 2.5) = Ok [] /\
  compareValues (VFloat64 1.75) (VFloat64 1.25) = Ok 1 /\
  RangeQuery db "age" (VFloat64 1.75) (VFloat64 1.25) = Ok [docAge1].
Proof.
  intros H1 db.
  destruct (Insert_ok ioOK (freshDatabase "id") docAge1 (VString "1"))
    as (Hr1 & Hd1 & Hi1 & Hc1 & Hp1); [done..|].
  fold db in Hd1, Hi1, Hc1, Hp1. cbn [Sprintf data indexes freshDatabase] in *.
  rewrite fmap_empty in Hi1.
  split; [done|]. split; [|split; [|split]].
  - unfold RangeQuery. rewrite Hi1, Hd1, lookup_empty.
    vm_compute. reflexivity.
  - unfold RangeQuery, CreateIndex. rewrite Hi1, lookup_empty. cbn [indexes].
    rewrite lookup_insert_eq, Hd1, insert_empty, map_fold_singleton.
    rewrite values_indexDocument.
    vm_compute. reflexivity.
  - vm_compute. reflexivity.
  - unfold RangeQuery. rewrite Hi1, Hd1, lookup_empty.
    vm_compute. reflexivity.
Qed.

(** C6 at the failing input.  For [{"id": "1", "a": "x"}] and the composite
    index on a, b the key of [indexDocumentComposite] and of
    [removeFromCompositeIndex] is "x-", while [updateCompositeIndex] builds
    "x-<nil>": a missing field prints as "<nil>" there.  After the update
    of a to "y" the id is still under "x-", it is under "y-<nil>", and the
    key "y-" that indexing the new document would give has no bucket. *)
Theorem composite_update_key_differs :
  is_Some (marshalWAL OperationInsert "1" (Some docAX)) ->
  is_Some (marshalWAL OperationUpdate "1" (Some (patchAY ∪ docAX))) ->
  let index := {| fields := ["a"; "b"]; compositeValues := ∅ |} in
  let db0 := CreateCompositeIndex (freshDatabase "id") ["a"; "b"] in
  let db1 := (Insert ioOK db0 (ArgMap docAX)).1 in
  let db2 := (Update ioOK db1 "1" patchAY).1 in
  indexCompositeKey docAX index = "x-"%string /\
  removeCompositeKey docAX index = "x-"%string /\
  updateCompositeKey docAX index = "x-<nil>"%string /\
  indexCompositeKey (patchAY ∪ docAX) index = "y-"%string /\
  (Insert ioOK db0 (ArgMap docAX)).2 = None /\
  (Update ioOK db1 "1" patchAY).2 = None /\
  exists idx, indexes db2 !! "a-b" = Some (CompIndex idx) /\
    compositeValues idx !! "x-" = Some {["1"]} /\
    compositeValues idx !! "y-<nil>" = Some {["1"]} /\
    compositeValues idx !! "y-" = None.
Proof.
  intros H1 H2 index db0 db1 db2.
  destruct (Insert_ok ioOK db0 docAX (VString "1")) as (Hr1 & Hd1 & Hi1 & Hc1 & Hp1);
    [done..|].
  fold db1 in Hd1, Hi1, Hc1, Hp1. cbn [Sprintf] in *.
  destruct (Update_ok ioOK db1 "1" docAX patchAY) as (Hr2 & Hd2 & Hi2 & Hc2 & Hp2);
    [by rewrite Hd1|done..|].
  fold db2 in Hd2, Hi2, Hc2, Hp2.
  do 4 (split; [vm_compute; reflexivity|]).
  split; [done|]. split; [done|].
  rewrite Hi2, Hi1.
  exists (updateCompositeIndex "1" docAX (patchAY ∪ docAX)
            (indexDocumentComposite docAX "1" index)).
  split.
  { unfold db0, CreateCompositeIndex, freshDatabase. cbn [indexes data].
    change (stringsJoin ["a"; "b"] "-") with "a-b"%string.
    rewrite lookup_empty, map_fold_empty.
    rewrite !lookup_fmap. cbn [indexes]. rewrite lookup_insert_eq. reflexivity. }
  vm_compute. done.
Qed.

End Departures.

(** ** Further properties of the code *)


Section MoreFacts.
Context `{GoLib}.





(** X2: a [Delete] whose WAL append fails returns the error after the
    document has left the store: the document is gone, the indexes and the
    counter are as before. *)
Theorem Delete_wal_failure_drops_document io db id doc err :
  data db !! id = Some doc ->
  (writeWAL (walFault io)
     {| data := delete id (data db); indexes := indexes db; primaryKey := primaryKey db;
        dataFile := dataFile db; walFile := walFile db; docCount := docCount db |}
     OperationDelete id None).2 = Some err ->
  (Delete io db id).2 = Some (ErrWriteWAL err) /\
  data (Delete io db id).1 = delete id (data db) /\
  indexes (Delete io db id).1 = indexes db /\
  docCount (Delete io db id).1 = docCount db.
Proof.
  intros Hdoc Hwal. unfold Delete. rewrite Hdoc.
  match goal with |- context [writeWAL ?f ?d ?o ?i ?c] =>
    pose proof (writeWAL_sameMemory f d o i c) as (Hd & Hi & Hc);
    destruct (writeWAL f d o i c) as [db' [e|]] end; cbn [fst snd data docCount indexes] in *;
    [|done].
  injection Hwal as ->. done.
Qed.

Lemma recoverLoop_keeps fuel : forall db file,
  indexes (recoverLoop fuel db file).1 = indexes db /\
  docCount (recoverLoop fuel db file).1 = docCount db.
Proof.
  induction fuel as [|fuel IH]; intros db file; [done|]. cbn [recoverLoop].
  destruct (readRecord file) as [| | |body rest]; [done..|].
  destruct (unmarshalWAL body) as [[[Operation ID] Document]|]; [|done].
  match goal with |- context [recoverLoop fuel ?d rest] =>
    destruct (IH d rest) as [-> ->] end. done.
Qed.

(** X3: replaying the WAL changes neither the indexes nor the counter. *)
Theorem recoverFromWAL_keeps_indexes_and_count (db : Database) :
  indexes (recoverFromWAL db).1 = indexes db /\
  docCount (recoverFromWAL db).1 = docCount db.
Proof. apply recoverLoop_keeps. Qed.

(** X4: on two integers (of any integer type or as time stamps) the compare
    is the sign of the difference; on two floats, and on a float against an
    integer promoted to float, it is the IEEE three-way compare; on two
    strings it is [strings.Compare]. *)
Theorem compareValues_same_kind (a b : Z) (x y : float) (s t : string) :
  compareValues (VInt a) (VInt b) = Ok (Z.sgn (a - b)) /\
  compareValues (VInt64 a) (VInt b) = Ok (Z.sgn (a - b)) /\
  compareValues (VTime a 0) (VTime b 0) = Ok (Z.sgn (a - b)) /\
  compareValues (VFloat64 x) (VFloat64 y) = Ok (threeWayFloat x y) /\
  compareValues (VFloat64 x) (VInt b) = Ok (threeWayFloat x (floatOfInt b)) /\
  compareValues (VString s) (VString t) = Ok (stringsCompare s t).
Proof.
  assert (threeWayInt a b = Z.sgn (a - b)) as Hsgn.
  { unfold threeWayInt. destruct (Z.ltb_spec a b); [lia|].
    destruct (Z.ltb_spec b a); lia. }
  unfold compareValues. cbn. rewrite Hsgn. done.
Qed.

End MoreFacts.

Module TrieSpine.
Import Trie.

Lemma insertLoop_prefix docID rs : forall pre node,
  pre <> [] -> pre `prefix_of` rs ->
  exists n, nodeAt pre (insertLoop rs docID node) = Some n /\ docID ∈ docs n.
Proof.
  induction rs as [|char rs IH]; intros pre node Hne Hpre.
  - apply prefix_nil_inv in Hpre. done.
  - destruct pre as [|c pre]; [done|].
    apply prefix_cons_inv_1 in Hpre as Hc. subst c.
    apply prefix_cons_inv_2 in Hpre.
    cbn [insertLoop nodeAt children]. rewrite lookup_insert_eq.
    destruct pre as [|c' pre'].
    + destruct rs as [|char' rs']; cbn [nodeAt insertLoop].
      * eexists. split; [done|]. cbn [docs].
        apply elem_of_union_l. by apply elem_of_singleton.
      * eexists. split; [done|]. cbn [docs].
        apply elem_of_union_l. by apply elem_of_singleton.
    + apply IH; done.
Qed.

(** X5: [Insert] records the id at the node of every non-empty prefix of the
    word. *)
Theorem Insert_records_id_on_spine (t : Trie) (word docID : string) (pre : list rune) :
  pre <> [] -> pre `prefix_of` runes word ->
  exists n, nodeAt pre (root (Insert t word docID)) = Some n /\ docID ∈ docs n.
Proof. intros Hne Hpre. by apply insertLoop_prefix. Qed.

End TrieSpine.

(** ** Searching the trie *)

Module TrieSearchFacts.
Import Trie.


Lemma fold_union_elem (F : TrieNode -> gset string) (init : gset string)
    (m : gmap Z TrieNode) (x : string) :
  x ∈ map_fold (fun _ child results => F child ∪ results) init m <->
  x ∈ init \/ exists i child, m !! i = Some child /\ x ∈ F child.
Proof.
  apply (map_fold_weak_ind
    (fun acc m => x ∈ acc <-> x ∈ init \/ exists i child, m !! i = Some child /\ x ∈ F child)).
  - split; [auto|]. intros [?|(i & child & Hl & _)]; [done|]. by rewrite lookup_empty in Hl.
  - intros i child m' acc Hnone IH. rewrite elem_of_union, IH. split.
    + intros [Hx|[Hx|(j & c & Hj & Hx)]].
      * right. exists i, child. by rewrite lookup_insert_eq.
      * by left.
      * right. exists j, c. split; [|done].
        rewrite lookup_insert_ne; [done|]. intros ->. congruence.
    + intros [Hx|(j & c & Hj & Hx)]; [auto|].
      destruct (decide (i = j)) as [->|Hne].
      * rewrite lookup_insert_eq in Hj. injection Hj as ->. by left.
      * rewrite lookup_insert_ne in Hj by done. right. right. eauto.
Qed.

Lemma fold_keyed_lookup (F : TrieNode -> gset string) (b : Z) (m : gmap Z TrieNode) :
  map_fold (fun r child found => if r =? b then F child else found) ∅ m =
    match m !! b with
    | Some child => F child
    | None => ∅
    end.
Proof.
  apply (map_fold_weak_ind
    (fun acc m => acc = match m !! b with Some child => F child | None => ∅ end)).
  - by rewrite lookup_empty.
  - intros i child m' acc Hnone ->.
    destruct (Z.eqb_spec i b) as [->|Hne].
    + by rewrite lookup_insert_eq.
    + by rewrite lookup_insert_ne.
Qed.

Lemma fold_max_le (m : gmap Z TrieNode) i child :
  m !! i = Some child ->
  (height child <= map_fold (fun _ child h => Nat.max (height child) h) 0%nat m)%nat.
Proof.
  revert i child.
  apply (map_fold_weak_ind
    (fun h m => forall i child, m !! i = Some child -> (height child <= h)%nat)).
  - intros i child Hl. by rewrite lookup_empty in Hl.
  - intros j c m' h Hnone IH i child Hl.
    destruct (decide (j = i)) as [->|Hne].
    + rewrite lookup_insert_eq in Hl. injection Hl as ->. lia.
    + rewrite lookup_insert_ne in Hl by done. specialize (IH _ _ Hl). lia.
Qed.

Lemma height_child node b child :
  children node !! b = Some child -> (height child < height node)%nat.
Proof.
  destruct node as [ch d]. cbn [children height]. intros Hl.
  pose proof (fold_max_le ch b child Hl). lia.
Qed.

Lemma fuzzySearchRecursive_nil node : fuzzySearchRecursive node [] = docs node.
Proof. by destruct node. Qed.

Lemma fuzzySearchRecursive_literal node b rest :
  b <> star ->
  fuzzySearchRecursive node (b :: rest) =
    match children node !! b with
    | Some child => fuzzySearchRecursive child rest
    | None => ∅
    end.
Proof.
  intros Hb. destruct node as [ch d]. cbn [fuzzySearchRecursive children].
  destruct (Z.eqb_spec b star); [done|]. apply fold_keyed_lookup.
Qed.

Lemma fuzzySearchRecursive_star node rest :
  fuzzySearchRecursive node (star :: rest) =
    map_fold (fun _ child results => fuzzySearchRecursive child (star :: rest) ∪ results)
             (fuzzySearchRecursive node rest) (children node).
Proof. destruct node as [ch d]. reflexivity. Qed.

Lemma searchRecursive_nil node : searchRecursive node [] = docs node.
Proof. by destruct node. Qed.

Lemma searchRecursive_literal node b rest :
  b <> star ->
  searchRecursive node (b :: rest) =
    match children node !! b with
    | Some child => searchRecursive child rest
    | None => ∅
    end.
Proof.
  intros Hb. destruct node as [ch d]. cbn [searchRecursive children].
  destruct (Z.eqb_spec b star); [done|]. apply fold_keyed_lookup.
Qed.

Lemma searchRecursive_star node rest :
  searchRecursive node (star :: rest) =
    searchRecursive node rest ∪
    map_fold (fun _ child results => searchRecursive child (star :: rest) ∪ results)
             ∅ (children node).
Proof. destruct node as [ch d]. reflexivity. Qed.

Lemma found_fuzzy pattern path : globMatch pattern path ->
  forall node n id, nodeAt path node = Some n -> id ∈ docs n ->
  id ∈ fuzzySearchRecursive node pattern.
Proof.
  induction 1 as [|b rest path Hb Hm IH|rest path Hm IH|rest r path Hm IH];
    intros node n id Hat Hid.
  - cbn [nodeAt] in Hat. unfold rune in *. injection Hat as <-. by rewrite fuzzySearchRecursive_nil.
  - rewrite fuzzySearchRecursive_literal by done. cbn [nodeAt] in Hat. unfold rune in *.
    destruct (children node !! b) as [child|]; [|done]. eauto.
  - rewrite fuzzySearchRecursive_star. apply fold_union_elem. left. eauto.
  - rewrite fuzzySearchRecursive_star. apply fold_union_elem. right. cbn [nodeAt] in Hat. unfold rune in *.
    destruct (children node !! r) as [child|] eqn:Hc; [|done].
    exists r, child. split; [done|]. eauto.
Qed.

Lemma fuzzy_found h : forall node, (height node <= h)%nat ->
  forall pattern id, id ∈ fuzzySearchRecursive node pattern -> (exists path n, globMatch pattern path /\ nodeAt path node = Some n /\ id ∈ docs n).
Proof.
  induction h as [|h IHh]; intros node Hh; [destruct node; cbn in Hh; lia|].
  induction pattern as [|b rest IHp]; intros id Hid.
  - rewrite fuzzySearchRecursive_nil in Hid. exists [], node. split; [constructor|done].
  - destruct (decide (b = star)) as [->|Hb].
    + rewrite fuzzySearchRecursive_star in Hid. apply fold_union_elem in Hid as [Hid|(r & child & Hc & Hid)].
      * destruct (IHp id Hid) as (path & n & Hm & Hat & Hn).
        exists path, n. split; [by constructor|done].
      * pose proof (height_child node r child Hc).
        destruct (IHh child ltac:(lia) _ _ Hid) as (path & n & Hm & Hat & Hn).
        exists (r :: path), n. split; [by constructor|]. cbn [nodeAt]. unfold rune in *. by rewrite Hc.
    + rewrite fuzzySearchRecursive_literal in Hid by done.
      destruct (children node !! b) as [child|] eqn:Hc; [|set_solver].
      pose proof (height_child node b child Hc).
      destruct (IHh child ltac:(lia) _ _ Hid) as (path & n & Hm & Hat & Hn).
      exists (b :: path), n. split; [by constructor|]. cbn [nodeAt]. unfold rune in *. by rewrite Hc.
Qed.

(** X6: [FuzzySearch] returns exactly the ids stored at the nodes whose path
    from the root the pattern matches, [*] standing for any run of runes and
    every other byte for the rune of its value. *)
Theorem FuzzySearch_matches (t : Trie) (pattern id : string) :
  id ∈ FuzzySearch t pattern <->
  exists path n, globMatch (stringBytes pattern) path /\
                 nodeAt path (root t) = Some n /\ id ∈ docs n.
Proof.
  split.
  - apply (fuzzy_found (height (root t))). lia.
  - intros (path & n & Hm & Hat & Hn). by eapply found_fuzzy.
Qed.

Lemma search_eq_fuzzy h : forall node, (height node <= h)%nat ->
  forall pattern, searchRecursive node pattern = fuzzySearchRecursive node pattern.
Proof.
  induction h as [|h IHh]; intros node Hh; [destruct node; cbn in Hh; lia|].
  induction pattern as [|b rest IHp].
  - by rewrite searchRecursive_nil, fuzzySearchRecursive_nil.
  - destruct (decide (b = star)) as [->|Hb].
    + rewrite searchRecursive_star, fuzzySearchRecursive_star, IHp.
      apply set_eq. intros id. rewrite elem_of_union, !fold_union_elem.
      split.
      * intros [?|[?|(r & child & Hc & Hid)]]; [by left|set_solver|].
        right. exists r, child. split; [done|].
        rewrite <- IHh; [done|]. pose proof (height_child node r child Hc). lia.
      * intros [?|(r & child & Hc & Hid)]; [by left|].
        right. right. exists r, child. split; [done|].
        rewrite IHh; [done|]. pose proof (height_child node r child Hc). lia.
    + rewrite searchRecursive_literal, fuzzySearchRecursive_literal by done.
      destruct (children node !! b) as [child|] eqn:Hc; [|done].
      apply IHh. pose proof (height_child node b child Hc). lia.
Qed.

(** X7: [Search] of trie.go and [FuzzySearch] of the query file return the same
    set of ids on every trie and pattern. *)
Theorem Search_is_FuzzySearch (t : Trie) (pattern : string) :
  Search t pattern = FuzzySearch t pattern.
Proof. apply (search_eq_fuzzy (height (root t))). lia. Qed.

(** X8: after [Insert(word, id)] a fuzzy search returns the id for every
    pattern that matches a non-empty prefix of the runes of the word. *)
Theorem FuzzySearch_finds_inserted (t : Trie) (word docID pattern : string)
    (pre : list rune) :
  pre <> [] -> pre `prefix_of` runes word ->
  globMatch (stringBytes pattern) pre ->
  docID ∈ FuzzySearch (Insert t word docID) pattern.
Proof.
  intros Hne Hpre Hm.
  destruct (TrieSpine.insertLoop_prefix docID (runes word) pre (root t) Hne Hpre)
    as (n & Hat & Hin).
  by eapply found_fuzzy.
Qed.

Lemma insertLoop_docs rs docID node : docs (insertLoop rs docID node) = docs node.
Proof. by destruct rs. Qed.

Lemma removeLoop_docs word docID rs : forall i node node' pruning,
  removeLoop word docID i rs node = Some (node', pruning) ->
  docs node' = docs node \/ docs node' = docs node ∖ {[docID]}.
Proof.
  destruct rs as [|char rs]; intros i node node' pruning; cbn [removeLoop].
  - intros Heq. injection Heq as <- _. by right.
  - destruct (children node !! char) as [next|]; [|done].
    destruct (removeLoop word docID (S i) rs next) as [[next' p]|]; [|done].
    destruct (p && isEmptyNode next'); intros Heq; injection Heq as <- _; by left.
Qed.

(** X9: on every trie built from [NewTrie] by [Insert] and [Remove] the empty
    pattern finds nothing: no id is ever stored at the root. *)
Theorem FuzzySearch_empty_pattern (t : Trie) :
  built t -> FuzzySearch t "" = ∅.
Proof.
  unfold FuzzySearch. cbn [stringBytes list_ascii_of_string map].
  rewrite fuzzySearchRecursive_nil.
  induction 1 as [|t word docID Hb IH|t word docID Hb IH].
  - reflexivity.
  - cbn [Insert root]. by rewrite insertLoop_docs.
  - unfold Remove.
    destruct (removeLoop word docID 0 (runes word) (root t)) as [[r p]|] eqn:Hr; [|done].
    cbn [root]. destruct (removeLoop_docs _ _ _ _ _ _ _ Hr) as [->| ->]; [done|].
    rewrite IH. apply empty_difference_L.
Qed.

Lemma nodeAt_none_removeLoop word docID rs : forall i node,
  nodeAt rs node = None -> removeLoop word docID i rs node = None.
Proof.
  induction rs as [|char rs IH]; intros i node; cbn [nodeAt removeLoop]; [done|].
  destruct (children node !! char) as [next|]; [|done].
  intros Hat. by rewrite (IH (S i) next Hat).
Qed.

(** X10: [Remove] of a word the trie has no node for changes nothing. *)
Theorem Remove_absent_word (t : Trie) (word docID : string) :
  nodeAt (runes word) (root t) = None -> Remove t word docID = t.
Proof.
  intros Hat. unfold Remove. by rewrite nodeAt_none_removeLoop.
Qed.

Lemma removeLoop_keeps_prefix word docID rs : forall i node node' pruning pre n other,
  removeLoop word docID i rs node = Some (node', pruning) ->
  pre `prefix_of` rs -> pre <> rs ->
  nodeAt pre node = Some n -> other ∈ docs n ->
  exists n', nodeAt pre node' = Some n' /\ other ∈ docs n'.
Proof.
  induction rs as [|char rs IH]; intros i node node' pruning pre n other Hr Hpre Hstrict Hat Hin.
  - apply prefix_nil_inv in Hpre. done.
  - cbn [removeLoop] in Hr.
    destruct (children node !! char) as [next|] eqn:Hc; [|done].
    destruct (removeLoop word docID (S i) rs next) as [[next' p]|] eqn:Hrec; [|done].
    destruct pre as [|c pre].
    + cbn [nodeAt] in *. injection Hat as <-.
      destruct (p && isEmptyNode next'); injection Hr as <- _; eauto.
    + apply prefix_cons_inv_1 in Hpre as Heq. subst c.
      apply prefix_cons_inv_2 in Hpre.
      cbn [nodeAt] in Hat. unfold rune in *. rewrite Hc in Hat.
      destruct (IH (S i) next next' p pre n other Hrec Hpre ltac:(congruence) Hat Hin)
        as (n' & Hat' & Hin').
      assert (isEmptyNode next' = false) as Hfull.
      { unfold isEmptyNode. destruct pre as [|c' pre'].
        - cbn [nodeAt] in Hat'. injection Hat' as ->.
          apply andb_false_iff. right. apply Nat.eqb_neq.
          intros Hz. apply size_empty_inv in Hz.
          apply (not_elem_of_empty (C:=gset string) other). by apply Hz.
        - cbn [nodeAt] in Hat'. unfold rune in *.
          destruct (children next' !! c') as [x|] eqn:Hx; [|done].
          apply andb_false_iff. left. apply Nat.eqb_neq.
          intros Hz. apply map_size_empty_inv in Hz. rewrite Hz, lookup_empty in Hx. done. }
      rewrite Hfull, andb_false_r in Hr. injection Hr as <- _.
      exists n'. cbn [nodeAt children]. by rewrite lookup_insert_eq.
Qed.

Lemma Remove_leaves_id_on_prefixes (t : Trie) (word docID : string) (pre : list rune) :
  pre <> [] -> pre `prefix_of` runes word -> pre <> runes word ->
  exists n, nodeAt pre (root (Remove (Insert t word docID) word docID)) = Some n /\
            docID ∈ docs n.
Proof.
  intros Hne Hpre Hstrict.
  destruct (TrieSpine.insertLoop_prefix docID (runes word) pre (root t) Hne Hpre)
    as (n & Hat & Hin).
  unfold Remove.
  destruct (removeLoop word docID 0 (runes word) (root (Insert t word docID)))
    as [[r p]|] eqn:Hr; [|eauto].
  cbn [root]. eapply removeLoop_keeps_prefix; eauto.
Qed.

(** X11: [Remove] takes the id off the last node of the word only.  After
    [Insert(word, id)] and [Remove(word, id)] a fuzzy search still returns
    the id for every pattern that matches a non-empty proper prefix of the
    runes of the word. *)
Theorem FuzzySearch_stale_after_Remove (t : Trie) (word docID pattern : string)
    (pre : list rune) :
  pre <> [] -> pre `prefix_of` runes word -> pre <> runes word ->
  globMatch (stringBytes pattern) pre ->
  docID ∈ FuzzySearch (Remove (Insert t word docID) word docID) pattern.
Proof.
  intros Hne Hpre Hstrict Hm.
  destruct (Remove_leaves_id_on_prefixes t word docID pre Hne Hpre Hstrict) as (n & Hat & Hin).
  by eapply found_fuzzy.
Qed.

End TrieSearchFacts.

(** ** The wildcard translation *)

Lemma QuoteMeta_no_leading_star s rest : QuoteMeta s <> String "*" rest.
Proof.
  destruct s as [|a s]; cbn [QuoteMeta]; [done|].
  destruct (isRegexpMeta a) eqn:Hm; [done|].
  intros [= -> _]. done.
Qed.

Lemma prefix_escaped_star a rest :
  String.prefix "\*" (String a rest) = true <->
  a = "\"%char /\ exists rest', rest = String "*" rest'.
Proof.
  cbn [String.prefix]. destruct (ascii_dec "\" a) as [Heq|Hne]; [subst a|].
  - destruct rest as [|b rest']; cbn [String.prefix].
    + split; [done|]. by intros [_ [? ?]].
    + destruct (ascii_dec "*" b) as [Heq|Hne']; [subst b|].
      * destruct rest'; cbn [String.prefix]; split; eauto.
      * split; [done|]. intros [_ [? [= ? _]]]. by subst.
  - split; [done|]. by intros [-> _].
Qed.

Lemma replaceFrom_hit rest :
  replaceFrom "\*" ".*" 0 (String "\" (String "*" rest))
  = String "." (String "*" (replaceFrom "\*" ".*" 0 rest)).
Proof.
  cbn [replaceFrom].
  destruct (String.prefix "\*" (String "\" (String "*" rest))) eqn:Hp; [reflexivity|].
  apply not_true_iff_false in Hp. exfalso. apply Hp.
  apply prefix_escaped_star. eauto.
Qed.

Lemma replaceFrom_miss a rest :
  (a = "\"%char -> forall rest', rest <> String "*" rest') ->
  replaceFrom "\*" ".*" 0 (String a rest) = String a (replaceFrom "\*" ".*" 0 rest).
Proof.
  intros Hmiss. cbn [replaceFrom].
  destruct (String.prefix "\*" (String a rest)) eqn:Hp; [|reflexivity].
  apply prefix_escaped_star in Hp as [-> [rest' ->]]. by destruct (Hmiss eq_refl rest').
Qed.

Lemma replace_star_QuoteMeta s :
  replaceFrom "\*" ".*" 0 (QuoteMeta s) = regexpOfBytes s.
Proof.
  induction s as [|a s IH]; [done|].
  cbn [QuoteMeta regexpOfBytes]. rewrite <- IH. clear IH.
  unfold regexpOfByte.
  destruct (Ascii.eqb a "*") eqn:Hstar.
  - apply Ascii.eqb_eq in Hstar. subst a.
    change (isRegexpMeta "*") with true. cbv iota.
    by rewrite replaceFrom_hit.
  - apply Ascii.eqb_neq in Hstar.
    destruct (isRegexpMeta a) eqn:Hm.
    + rewrite replaceFrom_miss.
      2:{ intros _ rest' [= ? _]. by subst. }
      rewrite replaceFrom_miss; [done|].
      intros _ rest'. apply QuoteMeta_no_leading_star.
    + rewrite replaceFrom_miss; [done|]. intros Heq. by rewrite Heq in Hm.
Qed.

(** X12: the regular expression [wildcardToRegexp] compiles is built byte by
    byte from the pattern: [^], then [.*] for every star, a backslash and the
    byte for every other special byte, the byte itself otherwise, then [$]. *)
Theorem wildcardToRegexp_bytewise `{GoRegexp} (pattern : string) :
  wildcardToRegexp pattern = MustCompile ("^" ++ regexpOfBytes pattern ++ "$").
Proof.
  unfold wildcardToRegexp, wildcardRegexpText, ReplaceAll.
  by rewrite replace_star_QuoteMeta.
Qed.
(** ** What the operations leave in the store *)

Section Outcomes.
Context `{GoLib}.

Lemma writeWAL_memory fault db operation id doc :
  let db' := (writeWAL fault db operation id doc).1 in
  data db' = data db /\ indexes db' = indexes db /\ primaryKey db' = primaryKey db /\
  docCount db' = docCount db /\ dataFile db' = dataFile db.
Proof.
  unfold writeWAL. destruct (marshalWAL operation id doc) as [body|]; [|done].
  by destruct (appendRecord fault (walFile db) body).
Qed.

(** An [Insert] that returns no error. *)
Lemma Insert_inv io db docData :
  (Insert io db docData).2 = None ->
  exists doc id,
    decodeArg docData = inl doc /\ doc !! primaryKey db = Some id /\
    data db !! Sprintf id = None /\
    data (Insert io db docData).1 = <[Sprintf id := doc]> (data db) /\
    indexes (Insert io db docData).1 = indexAll doc (Sprintf id) <$> indexes db.
Proof.
  unfold Insert. destruct (decodeArg docData) as [doc|err]; [|done].
  destruct (doc !! primaryKey db) as [id|] eqn:Hkey; [|done].
  unfold exists_, Get. destruct (data db !! Sprintf id) eqn:Hget; [done|].
  pose proof (writeWAL_memory (walFault io) db OperationInsert (Sprintf id) (Some doc))
    as (Hd & Hi & Hp & Hc & Hf).
  destruct (writeWAL (walFault io) db OperationInsert (Sprintf id) (Some doc))
    as [db1 [err|]]; [done|].
  intros _. exists doc, id. cbn [fst snd] in *.
  match goal with |- context [writeToDataFile io ?d ?i ?c] =>
    destruct (writeToDataFile_sameMemory io d i c) as (Hd' & Hi' & _)
  end.
  rewrite Hd', Hi'. cbn [data indexes]. rewrite Hd, Hi. done.
Qed.

(** An [Update] of a stored document, whatever it returns. *)
Lemma Update_stored io db id updates oldDoc :
  data db !! id = Some oldDoc ->
  data (Update io db id updates).1 = <[id := updates ∪ oldDoc]> (data db) /\
  ((Update io db id updates).2 = None \/
   exists cause, (Update io db id updates).2 = Some (ErrWriteWAL cause) /\
                 indexes (Update io db id updates).1 = indexes db).
Proof.
  intros Hold. unfold Update. rewrite Hold.
  match goal with |- context [writeWAL ?f ?d ?o ?i ?c] =>
    pose proof (writeWAL_memory f d o i c) as (Hd & Hi & _);
    destruct (writeWAL f d o i c) as [db1 [err|]]
  end; cbn [fst snd data indexes] in *.
  - split; [done|]. right. eauto.
  - match goal with |- context [writeToDataFile io ?d ?i ?c] =>
      destruct (writeToDataFile_sameMemory io d i c) as (Hd' & _)
    end.
    rewrite Hd'. cbn [data]. split; [done|]. by left.
Qed.

(** A [Delete] of a stored document, whatever it returns. *)
Lemma Delete_stored io db id doc :
  data db !! id = Some doc ->
  data (Delete io db id).1 = delete id (data db).
Proof.
  intros Hdoc. unfold Delete. rewrite Hdoc.
  match goal with |- context [writeWAL ?f ?d ?o ?i ?c] =>
    pose proof (writeWAL_memory f d o i c) as (Hd & _);
    destruct (writeWAL f d o i c) as [db1 [err|]]
  end; cbn [fst snd data] in *; done.
Qed.

(** X13: what [Get] returns after each operation.  After an [Insert] that
    returned no error the document is found under the text of its primary
    key, which was free before.  An [Update] of a stored document leaves the
    old map overlaid with the updates, also when it returns the error of the
    WAL append; an [Update] of an id that is not stored returns [ErrNotFound]
    and changes nothing.  After a [Delete] the id is not found; a [Delete]
    of an id that is not stored returns no error and changes nothing.  No
    operation touches the document of another id. *)
Theorem Get_after_operations (io : IO) (db : Database) :
  (forall docData, (Insert io db docData).2 = None ->
     exists doc id, decodeArg docData = inl doc /\ doc !! primaryKey db = Some id /\
       Get db (Sprintf id) = None /\
       Get (Insert io db docData).1 (Sprintf id) = Some doc /\
       forall other, other <> Sprintf id ->
         Get (Insert io db docData).1 other = Get db other) /\
  (forall id updates,
     match Get db id with
     | Some oldDoc =>
         Get (Update io db id updates).1 id = Some (updates ∪ oldDoc)
     | None =>
         Update io db id updates = (db, Some ErrNotFound)
     end /\
     forall other, other <> id -> Get (Update io db id updates).1 other = Get db other) /\
  (forall id,
     Get (Delete io db id).1 id = None /\
     (Get db id = None -> Delete io db id = (db, None)) /\
     forall other, other <> id -> Get (Delete io db id).1 other = Get db other).
Proof.
  split; [|split].
  - intros docData Hok.
    destruct (Insert_inv io db docData Hok) as (doc & id & Hdec & Hkey & Hfree & Hdata & _).
    exists doc, id. unfold Get. rewrite Hdata.
    split; [done|]. split; [done|]. split; [done|].
    split; [by rewrite lookup_insert_eq|].
    intros other Hne. by rewrite lookup_insert_ne.
  - intros id updates. unfold Get.
    destruct (data db !! id) as [oldDoc|] eqn:Hold.
    + destruct (Update_stored io db id updates oldDoc Hold) as [-> _].
      split; [by rewrite lookup_insert_eq|].
      intros other Hne. by rewrite lookup_insert_ne.
    + unfold Update. rewrite Hold. done.
  - intros id. unfold Get.
    destruct (data db !! id) as [doc|] eqn:Hdoc.
    + rewrite (Delete_stored io db id doc Hdoc).
      split; [by rewrite lookup_delete_eq|]. split; [done|].
      intros other Hne. by rewrite lookup_delete_ne.
    + unfold Delete. rewrite Hdoc. done.
Qed.

(** X14: [GetAll] after each operation, up to the order of the [Range]: an
    [Insert] that returned no error adds its document; an [Update] of a
    stored document puts the overlaid map in the place of the old one; a
    [Delete] of a stored document takes it out. *)
Theorem GetAll_after_operations (io : IO) (db : Database) :
  (forall docData, (Insert io db docData).2 = None ->
     exists doc, decodeArg docData = inl doc /\
       GetAll (Insert io db docData).1 ≡ₚ doc :: GetAll db) /\
  (forall id updates oldDoc, Get db id = Some oldDoc ->
     oldDoc :: GetAll (Update io db id updates).1 ≡ₚ (updates ∪ oldDoc) :: GetAll db) /\
  (forall id doc, Get db id = Some doc ->
     doc :: GetAll (Delete io db id).1 ≡ₚ GetAll db).
Proof.
  unfold GetAll, Get. split; [|split].
  - intros docData Hok.
    destruct (Insert_inv io db docData Hok) as (doc & id & Hdec & Hkey & Hfree & -> & _).
    exists doc. split; [done|].
    by rewrite map_to_list_insert.
  - intros id updates oldDoc Hold.
    destruct (Update_stored io db id updates oldDoc Hold) as [-> _].
    rewrite <- (insert_delete_eq (data db)).
    rewrite map_to_list_insert by apply lookup_delete_eq.
    rewrite <- (map_to_list_delete (data db) id oldDoc Hold).
    cbn [map snd]. apply perm_swap.
  - intros id doc Hdoc.
    rewrite (Delete_stored io db id doc Hdoc).
    by rewrite <- (map_to_list_delete (data db) id doc Hdoc).
Qed.

End Outcomes.
(** ** Equality of floats *)



Lemma eqb_nan_l x : PrimFloat.eqb nan x = false.
Proof.
  rewrite FloatAxioms.eqb_spec. unfold SFeqb. change (Prim2SF nan) with S754_nan. done.
Qed.



(** ** Queries through an index *)



Lemma valuesStoreID_elem k id vs k' ids' x :
  (k', ids') ∈ valuesStoreID k id vs -> x ∈ ids' ->
  (x = id /\ (k' = k \/ ifaceEq k' k = true)) \/
  exists ids0, (k', ids0) ∈ vs /\ x ∈ ids0.
Proof.
  induction vs as [|[k1 ids1] vs IH]; cbn [valuesStoreID].
  - intros Hin%list_elem_of_singleton Hx. injection Hin as -> ->.
    apply elem_of_singleton in Hx. left. eauto.
  - destruct (ifaceEq k1 k) eqn:Heq.
    + intros [Hin|Hin]%elem_of_cons Hx.
      * injection Hin as -> ->. apply elem_of_union in Hx as [Hx%elem_of_singleton|Hx].
        -- left. eauto.
        -- right. exists ids1. split; [left|done].
      * right. exists ids'. split; [by right|done].
    + intros [Hin|Hin]%elem_of_cons Hx.
      * injection Hin as -> ->. right. exists ids1. split; [left|done].
      * destruct (IH Hin Hx) as [?|(ids0 & ? & ?)]; [by left|].
        right. exists ids0. split; [by right|done].
Qed.

Lemma valuesStoreID_keeps k id vs k' ids0 x :
  (k', ids0) ∈ vs -> x ∈ ids0 ->
  exists ids', (k', ids') ∈ valuesStoreID k id vs /\ x ∈ ids'.
Proof.
  induction vs as [|[k1 ids1] vs IH]; cbn [valuesStoreID].
  - by intros ?%elem_of_nil.
  - intros [Hin|Hin]%elem_of_cons Hx.
    + injection Hin as -> ->. destruct (ifaceEq k1 k).
      * exists ({[id]} ∪ ids1). split; [left|]. by apply elem_of_union_r.
      * exists ids1. split; [left|done].
    + destruct (ifaceEq k1 k).
      * exists ids0. split; [by right|done].
      * destruct (IH Hin Hx) as (ids' & ? & ?). exists ids'. split; [by right|done].
Qed.

Lemma valuesStoreID_stores k id vs :
  exists k' ids', (k', ids') ∈ valuesStoreID k id vs /\ id ∈ ids' /\
                  (k' = k \/ ifaceEq k' k = true).
Proof.
  induction vs as [|[k1 ids1] vs IH]; cbn [valuesStoreID].
  - exists k, {[id]}. split; [left|]. split; [by apply elem_of_singleton|by left].
  - destruct (ifaceEq k1 k) eqn:Heq.
    + exists k1, ({[id]} ∪ ids1). split; [left|].
      split; [apply elem_of_union_l; by apply elem_of_singleton|by right].
    + destruct IH as (k' & ids' & ? & ? & ?). exists k', ids'. split; [by right|done].
Qed.

Lemma nodeAt_more_docs pre next more n :
  Trie.nodeAt pre next = Some n ->
  exists n', Trie.nodeAt pre {| Trie.children := Trie.children next;
                                Trie.docs := more ∪ Trie.docs next |} = Some n' /\
             Trie.docs n ⊆ Trie.docs n'.
Proof.
  destruct pre as [|c pre]; cbn [Trie.nodeAt Trie.children].
  - intros [= <-]. eexists. split; [done|]. cbn [Trie.docs]. apply union_subseteq_r.
  - intros Hat. exists n. done.
Qed.

Lemma insertLoop_keeps docID rs : forall pre node n,
  Trie.nodeAt pre node = Some n ->
  exists n', Trie.nodeAt pre (Trie.insertLoop rs docID node) = Some n' /\
             Trie.docs n ⊆ Trie.docs n'.
Proof.
  induction rs as [|char rs IH]; intros pre node n Hat; cbn [Trie.insertLoop].
  - exists n. done.
  - destruct pre as [|c pre]; cbn [Trie.nodeAt Trie.children] in *.
    + injection Hat as <-. eexists. split; [done|]. done.
    + unfold rune in *. destruct (decide (c = char)) as [->|Hne].
      * rewrite lookup_insert_eq.
        destruct (Trie.children node !! char) as [next|] eqn:Hc; [|done].
        destruct (nodeAt_more_docs pre next {[docID]} n Hat) as (n1 & Hat1 & Hsub1).
        destruct (IH pre _ n1 Hat1) as (n' & Hat' & Hsub').
        exists n'. split; [done|]. by etrans.
      * rewrite lookup_insert_ne by done. exists n. done.
Qed.

Lemma insertLoop_elem docID rs : forall pre node n' x,
  Trie.nodeAt pre (Trie.insertLoop rs docID node) = Some n' -> x ∈ Trie.docs n' ->
  (x = docID /\ pre <> [] /\ pre `prefix_of` rs) \/
  exists n, Trie.nodeAt pre node = Some n /\ x ∈ Trie.docs n.
Proof.
  induction rs as [|char rs IH]; intros pre node n' x; cbn [Trie.insertLoop].
  - eauto.
  - destruct pre as [|c pre]; cbn [Trie.nodeAt Trie.children].
    + intros [= <-] Hx. right. eauto.
    + unfold rune in *. destruct (decide (c = char)) as [->|Hne].
      2:{ rewrite lookup_insert_ne by done. eauto. }
      rewrite lookup_insert_eq. intros Hat Hx.
      destruct (IH _ _ _ _ Hat Hx) as [(-> & Hpne & Hpre)|(n & Hn & Hxn)].
      * left. split; [done|]. split; [done|]. by apply prefix_cons.
      * destruct pre as [|c' pre]; cbn [Trie.nodeAt Trie.children] in Hn.
        -- injection Hn as <-. cbn [Trie.docs] in Hxn.
           apply elem_of_union in Hxn as [->%elem_of_singleton|Hxn].
           ++ left. split; [done|]. split; [done|]. apply prefix_cons, prefix_nil.
           ++ right. destruct (Trie.children node !! char) as [next|]; [eauto|].
              by apply not_elem_of_empty in Hxn.
        -- right. destruct (Trie.children node !! char) as [next|]; [eauto|].
           cbn in Hn. by rewrite lookup_empty in Hn.
Qed.

Section IndexQueries.
Context `{GoLib} `{GoRegexp}.

Lemma indexCovers_new f : indexCovers ∅ (NewIndex f).
Proof.
  split; [|split].
  - intros k ids id Hin. by apply elem_of_nil in Hin.
  - intros [|c pre] n id; cbn.
    + intros [= <-] Hid. by apply not_elem_of_empty in Hid.
    + by rewrite lookup_empty.
  - intros id d v Hd. by rewrite lookup_empty in Hd.
Qed.

Lemma trie_indexDocument doc id index :
  trie (indexDocument doc id index) =
    match doc !! field index with
    | Some fieldValue =>
        Trie.Insert (trie index) (ToLower (Sprintf (indexValueOf fieldValue))) id
    | None => trie index
    end.
Proof. unfold indexDocument. by destruct (doc !! field index). Qed.

Lemma indexCovers_indexDocument m idx id d :
  m !! id = None -> indexCovers m idx ->
  indexCovers (<[id := d]> m) (indexDocument d id idx).
Proof.
  intros Hfree (Hsound & Htsound & Hcomplete).
  assert (forall x d0, m !! x = Some d0 -> <[id := d]> m !! x = Some d0) as Hkeep.
  { intros x d0 Hx. rewrite lookup_insert_ne; [done|]. intros <-. congruence. }
  split; [|split].
  - intros k ids x Hin Hx.
    rewrite field_indexDocument. rewrite values_indexDocument in Hin.
    assert ((exists ids0, (k, ids0) ∈ values idx /\ x ∈ ids0) ->
            exists d0 v, <[id := d]> m !! x = Some d0 /\ d0 !! field idx = Some v /\
                         (k = indexValueOf v \/ ifaceEq k (indexValueOf v) = true)) as Hold.
    { intros (ids0 & Hin0 & Hx0).
      destruct (Hsound k ids0 x Hin0 Hx0) as (d0 & v & Hd0 & Hv & Hk).
      exists d0, v. eauto. }
    destruct (d !! field idx) as [v|] eqn:Hv; [|eauto].
    destruct (valuesStoreID_elem _ _ _ _ _ _ Hin Hx) as [[-> Hk]|Hin0]; [|eauto].
    exists d, v. by rewrite lookup_insert_eq.
  - intros pre n x. rewrite field_indexDocument, trie_indexDocument.
    assert (forall n0, Trie.nodeAt pre (Trie.root (trie idx)) = Some n0 -> x ∈ Trie.docs n0 ->
            exists d0 v, <[id := d]> m !! x = Some d0 /\ d0 !! field idx = Some v /\
                         pre <> [] /\
                         pre `prefix_of` runes (ToLower (Sprintf (indexValueOf v)))) as Hold.
    { intros n0 Hat Hx. destruct (Htsound pre n0 x Hat Hx) as (d0 & v & Hd0 & Hrest).
      exists d0, v. eauto. }
    destruct (d !! field idx) as [v|] eqn:Hv; [|apply Hold].
    cbn [Trie.Insert Trie.root]. intros Hat Hx.
    destruct (insertLoop_elem _ _ _ _ _ _ Hat Hx) as [(-> & Hpne & Hpre)|(n0 & Hat0 & Hx0)];
      [|eauto].
    exists d, v. by rewrite lookup_insert_eq.
  - intros x d0 v. rewrite field_indexDocument, values_indexDocument, trie_indexDocument.
    destruct (decide (x = id)) as [->|Hne].
    + rewrite lookup_insert_eq. intros [= <-] Hv. rewrite Hv. split.
      * apply valuesStoreID_stores.
      * intros pre Hne Hpre. by apply TrieSpine.insertLoop_prefix.
    + rewrite lookup_insert_ne by done. intros Hd0 Hv.
      destruct (Hcomplete x d0 v Hd0 Hv) as [(k & ids & Hin & Hx & Hk) Htrie].
      destruct (d !! field idx) as [v'|]; [|split; eauto].
      split.
      * destruct (valuesStoreID_keeps (indexValueOf v') id _ _ _ _ Hin Hx) as (ids' & ? & ?).
        eauto.
      * intros pre Hpne Hpre. destruct (Htrie pre Hpne Hpre) as (n & Hat & Hn).
        destruct (insertLoop_keeps id (runes (ToLower (Sprintf (indexValueOf v')))) pre _ n Hat)
          as (n' & Hat' & Hsub).
        exists n'. split; [done|]. by apply Hsub.
Qed.

Lemma covered_CreateIndex db f :
  indexes db !! f = None -> covered (CreateIndex db f) f.
Proof.
  intros Hfree. unfold CreateIndex, covered. rewrite Hfree. cbn [indexes data].
  rewrite lookup_insert_eq. eexists. split; [done|].
  apply (map_fold_weak_ind (fun idx m => field idx = f /\ indexCovers m idx)).
  - split; [done|]. apply indexCovers_new.
  - intros id d m idx Hnone [Hf Hcov]. split.
    + by rewrite field_indexDocument.
    + by apply indexCovers_indexDocument.
Qed.

Lemma covered_Insert io db docData f :
  covered db f -> covered (Insert io db docData).1 f.
Proof.
  intros (idx & Hidx & Hf & Hcov). unfold covered.
  destruct ((Insert io db docData).2) as [err|] eqn:Hres.
  - destruct (Insert_error_sameMemory io db docData err Hres) as (-> & -> & _). eauto.
  - destruct (Insert_inv io db docData Hres) as (doc & id & _ & _ & Hfree & -> & ->).
    rewrite lookup_fmap, Hidx. cbn. eexists. split; [done|].
    split; [by rewrite field_indexDocument|].
    by apply indexCovers_indexDocument.
Qed.

Lemma covered_insertAll io docs : forall db f,
  covered db f -> covered (insertAll io db docs) f.
Proof.
  induction docs as [|docData docs IH]; intros db f Hcov; [done|].
  cbn. apply IH. by apply covered_Insert.
Qed.


Lemma elem_of_concat_map {A B : Type} (f : A -> list B) (l : list A) (y : B) :
  y ∈ concat (map f l) <-> exists x, x ∈ l /\ y ∈ f x.
Proof.
  rewrite list_elem_of_In, in_concat. split.
  - intros (ys & Hys & Hy). apply in_map_iff in Hys as (x & <- & Hx).
    exists x. by rewrite !list_elem_of_In.
  - intros (x & Hx & Hy). exists (f x). rewrite <- !list_elem_of_In.
    split; [|done]. apply list_elem_of_In, in_map. by apply list_elem_of_In.
Qed.

Lemma elem_of_resolveIDs db ids doc :
  doc ∈ resolveIDs db ids <-> exists id, id ∈ ids /\ data db !! id = Some doc.
Proof.
  unfold resolveIDs, Get. rewrite list_elem_of_omap.
  split; intros (id & Hid & Hdoc); exists id; by rewrite elem_of_elements in *.
Qed.




(** X17: on a store that grew by [Insert] alone since [CreateIndex],
    [FuzzyQuery] through the index returns exactly the stored documents that
    hold the field with a value whose lower-cased text has a non-empty
    prefix the lower-cased pattern matches, [*] standing for any run of
    runes.  The match is on a prefix, not on the whole text. *)
Theorem FuzzyQuery_index_matches_prefix (io : IO) (db : Database) (f : string)
    (docs : list InsertArg) (pattern : string) (doc : DocumentData) :
  indexes db !! f = None ->
  let db' := insertAll io (CreateIndex db f) docs in
  exists found, FuzzyQuery db' f pattern = Ok found /\
    (doc ∈ found <->
     exists id v pre, Get db' id = Some doc /\ doc !! f = Some v /\
       pre <> [] /\ pre `prefix_of` runes (ToLower (Sprintf (indexValueOf v))) /\
       Trie.globMatch (stringBytes (ToLower pattern)) pre).
Proof.
  intros Hnone db'.
  destruct (covered_insertAll io docs _ f (covered_CreateIndex db f Hnone))
    as (idx & Hidx & Hf & _ & Hsound & Hcomplete).
  fold db' in Hidx, Hsound, Hcomplete.
  unfold FuzzyQuery. rewrite Hidx. eexists. split; [done|].
  rewrite elem_of_resolveIDs. unfold Get. split.
  - intros (id & Hid & Hdoc).
    apply (TrieSearchFacts.fuzzy_found (Trie.height (Trie.root (trie idx)))) in Hid
      as (pre & n & Hm & Hat & Hn); [|lia].
    destruct (Hsound pre n id Hat Hn) as (d & v & Hd & Hv & Hpne & Hpre).
    assert (d = doc) as -> by congruence. rewrite Hf in Hv.
    exists id, v, pre. done.
  - intros (id & v & pre & Hdoc & Hv & Hpne & Hpre & Hm).
    assert (doc !! field idx = Some v) as Hv' by by rewrite Hf.
    destruct (Hcomplete id doc v Hdoc Hv') as [_ Htrie].
    destruct (Htrie pre Hpne Hpre) as (n & Hat & Hn).
    exists id. split; [|done]. by eapply TrieSearchFacts.found_fuzzy.
Qed.

End IndexQueries.

Section CompositeQueries.
Context `{GoLib}.

Lemma compositeCovers_indexDocumentComposite m idx id d :
  m !! id = None -> compositeCovers m idx ->
  compositeCovers (<[id := d]> m) (indexDocumentComposite d id idx).
Proof.
  intros Hfree Hcov key x. unfold indexDocumentComposite, compositeStoreID.
  cbn [compositeValues fields].
  change (indexCompositeKey d idx) with (compositeKeyOf d (fields idx)).
  set (k := compositeKeyOf d (fields idx)).
  split.
  - intros (ids & Hids & Hx).
    destruct (decide (key = k)) as [->|Hne].
    + rewrite lookup_insert_eq in Hids. injection Hids as <-.
      apply elem_of_union in Hx as [->%elem_of_singleton|Hx].
      * exists d. by rewrite lookup_insert_eq.
      * destruct (compositeValues idx !! k) as [ids0|] eqn:Hk;
          [|by apply not_elem_of_empty in Hx].
        destruct (proj1 (Hcov k x)) as (d0 & Hd0 & Hkey); [eauto|].
        exists d0. rewrite lookup_insert_ne; [done|]. intros <-. congruence.
    + rewrite lookup_insert_ne in Hids by done.
      destruct (proj1 (Hcov key x)) as (d0 & Hd0 & Hkey); [eauto|].
      exists d0. rewrite lookup_insert_ne; [done|]. intros <-. congruence.
  - intros (d0 & Hd0 & ->).
    destruct (decide (x = id)) as [->|Hne].
    + rewrite lookup_insert_eq in Hd0. injection Hd0 as <-. fold k.
      rewrite lookup_insert_eq. eexists. split; [done|].
      apply elem_of_union_l. by apply elem_of_singleton.
    + rewrite lookup_insert_ne in Hd0 by done.
      destruct (proj2 (Hcov (compositeKeyOf d0 (fields idx)) x)) as (ids & Hids & Hx); [eauto|].
      destruct (decide (compositeKeyOf d0 (fields idx) = k)) as [Heq|Hnk].
      * rewrite Heq in *. rewrite lookup_insert_eq. eexists. split; [done|].
        rewrite Hids. by apply elem_of_union_r.
      * rewrite lookup_insert_ne by done. eauto.
Qed.

Lemma compositeCovered_CreateCompositeIndex db fs :
  indexes db !! stringsJoin fs "-" = None ->
  compositeCovered (CreateCompositeIndex db fs) fs.
Proof.
  intros Hfree. unfold CreateCompositeIndex, compositeCovered. cbv zeta.
  rewrite Hfree. cbn [indexes data].
  rewrite lookup_insert_eq. eexists. split; [done|].
  apply (map_fold_weak_ind (fun idx m => fields idx = fs /\ compositeCovers m idx)).
  - split; [done|]. intros key id. cbn [compositeValues]. split.
    + intros (ids & Hids & _). by rewrite lookup_empty in Hids.
    + intros (d & Hd & _). by rewrite lookup_empty in Hd.
  - intros id d m idx Hnone [Hf Hcov]. split; [done|].
    by apply compositeCovers_indexDocumentComposite.
Qed.

Lemma compositeCovered_Insert io db docData fs :
  compositeCovered db fs -> compositeCovered (Insert io db docData).1 fs.
Proof.
  intros (idx & Hidx & Hf & Hcov). unfold compositeCovered.
  destruct ((Insert io db docData).2) as [err|] eqn:Hres.
  - destruct (Insert_error_sameMemory io db docData err Hres) as (-> & -> & _). eauto.
  - destruct (Insert_inv io db docData Hres) as (doc & id & _ & _ & Hfree & -> & ->).
    rewrite lookup_fmap, Hidx. cbn. eexists. split; [done|]. split; [done|].
    by apply compositeCovers_indexDocumentComposite.
Qed.

Lemma compositeCovered_insertAll io docs : forall db fs,
  compositeCovered db fs -> compositeCovered (insertAll io db docs) fs.
Proof.
  induction docs as [|docData docs IH]; intros db fs Hcov; [done|].
  cbn. apply IH. by apply compositeCovered_Insert.
Qed.

(** X18: on a store that grew by [Insert] alone since [CreateCompositeIndex],
    [QueryComposite] returns exactly the stored documents whose key, the
    texts of the fields joined by [-] with the empty text for a missing
    field, is the text of the query values joined by [-]. *)
Theorem QueryComposite_matches_joined_key (io : IO) (db : Database) (fs : list string)
    (docs : list InsertArg) (vals : list Value) (doc : DocumentData) :
  indexes db !! stringsJoin fs "-" = None ->
  let db' := insertAll io (CreateCompositeIndex db fs) docs in
  doc ∈ QueryComposite db' fs vals <->
  exists id, Get db' id = Some doc /\
             compositeKeyOf doc fs = stringsJoin (map Sprintf vals) "-".
Proof.
  intros Hnone db'.
  destruct (compositeCovered_insertAll io docs _ fs
              (compositeCovered_CreateCompositeIndex db fs Hnone))
    as (idx & Hidx & Hf & Hcov).
  fold db' in Hidx, Hcov. unfold compositeCovers in Hcov. subst fs.
  unfold QueryComposite, Get. cbv zeta. rewrite Hidx.
  set (key := stringsJoin (map Sprintf vals) "-"). split.
  - destruct (compositeValues idx !! key) as [ids|] eqn:Hids;
      [|by intros ?%elem_of_nil].
    intros (id & Hid & Hdoc)%elem_of_resolveIDs.
    destruct (proj1 (Hcov key id)) as (d & Hd & Hkey); [eauto|].
    assert (d = doc) as -> by congruence. eauto.
  - intros (id & Hdoc & Hkey).
    destruct (proj2 (Hcov key id)) as (ids & Hids & Hid); [eauto|].
    rewrite Hids. apply elem_of_resolveIDs. eauto.
Qed.

End CompositeQueries.

Section RangeQueries.
Context `{GoLib}.

Lemma rangeCollect_Ok {A : Type} (f : A -> Res (list DocumentData)) (g : A -> list DocumentData)
    (l : list A) :
  (forall x, x ∈ l -> f x = Ok (g x)) ->
  rangeCollect f l = Ok (concat (map g l)).
Proof.
  induction l as [|x l IH]; intros Hf; [done|].
  cbn [rangeCollect map concat]. rewrite (Hf x) by left.
  rewrite IH; [done|]. intros y Hy. apply Hf. by right.
Qed.

Lemma withinRange_integers v min max n lo hi :
  integerOf v = Some n -> integerOf min = Some lo -> integerOf max = Some hi ->
  withinRange (toComparableValue v) (toComparableValue min) (toComparableValue max)
  = Ok ((lo <=? n) && (n <=? hi)).
Proof.
  unfold integerOf. intros Hv Hmin Hmax.
  destruct (toComparableValue v) as [| | | |n'| | | |]; try discriminate.
  destruct (toComparableValue min) as [| | | |lo'| | | |]; try discriminate.
  destruct (toComparableValue max) as [| | | |hi'| | | |]; try discriminate.
  injection Hv as ->. injection Hmin as ->. injection Hmax as ->.
  unfold withinRange, compareValues. cbn. unfold threeWayInt.
  destruct (Z.ltb_spec n lo), (Z.ltb_spec lo n), (Z.ltb_spec n hi), (Z.ltb_spec hi n),
    (Z.leb_spec lo n), (Z.leb_spec n hi); cbn; try done; lia.
Qed.

(** X19: the scan of [RangeQuery] on a field that holds integers (or time
    stamps) in every stored document that has it, with integer bounds: no
    panic, and the result is exactly the stored documents whose value lies
    between the bounds, both included. *)
Theorem RangeQuery_scan_integers (db : Database) (f : string) (min max : Value)
    (lo hi : Z) :
  indexes db !! f = None ->
  integerOf min = Some lo -> integerOf max = Some hi ->
  (forall id d v, Get db id = Some d -> d !! f = Some v -> is_Some (integerOf v)) ->
  exists found, RangeQuery db f min max = Ok found /\
    forall doc, doc ∈ found <->
      exists id v n, Get db id = Some doc /\ doc !! f = Some v /\
                     integerOf v = Some n /\ lo <= n <= hi.
Proof.
  intros Hnone Hmin Hmax Hints. unfold RangeQuery. cbv zeta. rewrite Hnone.
  set (g := fun entry : string * DocumentData =>
              match entry.2 !! f with
              | Some v =>
                  match integerOf v with
                  | Some n => if (lo <=? n) && (n <=? hi) then [entry.2] else []
                  | None => []
                  end
              | None => []
              end).
  exists (concat (map g (map_to_list (data db)))). split.
  - apply rangeCollect_Ok. intros [id d] Hin%elem_of_map_to_list. unfold g. cbn [snd].
    destruct (d !! f) as [v|] eqn:Hv; [|done].
    destruct (Hints id d v Hin Hv) as [n Hn].
    rewrite (withinRange_integers v min max n lo hi Hn Hmin Hmax), Hn. done.
  - intros doc. rewrite elem_of_concat_map. unfold Get. split.
    + intros ([id d] & Hin%elem_of_map_to_list & Hdoc). unfold g in Hdoc. cbn [snd] in Hdoc.
      destruct (d !! f) as [v|] eqn:Hv; [|by apply elem_of_nil in Hdoc].
      destruct (integerOf v) as [n|] eqn:Hn; [|by apply elem_of_nil in Hdoc].
      destruct ((lo <=? n) && (n <=? hi)) eqn:Hr; [|by apply elem_of_nil in Hdoc].
      apply list_elem_of_singleton in Hdoc as ->.
      exists id, v, n. split; [done|]. split; [done|]. split; [done|]. lia.
    + intros (id & v & n & Hdoc & Hv & Hn & Hr). exists (id, doc).
      split; [by apply elem_of_map_to_list|]. unfold g. cbn [snd]. rewrite Hv, Hn.
      assert ((lo <=? n) && (n <=? hi) = true) as -> by lia.
      by apply list_elem_of_singleton.
Qed.

End RangeQueries.

(** ** Restart *)

Lemma readRecord_app file body rest tail :
  readRecord file = ReadRecord body rest ->
  readRecord (file ++ tail) = ReadRecord body (rest ++ tail) /\
  (length rest < length file)%nat.
Proof.
  destruct file as [|b0 [|b1 [|b2 [|b3 rest0]]]]; try done.
  cbn [readRecord app].
  destruct (Nat.leb_spec (N.to_nat (getUint32 b0 b1 b2 b3)) (length rest0)) as [Hle|]; [|done].
  intros [= <- <-].
  destruct (Nat.leb_spec (N.to_nat (getUint32 b0 b1 b2 b3)) (length (rest0 ++ tail)))
    as [_|Hgt]; [|rewrite length_app in Hgt; lia].
  split.
  - f_equal.
    + by rewrite take_app_le.
    + by rewrite drop_app_le.
  - rewrite length_drop. cbn [length]. lia.
Qed.

Section RestartFacts.
Context `{GoLib}.

(** A load that succeeds has read whole records up to the end of the file:
    on a longer file it goes on with what follows.  The store it builds
    depends on the store it starts from only. *)
Lemma loadLoop_app fuel : forall db file db',
  (length file < fuel)%nat ->
  loadLoop fuel db file = (db', None) ->
  forall db2 tail fuel2,
    data db2 = data db ->
    (length (file ++ tail) < fuel2)%nat ->
    exists db2' fuel2', (length tail < fuel2')%nat /\ data db2' = data db' /\
      loadLoop fuel2 db2 (file ++ tail) = loadLoop fuel2' db2' tail.
Proof.
  induction fuel as [|fuel IH]; intros db file db' Hfuel; [lia|].
  cbn [loadLoop]. destruct (readRecord file) as [| | |body rest] eqn:Hread; try done.
  - intros [= <-]. intros db2 tail fuel2 Hdata Hfuel2.
    destruct file; [|by destruct file as [|? [|? [|? ?]]]; cbn in Hread;
                       try destruct (_ <=? _)%nat].
    exists db2, fuel2. done.
  - destruct (unmarshalData body) as [[ID Data]|] eqn:Hdec; [|done].
    intros Hrun db2 tail fuel2 Hdata Hfuel2.
    destruct (readRecord_app file body rest tail Hread) as [Hread2 Hlen].
    destruct fuel2 as [|fuel2]; [lia|]. cbn [loadLoop]. rewrite Hread2, Hdec.
    eapply (IH _ rest db'); [lia|exact Hrun|by cbn [data]; rewrite Hdata|].
    rewrite length_app in *. lia.
Qed.

Lemma recoverFromWAL_empty db : walFile db = [] -> recoverFromWAL db = (db, None).
Proof. intros Hw. unfold recoverFromWAL. by rewrite Hw. Qed.

Lemma loadLoop_keeps fuel : forall db file,
  let db' := (loadLoop fuel db file).1 in
  walFile db' = walFile db /\ primaryKey db' = primaryKey db /\ dataFile db' = dataFile db /\
  (indexes db = ∅ -> indexes db' = ∅).
Proof.
  induction fuel as [|fuel IH]; intros db file; [done|].
  cbn [loadLoop]. destruct (readRecord file) as [| | |body rest]; try done.
  destruct (unmarshalData body) as [[ID Data]|]; [|done].
  match goal with |- context [loadLoop fuel ?d rest] =>
    destruct (IH d rest) as (Hw & Hp & Hf & Hi) end.
  cbn zeta. rewrite Hw, Hp, Hf. split; [done|]. split; [done|]. split; [done|].
  intros Hempty. apply Hi. cbn [indexes]. rewrite Hempty. apply fmap_empty.
Qed.

(** The store after a restart is what the load builds from the data file. *)
Lemma reopen_load db :
  reopen db =
    match loadLoop (S (length (dataFile db)))
            {| data := ∅; indexes := ∅; primaryKey := primaryKey db;
               dataFile := dataFile db; walFile := []; docCount := 0 |} (dataFile db) with
    | (_, Some err) => inr (ErrLoadData err)
    | (db', None) => inl db'
    end.
Proof.
  unfold reopen, NewDatabase, Close, loadData. cbn [diskData dataFile].
  match goal with |- context [loadLoop ?n ?d ?f] =>
    pose proof (loadLoop_keeps n d f) as (Hw & _); destruct (loadLoop n d f) as [db' [err|]]
  end; [done|].
  cbn [fst walFile] in Hw. by rewrite recoverFromWAL_empty.
Qed.

Lemma restartKeepsStore_append db db1 id doc :
  restartKeepsStore db ->
  dataRecordReadsBack id doc ->
  primaryKey db1 = primaryKey db ->
  (forall body, marshalData id doc = Some body -> dataFile db1 = dataFile db ++ frame body) ->
  data db1 = <[id := doc]> (data db) ->
  restartKeepsStore db1.
Proof.
  intros (db0 & Hre & Hdata) (body & Hm & Hfit & Hdec) Hpk Hfile Hstore.
  unfold restartKeepsStore. rewrite reopen_load in *.
  rewrite (Hfile body Hm), Hpk.
  match type of Hre with context [loadLoop ?n ?d ?f] =>
    destruct (loadLoop n d f) as [dbL [err|]] eqn:Hrun; [done|];
    injection Hre as ->;
    match goal with |- context [loadLoop ?n2 ?d2 (f ++ ?tail)] =>
      destruct (loadLoop_app n d f db0 ltac:(lia) Hrun d2 tail n2 eq_refl ltac:(lia))
        as (db2 & fuel2 & Hfuel2 & Hdata2 & ->)
    end
  end.
  destruct fuel2 as [|fuel2]; [lia|].
  rewrite <- (app_nil_r (frame body)).
  rewrite (loadLoop_record _ _ body [] id doc Hfit Hdec).
  pose proof (frame_length body) as Hlen.
  destruct fuel2 as [|fuel2]; [lia|]. rewrite loadLoop_eof.
  eexists. split; [done|]. cbn [data]. by rewrite Hdata2, Hdata, Hstore.
Qed.

Lemma Insert_dataFile io db docData doc id body :
  dataSeekFails io = false -> dataFault io = NoFault ->
  (Insert io db docData).2 = None ->
  decodeArg docData = inl doc ->
  doc !! primaryKey db = Some id ->
  marshalData (Sprintf id) doc = Some body ->
  dataFile (Insert io db docData).1 = dataFile db ++ frame body /\
  primaryKey (Insert io db docData).1 = primaryKey db.
Proof.
  intros Hseek Hfault. unfold Insert. intros Hok Hdec Hkey Hm.
  rewrite Hdec, Hkey in *. destruct (exists_ db (Sprintf id)); [done|].
  pose proof (writeWAL_memory (walFault io) db OperationInsert (Sprintf id) (Some doc))
    as (_ & _ & Hp & _ & Hf).
  destruct (writeWAL (walFault io) db OperationInsert (Sprintf id) (Some doc))
    as [db1 [err|]]; [done|].
  cbn [fst snd] in *. unfold writeToDataFile. rewrite Hm, Hseek, Hfault.
  cbn [appendRecord fst dataFile primaryKey]. by rewrite Hp, Hf.
Qed.

Lemma Update_dataFile io db id updates oldDoc body :
  dataSeekFails io = false -> dataFault io = NoFault ->
  (Update io db id updates).2 = None ->
  data db !! id = Some oldDoc ->
  marshalData id (updates ∪ oldDoc) = Some body ->
  dataFile (Update io db id updates).1 = dataFile db ++ frame body /\
  primaryKey (Update io db id updates).1 = primaryKey db.
Proof.
  intros Hseek Hfault. unfold Update. intros Hok Hold Hm. rewrite Hold in *.
  match goal with |- context [writeWAL ?f ?d ?o ?i ?c] =>
    pose proof (writeWAL_memory f d o i c) as (_ & _ & Hp & _ & Hf);
    destruct (writeWAL f d o i c) as [db1 [err|]]; [done|]
  end.
  cbn [fst snd] in *. unfold writeToDataFile. rewrite Hm, Hseek, Hfault.
  cbn [appendRecord fst dataFile primaryKey]. by rewrite Hp, Hf.
Qed.

(** X20: a database that a restart gives back unchanged in its store stays
    so through every [Insert] and [Update] that returns no error, as long
    as the append to the data file goes through and the codec reads back
    the record it wrote: what these operations acknowledge is found again
    after [Close] and [NewDatabase]. *)
Theorem restart_keeps_acknowledged_writes (io : IO) (db : Database) :
  dataSeekFails io = false -> dataFault io = NoFault ->
  restartKeepsStore db ->
  (forall docData doc id,
     decodeArg docData = inl doc -> doc !! primaryKey db = Some id ->
     (Insert io db docData).2 = None ->
     dataRecordReadsBack (Sprintf id) doc ->
     restartKeepsStore (Insert io db docData).1) /\
  (forall id updates oldDoc,
     Get db id = Some oldDoc ->
     (Update io db id updates).2 = None ->
     dataRecordReadsBack id (updates ∪ oldDoc) ->
     restartKeepsStore (Update io db id updates).1).
Proof.
  intros Hseek Hfault Hkeeps. split.
  - intros docData doc id Hdec Hkey Hok Hback.
    destruct (Insert_inv io db docData Hok) as (doc' & id' & Hdec' & Hkey' & _ & Hdata & _).
    assert (doc' = doc) as -> by congruence. assert (id' = id) as -> by congruence.
    apply (restartKeepsStore_append db _ (Sprintf id) doc Hkeeps Hback); [| |done].
    + by destruct Hback as (body & Hm & _);
        destruct (Insert_dataFile io db docData doc id body Hseek Hfault Hok Hdec Hkey Hm).
    + intros body Hm.
      by destruct (Insert_dataFile io db docData doc id body Hseek Hfault Hok Hdec Hkey Hm).
  - intros id updates oldDoc Hold Hok Hback. unfold Get in Hold.
    destruct (Update_stored io db id updates oldDoc Hold) as [Hdata _].
    apply (restartKeepsStore_append db _ id (updates ∪ oldDoc) Hkeeps Hback); [| |done].
    + by destruct Hback as (body & Hm & _);
        destruct (Update_dataFile io db id updates oldDoc body Hseek Hfault Hok Hold Hm).
    + intros body Hm.
      by destruct (Update_dataFile io db id updates oldDoc body Hseek Hfault Hok Hold Hm).
Qed.

(** X21: the database [NewDatabase] returns has no index and an empty WAL,
    whatever the directory held, and closing and opening it again gives the
    same database: indexes are not kept across a restart, and the WAL left
    on disk is never read. *)
Theorem NewDatabase_restart_fixpoint (pk : string) (disk : Disk) (db : Database) :
  NewDatabase pk disk = inl db ->
  indexes db = ∅ /\ walFile db = [] /\ reopen db = inl db.
Proof.
  unfold NewDatabase, loadData. cbn [dataFile].
  match goal with |- context [loadLoop ?n ?d ?f] =>
    pose proof (loadLoop_keeps n d f) as (Hw & Hp & Hf & Hi);
    destruct (loadLoop n d f) as [dbL [err|]] eqn:Hrun; [done|]
  end.
  cbn [fst walFile primaryKey dataFile indexes] in *.
  rewrite recoverFromWAL_empty by done. intros [= <-].
  split; [by apply Hi|]. split; [done|].
  rewrite reopen_load, Hp, Hf, Hrun. done.
Qed.

End RestartFacts.

(** ** Replay of the WAL *)

Section ReplayFacts.
Context `{GoLib}.

Lemma recoverLoop_app fuel : forall db file db',
  (length file < fuel)%nat ->
  recoverLoop fuel db file = (db', None) ->
  forall db2 tail fuel2,
    data db2 = data db ->
    (length (file ++ tail) < fuel2)%nat ->
    exists db2' fuel2', (length tail < fuel2')%nat /\ data db2' = data db' /\
      recoverLoop fuel2 db2 (file ++ tail) = recoverLoop fuel2' db2' tail.
Proof.
  induction fuel as [|fuel IH]; intros db file db' Hfuel; [lia|].
  cbn [recoverLoop]. destruct (readRecord file) as [| | |body rest] eqn:Hread; try done.
  - intros [= <-]. intros db2 tail fuel2 Hdata Hfuel2.
    destruct file; [|by destruct file as [|? [|? [|? ?]]]; cbn in Hread;
                       try destruct (_ <=? _)%nat].
    exists db2, fuel2. done.
  - destruct (unmarshalWAL body) as [[[Operation ID] Document]|] eqn:Hdec; [|done].
    intros Hrun db2 tail fuel2 Hdata Hfuel2.
    destruct (readRecord_app file body rest tail Hread) as [Hread2 Hlen].
    destruct fuel2 as [|fuel2]; [lia|]. cbn [recoverLoop]. rewrite Hread2, Hdec.
    eapply (IH _ rest db'); [lia|exact Hrun|by cbn [data]; rewrite Hdata|].
    rewrite length_app in *. lia.
Qed.

Lemma writeWAL_ok_file fault db operation id doc :
  (writeWAL fault db operation id doc).2 = None ->
  exists body, marshalWAL operation id doc = Some body /\
               walFile (writeWAL fault db operation id doc).1 = walFile db ++ frame body.
Proof.
  unfold writeWAL. destruct (marshalWAL operation id doc) as [body|]; [|done].
  destruct fault; cbn; [|done..]. eauto.
Qed.

Lemma writeToDataFile_walFile io db id doc :
  walFile (writeToDataFile io db id doc).1 = walFile db.
Proof.
  unfold writeToDataFile. destruct (marshalData id doc); [|done].
  destruct (dataSeekFails io); [done|]. by destruct (appendRecord _ _ _).
Qed.

(** One more entry at the end of a WAL that rebuilds the store. *)
Lemma walRebuildsStore_append base db db1 operation id doc :
  walRebuildsStore base db ->
  walRecordReadsBack operation id doc ->
  (forall body, marshalWAL operation id doc = Some body ->
                walFile db1 = walFile db ++ frame body) ->
  (forall d, (forall x, doc = Some x -> d = x) ->
     data db1 =
       if String.eqb operation OperationInsert || String.eqb operation OperationUpdate
       then <[id := d]> (data db)
       else if String.eqb operation OperationDelete then delete id (data db)
       else data db) ->
  walRebuildsStore base db1.
Proof.
  intros [Hok Hdata] (body & d & Hm & Hfit & Hdec & Hd) Hfile Hstore.
  unfold walRebuildsStore, replayWAL, recoverFromWAL in *. cbn [walFile] in *.
  rewrite (Hfile body Hm).
  match type of Hok with context [recoverLoop ?n ?d0 ?f] =>
    destruct (recoverLoop n d0 f) as [dbL [err|]] eqn:Hrun; [done|];
    match goal with |- context [recoverLoop ?n2 ?d2 (f ++ ?tail)] =>
      destruct (recoverLoop_app n d0 f dbL ltac:(lia) Hrun d2 tail n2 eq_refl ltac:(lia))
        as (db2 & fuel2 & Hfuel2 & Hdata2 & ->)
    end
  end.
  cbn [fst] in Hdata.
  pose proof (frame_length body) as Hlen.
  destruct fuel2 as [|fuel2]; [lia|]. cbn [recoverLoop].
  rewrite <- (app_nil_r (frame body)), readRecord_frame, Hdec by done.
  destruct fuel2 as [|fuel2]; [lia|]. cbn [recoverLoop readRecord fst snd data].
  split; [done|]. rewrite (Hstore d Hd), Hdata2, Hdata. done.
Qed.

(** X22: a WAL whose replay by [recoverFromWAL] over a store [base] gives
    the current store keeps this property through every [Insert], [Update]
    and [Delete] that returns no error, when the codec reads back the entry
    it wrote: the WAL of a session, replayed over the store the session
    started from, rebuilds the store. *)
Theorem WAL_replay_rebuilds_store (io : IO) (base : gmap string DocumentData)
    (db : Database) :
  walRebuildsStore base db ->
  (forall docData doc id,
     decodeArg docData = inl doc -> doc !! primaryKey db = Some id ->
     (Insert io db docData).2 = None ->
     walRecordReadsBack OperationInsert (Sprintf id) (Some doc) ->
     walRebuildsStore base (Insert io db docData).1) /\
  (forall id updates oldDoc,
     Get db id = Some oldDoc ->
     (Update io db id updates).2 = None ->
     walRecordReadsBack OperationUpdate id (Some (updates ∪ oldDoc)) ->
     walRebuildsStore base (Update io db id updates).1) /\
  (forall id doc,
     Get db id = Some doc ->
     (Delete io db id).2 = None ->
     walRecordReadsBack OperationDelete id None ->
     walRebuildsStore base (Delete io db id).1).
Proof.
  intros Hwal. split; [|split].
  - intros docData doc id Hdec Hkey Hok Hback.
    destruct (Insert_inv io db docData Hok) as (doc' & id' & Hdec' & Hkey' & _ & Hdata & _).
    assert (doc' = doc) as -> by congruence. assert (id' = id) as -> by congruence.
    apply (walRebuildsStore_append base db _ _ _ _ Hwal Hback).
    + intros body Hm. revert Hok. unfold Insert. rewrite Hdec, Hkey.
      destruct (exists_ db (Sprintf id)); [done|].
      pose proof (writeWAL_ok_file (walFault io) db OperationInsert (Sprintf id) (Some doc)) as Hw.
      destruct (writeWAL (walFault io) db OperationInsert (Sprintf id) (Some doc))
        as [db1 [err|]]; [done|].
      destruct Hw as (body' & Hm' & Hfile); [done|]. intros _.
      cbn [fst] in *. rewrite writeToDataFile_walFile. cbn [walFile].
      congruence.
    + intros d Hd. rewrite (Hd doc eq_refl). done.
  - intros id updates oldDoc Hold Hok Hback. unfold Get in Hold.
    destruct (Update_stored io db id updates oldDoc Hold) as [Hdata _].
    apply (walRebuildsStore_append base db _ _ _ _ Hwal Hback).
    + intros body Hm. revert Hok. unfold Update. rewrite Hold.
      match goal with |- context [writeWAL ?f ?d ?o ?i ?c] =>
        pose proof (writeWAL_ok_file f d o i c) as Hw;
        destruct (writeWAL f d o i c) as [db1 [err|]]; [done|]
      end.
      destruct Hw as (body' & Hm' & Hfile); [done|]. intros _.
      cbn [fst] in *. rewrite writeToDataFile_walFile. cbn [walFile] in *.
      congruence.
    + intros d Hd. rewrite (Hd _ eq_refl). done.
  - intros id doc Hdoc Hok Hback. unfold Get in Hdoc.
    pose proof (Delete_stored io db id doc Hdoc) as Hdata.
    apply (walRebuildsStore_append base db _ _ _ _ Hwal Hback).
    + intros body Hm. revert Hok. unfold Delete. rewrite Hdoc.
      match goal with |- context [writeWAL ?f ?d ?o ?i ?c] =>
        pose proof (writeWAL_ok_file f d o i c) as Hw;
        destruct (writeWAL f d o i c) as [db1 [err|]]; [done|]
      end.
      destruct Hw as (body' & Hm' & Hfile); [done|]. intros _.
      cbn [fst walFile] in *. congruence.
    + intros d Hd. done.
Qed.

End ReplayFacts.

(** ** Primary keys *)

Section KeyFacts.
Context `{GoLib}.

Lemma Insert_primaryKey io db docData :
  primaryKey (Insert io db docData).1 = primaryKey db.
Proof.
  unfold Insert. destruct (decodeArg docData) as [doc|]; [|done].
  destruct (doc !! primaryKey db) as [id|]; [|done].
  destruct (exists_ db (Sprintf id)); [done|].
  pose proof (writeWAL_memory (walFault io) db OperationInsert (Sprintf id) (Some doc))
    as (_ & _ & Hp & _).
  destruct (writeWAL (walFault io) db OperationInsert (Sprintf id) (Some doc))
    as [db1 [err|]]; [done|].
  cbn [fst] in *. unfold writeToDataFile. destruct (marshalData _ _); [|done].
  destruct (dataSeekFails io); [done|]. by destruct (appendRecord _ _ _).
Qed.

Lemma Update_primaryKey io db id updates :
  primaryKey (Update io db id updates).1 = primaryKey db.
Proof.
  unfold Update. destruct (data db !! id) as [oldDoc|]; [|done].
  match goal with |- context [writeWAL ?f ?d ?o ?i ?c] =>
    pose proof (writeWAL_memory f d o i c) as (_ & _ & Hp & _);
    destruct (writeWAL f d o i c) as [db1 [err|]]; [done|]
  end.
  cbn [fst] in *. unfold writeToDataFile. destruct (marshalData _ _); [|done].
  destruct (dataSeekFails io); [done|]. by destruct (appendRecord _ _ _).
Qed.

Lemma Delete_primaryKey io db id :
  primaryKey (Delete io db id).1 = primaryKey db.
Proof.
  unfold Delete. destruct (data db !! id) as [doc|]; [|done].
  match goal with |- context [writeWAL ?f ?d ?o ?i ?c] =>
    pose proof (writeWAL_memory f d o i c) as (_ & _ & Hp & _);
    destruct (writeWAL f d o i c) as [db1 [err|]]; done
  end.
Qed.

(** X23: the primary key of a document is the text [%v] prints for the field,
    so two documents whose key fields print alike are one key.  After an
    [Insert] that returned no error, an [Insert] of any document whose key
    field prints the same text returns [ErrAlreadyExists] and changes nothing,
    whatever the dynamic types of the two fields. *)
Theorem Insert_same_key_text_rejected (io io' : IO) (db : Database)
    (first second : InsertArg) (doc doc' : DocumentData) (key key' : Value) :
  decodeArg first = inl doc -> doc !! primaryKey db = Some key ->
  decodeArg second = inl doc' -> doc' !! primaryKey db = Some key' ->
  Sprintf key' = Sprintf key ->
  (Insert io db first).2 = None ->
  Insert io' (Insert io db first).1 second = ((Insert io db first).1, Some ErrAlreadyExists).
Proof.
  intros Hdec Hkey Hdec' Hkey' Htext Hok.
  destruct (Insert_inv io db first Hok) as (d & k & Hd & Hk & _ & Hdata & _).
  assert (d = doc) as -> by congruence. assert (k = key) as -> by congruence.
  pose proof (Insert_primaryKey io db first) as Hpk.
  unfold Insert at 1. rewrite Hdec', Hpk, Hkey'. unfold exists_, Get.
  by rewrite Hdata, Htext, lookup_insert_eq.
Qed.

(** X24: that every document is stored under the text of its primary-key
    field is kept by every [Insert] and every [Delete], whatever they
    return, and by every [Update] whose updates do not hold the primary-key
    field. *)
Theorem documents_stored_under_key (io : IO) (db : Database) :
  storedUnderKey db ->
  (forall docData, storedUnderKey (Insert io db docData).1) /\
  (forall id, storedUnderKey (Delete io db id).1) /\
  (forall id updates, updates !! primaryKey db = None ->
     storedUnderKey (Update io db id updates).1).
Proof.
  intros Hkeyed. split; [|split].
  - intros docData. unfold storedUnderKey. rewrite Insert_primaryKey.
    destruct ((Insert io db docData).2) as [err|] eqn:Hres.
    + by destruct (Insert_error_sameMemory io db docData err Hres) as (-> & _).
    + destruct (Insert_inv io db docData Hres) as (d & k & _ & Hk & _ & -> & _).
      intros id doc [[<- <-]|[_ Hdoc]]%lookup_insert_Some; eauto.
  - intros id. unfold storedUnderKey. rewrite Delete_primaryKey.
    destruct (data db !! id) as [d|] eqn:Hd.
    + rewrite (Delete_stored io db id d Hd).
      intros x doc [_ Hdoc]%lookup_delete_Some. eauto.
    + unfold Delete. rewrite Hd. exact Hkeyed.
  - intros id updates Hfree. unfold storedUnderKey. rewrite Update_primaryKey.
    destruct (data db !! id) as [oldDoc|] eqn:Hold.
    + destruct (Update_stored io db id updates oldDoc Hold) as [-> _].
      intros x doc [[<- <-]|[_ Hdoc]]%lookup_insert_Some; [|eauto].
      destruct (Hkeyed id oldDoc Hold) as (key & Hkey & Htext).
      exists key. split; [|done]. by rewrite lookup_union_r.
    + unfold Update. rewrite Hold. exact Hkeyed.
Qed.

End KeyFacts.

(** ** Indexes under Update and Delete *)

Section IndexUpkeep.
Context `{GoLib}.

(** An [Update] and a [Delete] that return no error: what they leave in the
    registry. *)
Lemma Update_inv io db id updates oldDoc :
  data db !! id = Some oldDoc ->
  (Update io db id updates).2 = None ->
  indexes (Update io db id updates).1 = updateAll id oldDoc (updates ∪ oldDoc) <$> indexes db.
Proof.
  intros Hold. unfold Update. rewrite Hold.
  match goal with |- context [writeWAL ?f ?d ?o ?i ?c] =>
    pose proof (writeWAL_memory f d o i c) as (_ & Hi & _);
    destruct (writeWAL f d o i c) as [db1 [err|]]; [done|]
  end.
  intros _. cbn [fst snd] in *.
  match goal with |- context [writeToDataFile io ?d ?i ?c] =>
    destruct (writeToDataFile_sameMemory io d i c) as (_ & -> & _)
  end.
  cbn [indexes]. by rewrite Hi.
Qed.

Lemma Delete_inv io db id doc :
  data db !! id = Some doc ->
  (Delete io db id).2 = None ->
  indexes (Delete io db id).1 = removeAll id doc <$> indexes db.
Proof.
  intros Hdoc. unfold Delete. rewrite Hdoc.
  match goal with |- context [writeWAL ?f ?d ?o ?i ?c] =>
    pose proof (writeWAL_memory f d o i c) as (_ & Hi & _);
    destruct (writeWAL f d o i c) as [db1 [err|]]; [done|]
  end.
  intros _. cbn [fst snd indexes] in *. by rewrite Hi.
Qed.

Lemma compositeCovers_removeFromCompositeIndex m idx id doc :
  m !! id = Some doc -> compositeCovers m idx ->
  compositeCovers (delete id m) (removeFromCompositeIndex id doc idx).
Proof.
  intros Hdoc Hcov key x. unfold removeFromCompositeIndex, compositeDeleteID.
  cbn [compositeValues fields].
  change (removeCompositeKey doc idx) with (compositeKeyOf doc (fields idx)).
  set (k := compositeKeyOf doc (fields idx)).
  assert (forall ids, compositeValues idx !! key = Some ids -> x ∈ ids -> x = id -> key = k)
    as Hown.
  { intros ids Hids Hx ->. destruct (proj1 (Hcov key id)) as (d & Hd & ->); [eauto|].
    assert (d = doc) as -> by congruence. done. }
  setoid_rewrite lookup_delete_Some. split.
  - intros (ids & Hids & Hx).
    destruct (compositeValues idx !! k) as [ids0|] eqn:Hk.
    + destruct (decide (key = k)) as [->|Hne].
      * rewrite lookup_insert_eq in Hids. injection Hids as <-.
        apply elem_of_difference in Hx as [Hx Hnid]. rewrite elem_of_singleton in Hnid.
        destruct (proj1 (Hcov k x)) as (d & Hd & Hkey); [eauto|]. eauto.
      * rewrite lookup_insert_ne in Hids by done.
        destruct (proj1 (Hcov key x)) as (d & Hd & Hkey); [eauto|].
        exists d. split; [|done]. split; [|done]. intros <-. eauto.
    + destruct (proj1 (Hcov key x)) as (d & Hd & Hkey); [eauto|].
      exists d. split; [|done]. split; [|done]. intros <-.
      rewrite (Hown ids Hids Hx eq_refl) in Hids. congruence.
  - intros (d & [Hne Hd] & Hkey).
    destruct (proj2 (Hcov key x)) as (ids & Hids & Hx); [eauto|].
    destruct (compositeValues idx !! k) as [ids0|] eqn:Hk; [|eauto].
    destruct (decide (key = k)) as [Heq|Hnk].
    + rewrite Heq in *. rewrite lookup_insert_eq. eexists. split; [done|].
      assert (ids0 = ids) as -> by congruence.
      apply elem_of_difference. split; [done|]. rewrite elem_of_singleton. congruence.
    + rewrite lookup_insert_ne by done. eauto.
Qed.

Lemma updateCompositeKey_present doc idx :
  (forall f, f ∈ fields idx -> is_Some (doc !! f)) ->
  updateCompositeKey doc idx = compositeKeyOf doc (fields idx).
Proof.
  intros Hall. unfold updateCompositeKey, compositeKeyOf, indexCompositeKey.
  cbn [fields]. f_equal. apply map_ext_in. intros f Hf%list_elem_of_In.
  unfold fieldOrNil. by destruct (Hall f Hf) as [v ->].
Qed.

Lemma compositeCovers_updateCompositeIndex m idx id oldDoc newDoc :
  m !! id = Some oldDoc ->
  (forall f, f ∈ fields idx -> is_Some (oldDoc !! f)) ->
  (forall f, f ∈ fields idx -> is_Some (newDoc !! f)) ->
  compositeCovers m idx ->
  compositeCovers (<[id := newDoc]> m) (updateCompositeIndex id oldDoc newDoc idx).
Proof.
  intros Hold Hallold Hallnew Hcov. unfold updateCompositeIndex. cbv zeta.
  rewrite !updateCompositeKey_present by done.
  destruct (String.eqb_spec (compositeKeyOf oldDoc (fields idx))
                            (compositeKeyOf newDoc (fields idx))) as [Heq|Hne];
    cbn [negb].
  - intros key x. rewrite (Hcov key x). split.
    + intros (d & Hd & Hkey). destruct (decide (x = id)) as [->|Hx].
      * exists newDoc. rewrite lookup_insert_eq. split; [done|]. congruence.
      * exists d. by rewrite lookup_insert_ne.
    + intros (d & Hd & Hkey). destruct (decide (x = id)) as [->|Hx].
      * rewrite lookup_insert_eq in Hd. injection Hd as <-. exists oldDoc.
        split; [done|]. congruence.
      * rewrite lookup_insert_ne in Hd by done. eauto.
  - rewrite <- (insert_delete_eq m).
    pose proof (compositeCovers_removeFromCompositeIndex m idx id oldDoc Hold Hcov) as Hrem.
    pose proof (compositeCovers_indexDocumentComposite (delete id m) _ id newDoc
                  (lookup_delete_eq m id) Hrem) as Hadd.
    exact Hadd.
Qed.

(** X25: [CreateCompositeIndex] under a free registry key builds a composite
    index that files every stored document under its key.  Such an index
    keeps doing so through every [Insert], through every [Delete] that
    returns no error, and through every [Update] that returns no error on a
    document that has all the fields of the index; and [QueryComposite] on
    such an index returns exactly the stored documents whose key is the text
    of the query values joined by [-]. *)
Theorem composite_index_stays_exact (io : IO) (db : Database) (fs : list string) :
  (indexes db !! stringsJoin fs "-" = None ->
   compositeCovered (CreateCompositeIndex db fs) fs) /\
  (compositeCovered db fs ->
   (forall docData, compositeCovered (Insert io db docData).1 fs) /\
   (forall id, (Delete io db id).2 = None -> compositeCovered (Delete io db id).1 fs) /\
   (forall id updates oldDoc,
      Get db id = Some oldDoc ->
      (forall f, f ∈ fs -> is_Some (oldDoc !! f)) ->
      (Update io db id updates).2 = None ->
      compositeCovered (Update io db id updates).1 fs) /\
   (forall vals doc,
      doc ∈ QueryComposite db fs vals <->
      exists id, Get db id = Some doc /\
                 compositeKeyOf doc fs = stringsJoin (map Sprintf vals) "-")).
Proof.
  split; [apply compositeCovered_CreateCompositeIndex|].
  intros Hcovered. split; [|split; [|split]].
  - intros docData. by apply compositeCovered_Insert.
  - intros id Hok. destruct Hcovered as (idx & Hidx & Hf & Hcov). unfold compositeCovered.
    destruct (data db !! id) as [doc|] eqn:Hdoc.
    + rewrite (Delete_inv io db id doc Hdoc Hok), (Delete_stored io db id doc Hdoc).
      rewrite lookup_fmap, Hidx. cbn. eexists. split; [done|]. split; [done|].
      by apply compositeCovers_removeFromCompositeIndex.
    + unfold Delete. rewrite Hdoc. cbn. eauto.
  - intros id updates oldDoc Hold Hall Hok. unfold Get in Hold.
    destruct Hcovered as (idx & Hidx & Hf & Hcov). unfold compositeCovered.
    rewrite (Update_inv io db id updates oldDoc Hold Hok).
    destruct (Update_stored io db id updates oldDoc Hold) as [-> _].
    rewrite lookup_fmap, Hidx. cbn [fmap option_fmap option_map updateAll].
    eexists. split; [done|].
    split; [unfold updateCompositeIndex; cbv zeta; by destruct (negb _)|].
    subst fs. apply compositeCovers_updateCompositeIndex; [done..| |done].
    intros f Hin. destruct (Hall f Hin) as [v Hv].
    destruct (updates !! f) as [u|] eqn:Hu.
    + exists u. by apply lookup_union_Some_l.
    + exists v. by rewrite lookup_union_r.
  - intros vals doc. destruct Hcovered as (idx & Hidx & Hf & Hcov).
    unfold compositeCovers in Hcov. subst fs.
    unfold QueryComposite, Get. cbv zeta. rewrite Hidx.
    set (key := stringsJoin (map Sprintf vals) "-"). split.
    + destruct (compositeValues idx !! key) as [ids|] eqn:Hids;
        [|by intros ?%elem_of_nil].
      intros (id & Hid & Hdoc)%elem_of_resolveIDs.
      destruct (proj1 (Hcov key id)) as (d & Hd & Hkey); [eauto|].
      assert (d = doc) as -> by congruence. eauto.
    + intros (id & Hdoc & Hkey).
      destruct (proj2 (Hcov key id)) as (ids & Hids & Hid); [eauto|].
      rewrite Hids. apply elem_of_resolveIDs. eauto.
Qed.

End IndexUpkeep.

(** ** A single-field index on a string field *)

Lemma ifaceEq_VString_r k s :
  ifaceEq k (VString s) = true <-> k = VString s.
Proof.
  destruct k; cbn; try (split; [discriminate|discriminate]).
  rewrite String.eqb_eq. split; [by intros ->|by intros [= ->]].
Qed.

Lemma valuesLoad_valuesStoreID s s' id vs :
  valuesLoad (VString s') (valuesStoreID (VString s) id vs) =
    if decide (s' = s)
    then Some ({[id]} ∪ default ∅ (valuesLoad (VString s) vs))
    else valuesLoad (VString s') vs.
Proof.
  induction vs as [|[k1 ids1] vs IH]; cbn [valuesStoreID valuesLoad].
  - destruct (decide (s' = s)) as [->|Hne].
    + cbn. rewrite String.eqb_refl. by rewrite (right_id_L ∅ (∪)).
    + cbn. destruct (String.eqb_spec s s'); [congruence|done].
  - destruct (ifaceEq k1 (VString s)) eqn:Hk.
    + apply ifaceEq_VString_r in Hk as ->. cbn [valuesLoad ifaceEq].
      destruct (decide (s' = s)) as [->|Hne].
      * by rewrite String.eqb_refl.
      * destruct (String.eqb_spec s s'); [congruence|done].
    + cbn [valuesLoad]. destruct (ifaceEq k1 (VString s')) eqn:Hk'.
      * apply ifaceEq_VString_r in Hk' as ->. cbn in Hk.
        destruct (decide (s' = s)) as [->|Hne]; [by rewrite String.eqb_refl in Hk|done].
      * exact IH.
Qed.

Lemma valuesLoad_valuesDeleteID s s' id vs :
  valuesLoad (VString s') (valuesDeleteID (VString s) id vs) =
    if decide (s' = s)
    then (fun ids => ids ∖ {[id]}) <$> valuesLoad (VString s) vs
    else valuesLoad (VString s') vs.
Proof.
  induction vs as [|[k1 ids1] vs IH]; cbn [valuesDeleteID valuesLoad].
  - by destruct (decide (s' = s)).
  - destruct (ifaceEq k1 (VString s)) eqn:Hk.
    + apply ifaceEq_VString_r in Hk as ->. cbn [valuesLoad ifaceEq].
      destruct (decide (s' = s)) as [->|Hne].
      * by rewrite String.eqb_refl.
      * destruct (String.eqb_spec s s'); [congruence|done].
    + cbn [valuesLoad]. destruct (ifaceEq k1 (VString s')) eqn:Hk'.
      * apply ifaceEq_VString_r in Hk' as ->. cbn in Hk.
        destruct (decide (s' = s)) as [->|Hne]; [by rewrite String.eqb_refl in Hk|done].
      * exact IH.
Qed.

Lemma keys_valuesDeleteID k id vs : (valuesDeleteID k id vs).*1 = vs.*1.
Proof.
  induction vs as [|[k1 ids1] vs IH]; [done|]. cbn [valuesDeleteID].
  destruct (ifaceEq k1 k); [done|]. cbn. by rewrite IH.
Qed.

Lemma keys_valuesStoreID s id vs :
  NoDup vs.*1 ->
  NoDup (valuesStoreID (VString s) id vs).*1 /\
  forall k, k ∈ (valuesStoreID (VString s) id vs).*1 -> k = VString s \/ k ∈ vs.*1.
Proof.
  induction vs as [|[k1 ids1] vs IH]; cbn [valuesStoreID]; intros Hnd.
  - split; [apply NoDup_singleton|]. intros k ->%list_elem_of_singleton. by left.
  - apply NoDup_cons in Hnd as [Hk1 Hnd]. destruct (ifaceEq k1 (VString s)) eqn:Hk.
    + split; [by apply NoDup_cons|]. intros k Hin. by right.
    + destruct (IH Hnd) as [Hnd' Hkeys]. cbn. split.
      * apply NoDup_cons. split; [|done]. intros Hin.
        destruct (Hkeys k1 Hin) as [->|?]; [|done].
        cbn in Hk. by rewrite String.eqb_refl in Hk.
      * intros k [->|Hin]%elem_of_cons; [right; left|].
        destruct (Hkeys k Hin) as [?|?]; [by left|right; by right].
Qed.

Lemma valuesDeleteID_VNil_text id vs :
  (forall k, k ∈ vs.*1 -> exists s, k = VString s) ->
  valuesDeleteID VNil id vs = vs.
Proof.
  induction vs as [|[k1 ids1] vs IH]; [done|]. intros Hkeys. cbn [valuesDeleteID].
  destruct (Hkeys k1) as [s ->]; [left|]. cbn. rewrite IH; [done|].
  intros k Hk. apply Hkeys. by right.
Qed.

Lemma valuesLoad_elem vs :
  NoDup vs.*1 -> (forall k, k ∈ vs.*1 -> exists s, k = VString s) ->
  forall k ids, (k, ids) ∈ vs <-> (exists s, k = VString s) /\ valuesLoad k vs = Some ids.
Proof.
  induction vs as [|[k1 ids1] vs IH]; intros Hnd Hkeys k ids.
  - cbn. split; [by intros ?%elem_of_nil|by intros [_ ?]].
  - apply NoDup_cons in Hnd as [Hk1 Hnd].
    assert (forall k, k ∈ vs.*1 -> exists s, k = VString s) as Hkeys'.
    { intros k' Hk'. apply Hkeys. by right. }
    destruct (Hkeys k1) as [s1 ->]; [left|]. cbn [valuesLoad]. split.
    + intros [[= -> ->]|Hin]%elem_of_cons.
      * split; [eauto|]. cbn. by rewrite String.eqb_refl.
      * apply (IH Hnd Hkeys') in Hin as [[s ->] Hload]. split; [eauto|].
        destruct (ifaceEq (VString s1) (VString s)) eqn:Heq; [|done].
        apply ifaceEq_VString_r in Heq as [= ->]. exfalso. apply Hk1.
        apply list_elem_of_fmap. exists (VString s, ids). split; [done|].
        apply (IH Hnd Hkeys'). eauto.
    + intros [[s ->] Hload].
      destruct (ifaceEq (VString s1) (VString s)) eqn:Heq.
      * apply ifaceEq_VString_r in Heq as [= ->]. injection Hload as ->. left.
      * right. apply (IH Hnd Hkeys'). eauto.
Qed.

Section TextIndex.
Context `{GoLib}.

Lemma default_Some {A : Type} (d x : A) : default d (Some x) = x.
Proof. reflexivity. Qed.

Lemma textCovers_add m idx idx' id d s :
  m !! id = None ->
  d !! field idx = Some (VString s) ->
  field idx' = field idx ->
  values idx' = valuesStoreID (VString s) id (values idx) ->
  textCovers m idx -> textCovers (<[id := d]> m) idx'.
Proof.
  intros Hfree Hd Hfield Hvalues (Hnd & Hkeys & Hcov). unfold textCovers.
  rewrite Hfield, Hvalues.
  destruct (keys_valuesStoreID s id (values idx) Hnd) as [Hnd' Hkeys'].
  split; [done|]. split.
  { intros k Hk. destruct (Hkeys' k Hk) as [->|?]; eauto. }
  intros s' x. rewrite valuesLoad_valuesStoreID.
  destruct (decide (s' = s)) as [->|Hne].
  - rewrite default_Some, elem_of_union, elem_of_singleton, Hcov. split.
    + intros [->|(d0 & Hd0 & Hv)].
      * exists d. by rewrite lookup_insert_eq.
      * exists d0. rewrite lookup_insert_ne; [done|]. intros <-. congruence.
    + intros (d0 & Hd0 & Hv). destruct (decide (x = id)) as [->|Hx]; [by left|].
      right. rewrite lookup_insert_ne in Hd0 by done. eauto.
  - rewrite Hcov. split.
    + intros (d0 & Hd0 & Hv). exists d0. rewrite lookup_insert_ne; [done|].
      intros <-. congruence.
    + intros (d0 & Hd0 & Hv). destruct (decide (x = id)) as [->|Hx].
      * rewrite lookup_insert_eq in Hd0. injection Hd0 as <-. congruence.
      * rewrite lookup_insert_ne in Hd0 by done. eauto.
Qed.

Lemma textCovers_add_nofield m idx id d :
  m !! id = None ->
  d !! field idx = None ->
  textCovers m idx -> textCovers (<[id := d]> m) idx.
Proof.
  intros Hfree Hd (Hnd & Hkeys & Hcov). split; [done|]. split; [done|].
  intros s x. rewrite Hcov. split.
  - intros (d0 & Hd0 & Hv). exists d0. rewrite lookup_insert_ne; [done|].
    intros <-. congruence.
  - intros (d0 & Hd0 & Hv). destruct (decide (x = id)) as [->|Hx].
    + rewrite lookup_insert_eq in Hd0. injection Hd0 as <-. congruence.
    + rewrite lookup_insert_ne in Hd0 by done. eauto.
Qed.

Lemma textCovers_remove m idx idx' id d s :
  m !! id = Some d ->
  d !! field idx = Some (VString s) ->
  field idx' = field idx ->
  values idx' = valuesDeleteID (VString s) id (values idx) ->
  textCovers m idx -> textCovers (delete id m) idx'.
Proof.
  intros Hdoc Hd Hfield Hvalues (Hnd & Hkeys & Hcov). unfold textCovers.
  rewrite Hfield, Hvalues, keys_valuesDeleteID.
  split; [done|]. split; [done|].
  intros s' x. rewrite valuesLoad_valuesDeleteID. setoid_rewrite lookup_delete_Some.
  destruct (decide (s' = s)) as [->|Hne].
  - specialize (Hcov s x). destruct (valuesLoad (VString s) (values idx)) as [ids|];
      cbn [fmap option_fmap option_map] in *.
    + rewrite default_Some in *. rewrite elem_of_difference, elem_of_singleton, Hcov. split.
      * intros [(d0 & Hd0 & Hv) Hx]. eauto.
      * intros (d0 & [Hx Hd0] & Hv). split; [eauto|congruence].
    + split; [by intros ?%not_elem_of_empty|].
      intros (d0 & [Hx Hd0] & Hv). apply Hcov. eauto.
  - rewrite Hcov. split.
    + intros (d0 & Hd0 & Hv). exists d0. split; [|done]. split; [|done].
      intros <-. congruence.
    + intros (d0 & [Hx Hd0] & Hv). eauto.
Qed.

Lemma textCovers_remove_nofield m idx id d :
  m !! id = Some d ->
  d !! field idx = None ->
  textCovers m idx -> textCovers (delete id m) idx.
Proof.
  intros Hdoc Hd (Hnd & Hkeys & Hcov). split; [done|]. split; [done|].
  intros s x. rewrite Hcov. setoid_rewrite lookup_delete_Some. split.
  - intros (d0 & Hd0 & Hv). exists d0. split; [|done]. split; [|done].
    intros <-. congruence.
  - intros (d0 & [Hx Hd0] & Hv). eauto.
Qed.

Lemma textCovers_replace m idx id oldDoc newDoc :
  m !! id = Some oldDoc ->
  newDoc !! field idx = oldDoc !! field idx ->
  textCovers m idx -> textCovers (<[id := newDoc]> m) idx.
Proof.
  intros Hold Hsame (Hnd & Hkeys & Hcov). split; [done|]. split; [done|].
  intros s x. rewrite Hcov. split.
  - intros (d0 & Hd0 & Hv). destruct (decide (x = id)) as [->|Hx].
    + exists newDoc. rewrite lookup_insert_eq. split; [done|]. congruence.
    + exists d0. by rewrite lookup_insert_ne.
  - intros (d0 & Hd0 & Hv). destruct (decide (x = id)) as [->|Hx].
    + rewrite lookup_insert_eq in Hd0. injection Hd0 as <-. exists oldDoc.
      split; [done|]. congruence.
    + rewrite lookup_insert_ne in Hd0 by done. eauto.
Qed.

Lemma indexValueOf_VString s : indexValueOf (VString s) = VString s.
Proof. reflexivity. Qed.

Lemma textCovers_indexDocument m idx id d :
  m !! id = None ->
  (forall v, d !! field idx = Some v -> exists s, v = VString s) ->
  textCovers m idx -> textCovers (<[id := d]> m) (indexDocument d id idx).
Proof.
  intros Hfree Htext Hcov.
  destruct (d !! field idx) as [v|] eqn:Hv.
  - destruct (Htext v eq_refl) as [s ->].
    apply (textCovers_add m idx _ id d s); [done..| | |done].
    + apply field_indexDocument.
    + by rewrite values_indexDocument, Hv.
  - unfold indexDocument. rewrite Hv. by apply textCovers_add_nofield.
Qed.

Lemma textCovers_removeFromIndex m idx id d :
  m !! id = Some d ->
  (forall v, d !! field idx = Some v -> exists s, v = VString s) ->
  textCovers m idx -> textCovers (delete id m) (removeFromIndex id d idx).
Proof.
  intros Hdoc Htext Hcov.
  destruct (d !! field idx) as [v|] eqn:Hv.
  - destruct (Htext v eq_refl) as [s ->].
    apply (textCovers_remove m idx _ id d s); [done..| | |done].
    + unfold removeFromIndex. by rewrite Hv.
    + by rewrite values_removeFromIndex, Hv.
  - unfold removeFromIndex. rewrite Hv. by eapply textCovers_remove_nofield.
Qed.

Lemma textCovers_updateIndex m idx id oldDoc updates :
  m !! id = Some oldDoc ->
  (forall v, oldDoc !! field idx = Some v -> exists s, v = VString s) ->
  (forall v, updates !! field idx = Some v -> exists s, v = VString s) ->
  textCovers m idx ->
  textCovers (<[id := updates ∪ oldDoc]> m) (updateIndex id oldDoc (updates ∪ oldDoc) idx).
Proof.
  intros Hold Htold Htnew Hcov.
  assert ((updates ∪ oldDoc) !! field idx =
          match updates !! field idx with
          | Some v => Some v
          | None => oldDoc !! field idx
          end) as Hnew.
  { destruct (updates !! field idx) as [v|] eqn:Hu.
    - by apply lookup_union_Some_l.
    - by rewrite lookup_union_r. }
  assert (forall v, (updates ∪ oldDoc) !! field idx = v ->
                    fieldOrNil (updates ∪ oldDoc) (field idx) = default VNil v) as Hfn.
  { by intros v <-. }
  assert (forall v, oldDoc !! field idx = v ->
                    fieldOrNil oldDoc (field idx) = default VNil v) as Hfo.
  { by intros v <-. }
  unfold updateIndex. cbv zeta.
  destruct (oldDoc !! field idx) as [vo|] eqn:Ho;
    [destruct (Htold vo eq_refl) as [so ->]|];
    (destruct (updates !! field idx) as [vn|] eqn:Hn;
      [destruct (Htnew vn eq_refl) as [sn ->]|]);
    rewrite (Hfo _ eq_refl), (Hfn _ Hnew), ?default_Some; cbn [ifaceEq].
  - destruct (String.eqb_spec so sn) as [->|Hne]; cbn [negb].
    + apply (textCovers_replace m idx id oldDoc); [done| |done]. by rewrite Hnew.
    + rewrite <- (insert_delete_eq m).
      eapply (textCovers_add (delete id m)
                {| field := field idx;
                   values := valuesDeleteID (VString so) id (values idx);
                   trie := trie idx |} _ id _ sn).
      * apply lookup_delete_eq.
      * cbn [field]. by rewrite Hnew.
      * reflexivity.
      * reflexivity.
      * by apply (textCovers_remove m idx _ id oldDoc so).
  - rewrite String.eqb_refl. cbn [negb].
    apply (textCovers_replace m idx id oldDoc); [done| |done]. by rewrite Hnew.
  - change (default VNil None) with VNil. cbn [ifaceEq negb].
    destruct Hcov as (Hnd & Hkeys & Hcov').
    rewrite valuesDeleteID_VNil_text by done.
    rewrite <- (insert_delete_eq m).
    eapply (textCovers_add (delete id m) idx _ id _ sn).
    + apply lookup_delete_eq.
    + by rewrite Hnew.
    + reflexivity.
    + reflexivity.
    + by apply (textCovers_remove_nofield m idx id oldDoc).
  - change (default VNil None) with VNil. cbn [ifaceEq negb].
    apply (textCovers_replace m idx id oldDoc); [done| |done]. by rewrite Hnew.
Qed.

Lemma textField_insert m f id d :
  textField m f -> (forall v, d !! f = Some v -> exists s, v = VString s) ->
  textField (<[id := d]> m) f.
Proof.
  intros Hm Hd x d0 v [[<- <-]|[_ Hx]]%lookup_insert_Some Hv; eauto.
Qed.

Lemma textField_delete m f id : textField m f -> textField (delete id m) f.
Proof. intros Hm x d0 v [_ Hx]%lookup_delete_Some Hv. eauto. Qed.

Lemma textCovered_CreateIndex db f :
  indexes db !! f = None -> textField (data db) f -> textCovered (CreateIndex db f) f.
Proof.
  intros Hfree Htext. unfold CreateIndex, textCovered. rewrite Hfree. cbn [indexes data].
  split; [done|]. rewrite lookup_insert_eq. eexists. split; [done|].
  revert Htext.
  apply (map_fold_weak_ind
           (fun idx m => textField m f -> field idx = f /\ textCovers m idx)).
  - intros _. split; [done|]. split; [apply NoDup_nil_2|].
    split; [by intros k ?%elem_of_nil|].
    intros s id. cbn. split; [by intros ?%not_elem_of_empty|].
    intros (d & Hd & _). by rewrite lookup_empty in Hd.
  - intros id d m idx Hnone IH Htext.
    destruct IH as [Hf Hcov].
    { intros x d0 v Hx. apply (Htext x d0 v). rewrite lookup_insert_ne; [done|].
      intros <-. congruence. }
    split; [by rewrite field_indexDocument|].
    apply textCovers_indexDocument; [done| |done].
    rewrite Hf. intros v. apply (Htext id d v). apply lookup_insert_eq.
Qed.

Lemma withinRange_strings s lo hi :
  withinRange (toComparableValue (VString s)) (toComparableValue (VString lo))
              (toComparableValue (VString hi))
  = Ok ((0 <=? stringsCompare s lo) && (stringsCompare s hi <=? 0)).
Proof.
  unfold withinRange, compareValues. cbn.
  by destruct (0 <=? stringsCompare s lo).
Qed.

(** X26: a single-field index on a field that holds strings.  [CreateIndex]
    on a store whose documents hold only strings in the field builds buckets
    that file every document under its string; this is kept by every
    [Insert] of a document with a string (or nothing) in the field, by every
    [Delete] that returns no error, and by every [Update] that returns no
    error and puts a string (or nothing) in the field; and on such an index
    [RangeQuery] with string bounds does not panic and returns exactly the
    stored documents whose string lies between the bounds in byte-wise
    order, both included. *)
Theorem text_index_stays_exact (io : IO) (db : Database) (f : string) :
  (indexes db !! f = None -> textField (data db) f -> textCovered (CreateIndex db f) f) /\
  (textCovered db f ->
   (forall docData,
      (forall doc v, decodeArg docData = inl doc -> doc !! f = Some v ->
                     exists s, v = VString s) ->
      textCovered (Insert io db docData).1 f) /\
   (forall id, (Delete io db id).2 = None -> textCovered (Delete io db id).1 f) /\
   (forall id updates,
      (forall v, updates !! f = Some v -> exists s, v = VString s) ->
      (Update io db id updates).2 = None ->
      textCovered (Update io db id updates).1 f) /\
   (forall lo hi, exists found,
      RangeQuery db f (VString lo) (VString hi) = Ok found /\
      forall doc, doc ∈ found <->
        exists id s, Get db id = Some doc /\ doc !! f = Some (VString s) /\
                     0 <= stringsCompare s lo /\ stringsCompare s hi <= 0)).
Proof.
  split; [apply textCovered_CreateIndex|].
  intros (Htext & idx & Hidx & Hf & Hcov). split; [|split; [|split]].
  - intros docData Hdoc. unfold textCovered.
    destruct ((Insert io db docData).2) as [err|] eqn:Hres.
    + destruct (Insert_error_sameMemory io db docData err Hres) as (-> & -> & _). eauto.
    + destruct (Insert_inv io db docData Hres) as (doc & id & Hdec & _ & Hfree & -> & ->).
      split; [apply textField_insert; eauto|].
      rewrite lookup_fmap, Hidx. cbn [fmap option_fmap option_map indexAll].
      eexists. split; [done|]. split; [by rewrite field_indexDocument|].
      apply textCovers_indexDocument; [done| |done]. rewrite Hf. eauto.
  - intros id Hok. unfold textCovered.
    destruct (data db !! id) as [doc|] eqn:Hdoc.
    + rewrite (Delete_inv io db id doc Hdoc Hok), (Delete_stored io db id doc Hdoc).
      split; [by apply textField_delete|].
      rewrite lookup_fmap, Hidx. cbn [fmap option_fmap option_map removeAll].
      eexists. split; [done|].
      split; [unfold removeFromIndex; by destruct (doc !! field idx)|].
      apply textCovers_removeFromIndex; [done| |done]. rewrite Hf. eauto.
    + unfold Delete. rewrite Hdoc. cbn. eauto.
  - intros id updates Hupd Hok. unfold textCovered.
    destruct (data db !! id) as [oldDoc|] eqn:Hold.
    2:{ revert Hok. unfold Update. by rewrite Hold. }
    rewrite (Update_inv io db id updates oldDoc Hold Hok).
    destruct (Update_stored io db id updates oldDoc Hold) as [-> _].
    split.
    { apply textField_insert; [done|]. intros v Hv.
      apply lookup_union_Some_raw in Hv as [Hv|[_ Hv]]; eauto. }
    rewrite lookup_fmap, Hidx. cbn [fmap option_fmap option_map updateAll].
    eexists. split; [done|].
    split; [unfold updateIndex; cbv zeta; by destruct (negb _)|].
    apply textCovers_updateIndex; [done| | |done]; rewrite Hf; eauto.
  - intros lo hi. destruct Hcov as (Hnd & Hkeys & Hcov).
    unfold RangeQuery. cbv zeta. rewrite Hidx.
    set (g := fun bucket : Value * gset string =>
                match bucket.1 with
                | VString s =>
                    if (0 <=? stringsCompare s lo) && (stringsCompare s hi <=? 0)
                    then resolveIDs db bucket.2 else []
                | _ => []
                end).
    exists (concat (map g (values idx))). split.
    + apply rangeCollect_Ok. intros [k ids] Hin.
      destruct (Hkeys k) as [s ->].
      { apply list_elem_of_fmap. by exists (k, ids). }
      unfold g. cbn [fst snd]. by rewrite withinRange_strings.
    + intros doc. rewrite elem_of_concat_map. unfold Get. split.
      * intros ([k ids] & Hin & Hdoc). unfold g in Hdoc. cbn [fst snd] in Hdoc.
        apply (valuesLoad_elem _ Hnd Hkeys) in Hin as [[s ->] Hload].
        destruct ((0 <=? stringsCompare s lo) && (stringsCompare s hi <=? 0)) eqn:Hr;
          [|by apply elem_of_nil in Hdoc].
        apply elem_of_resolveIDs in Hdoc as (id & Hid & Hdoc).
        destruct (proj1 (Hcov s id)) as (d & Hd & Hv); [by rewrite Hload|].
        assert (d = doc) as -> by congruence. rewrite Hf in Hv.
        exists id, s. split; [done|]. split; [done|]. lia.
      * intros (id & s & Hdoc & Hv & Hlo & Hhi).
        assert (id ∈ default ∅ (valuesLoad (VString s) (values idx))) as Hid.
        { apply Hcov. exists doc. by rewrite Hf. }
        destruct (valuesLoad (VString s) (values idx)) as [ids|] eqn:Hload;
          [|by apply not_elem_of_empty in Hid].
        exists (VString s, ids). split; [apply (valuesLoad_elem _ Hnd Hkeys); eauto|].
        unfold g. cbn [fst snd].
        assert ((0 <=? stringsCompare s lo) && (stringsCompare s hi <=? 0) = true) as ->
          by lia.
        apply elem_of_resolveIDs. eauto.
Qed.

End TextIndex.

Lemma SFcompare_Lt_swap x y : SFcompare x y = Some Lt -> SFcompare y x = Some Gt.
Proof.
  destruct x as [sx|sx| |sx mx ex], y as [sy|sy| |sy my ey];
    try destruct sx; try destruct sy; cbn; try discriminate; try done.
  - rewrite (Z.compare_antisym ey ex).
    change (Pos.compare_cont Eq mx my) with (Pos.compare mx my).
    change (Pos.compare_cont Eq my mx) with (Pos.compare my mx).
    rewrite (Pos.compare_antisym my mx).
    destruct (ey ?= ex)%Z; cbn; try done. by destruct (my ?= mx)%positive.
  - rewrite (Z.compare_antisym ey ex).
    change (Pos.compare_cont Eq mx my) with (Pos.compare mx my).
    change (Pos.compare_cont Eq my mx) with (Pos.compare my mx).
    rewrite (Pos.compare_antisym my mx).
    destruct (ey ?= ex)%Z; cbn; try done. by destruct (my ?= mx)%positive.
Qed.

Lemma ltb_asym x y : PrimFloat.ltb x y = true -> PrimFloat.ltb y x = false.
Proof.
  rewrite !FloatAxioms.ltb_spec. unfold SFltb.
  destruct (SFcompare (Prim2SF x) (Prim2SF y)) as [[]|] eqn:Hc; try done.
  intros _. by rewrite (SFcompare_Lt_swap _ _ Hc).
Qed.

Section RangeQueryFloats.
Context `{GoLib}.

Lemma withinRange_floats v min max x lo hi :
  floatOf v = Some x -> floatOf min = Some lo -> floatOf max = Some hi ->
  withinRange (toComparableValue v) (toComparableValue min) (toComparableValue max)
  = Ok (negb (PrimFloat.ltb x lo) && negb (PrimFloat.ltb hi x)).
Proof.
  unfold floatOf. intros Hv Hmin Hmax.
  destruct (toComparableValue v) as [| | | | |x'| | |]; try discriminate.
  destruct (toComparableValue min) as [| | | | |lo'| | |]; try discriminate.
  destruct (toComparableValue max) as [| | | | |hi'| | |]; try discriminate.
  injection Hv as ->. injection Hmin as ->. injection Hmax as ->.
  unfold withinRange, compareValues. cbn. unfold threeWayFloat.
  destruct (PrimFloat.ltb x lo); cbn; [done|].
  pose proof (ltb_asym x hi) as Hasym.
  destruct (PrimFloat.ltb lo x); cbn;
    (destruct (PrimFloat.ltb x hi); cbn; [by rewrite Hasym|]);
    by destruct (PrimFloat.ltb hi x).
Qed.

(** X27: the scan of [RangeQuery] on a field that holds floats in every
    stored document that has it, with float bounds: no panic, and the result
    is exactly the stored documents whose value is neither below the lower
    bound nor above the upper bound in the IEEE order.  A document that
    holds NaN is thus in every range, and a NaN bound excludes nothing. *)
Theorem RangeQuery_scan_floats (db : Database) (f : string) (min max : Value)
    (lo hi : float) :
  indexes db !! f = None ->
  floatOf min = Some lo -> floatOf max = Some hi ->
  (forall id d v, Get db id = Some d -> d !! f = Some v -> is_Some (floatOf v)) ->
  exists found, RangeQuery db f min max = Ok found /\
    forall doc, doc ∈ found <->
      exists id v x, Get db id = Some doc /\ doc !! f = Some v /\ floatOf v = Some x /\
                     PrimFloat.ltb x lo = false /\ PrimFloat.ltb hi x = false.
Proof.
  intros Hnone Hmin Hmax Hfloats. unfold RangeQuery. cbv zeta. rewrite Hnone.
  set (g := fun entry : string * DocumentData =>
              match entry.2 !! f with
              | Some v =>
                  match floatOf v with
                  | Some x =>
                      if negb (PrimFloat.ltb x lo) && negb (PrimFloat.ltb hi x)
                      then [entry.2] else []
                  | None => []
                  end
              | None => []
              end).
  exists (concat (map g (map_to_list (data db)))). split.
  - apply rangeCollect_Ok. intros [id d] Hin%elem_of_map_to_list. unfold g. cbn [snd].
    destruct (d !! f) as [v|] eqn:Hv; [|done].
    destruct (Hfloats id d v Hin Hv) as [x Hx].
    rewrite (withinRange_floats v min max x lo hi Hx Hmin Hmax), Hx. done.
  - intros doc. rewrite elem_of_concat_map. unfold Get. split.
    + intros ([id d] & Hin%elem_of_map_to_list & Hdoc). unfold g in Hdoc. cbn [snd] in Hdoc.
      destruct (d !! f) as [v|] eqn:Hv; [|by apply elem_of_nil in Hdoc].
      destruct (floatOf v) as [x|] eqn:Hx; [|by apply elem_of_nil in Hdoc].
      destruct (PrimFloat.ltb x lo) eqn:Hlo; [by apply elem_of_nil in Hdoc|].
      destruct (PrimFloat.ltb hi x) eqn:Hhi; [by apply elem_of_nil in Hdoc|].
      apply list_elem_of_singleton in Hdoc as ->.
      exists id, v, x. done.
    + intros (id & v & x & Hdoc & Hv & Hx & Hlo & Hhi). exists (id, doc).
      split; [by apply elem_of_map_to_list|]. unfold g. cbn [snd].
      rewrite Hv, Hx, Hlo, Hhi. by apply list_elem_of_singleton.
Qed.

End RangeQueryFloats.

(** ** The theorems at concrete inputs

    Each lemma applies a theorem above with [ExampleLib.lib] as the library,
    which shows its hypotheses can be met together. *)

Module Witnesses.
#[local] Existing Instance ExampleLib.lib.
#[local] Existing Instance ExampleLib.regexp.

(** C9, as the claim states it, fails: a data file that ends in a two-byte
    piece of a length header does not end the load cleanly; [binary.Read]
    returns [io.ErrUnexpectedEOF], [loadData] returns the read error and
    [NewDatabase] fails. *)
Lemma partial_header_aborts_load :
  (loadData {| data := ∅; indexes := ∅; primaryKey := "id";
               dataFile := [x2a; x00]; walFile := []; docCount := 0 |}).2
    = Some ReadSizeFailed /\
  NewDatabase "id" {| diskData := [x2a; x00]; diskWAL := [] |}
    = inr (ErrLoadData ReadSizeFailed).
Proof. split; reflexivity. Qed.

Lemma record_stream_end_witness :
  Forall loadable [dataBodyAge30] /\
  Forall replayable [walBodyAge30] /\
  let db := {| data := ∅; indexes := ∅; primaryKey := "id";
               dataFile := frames [dataBodyAge30] ++ [x2a; x00];
               walFile := frames [walBodyAge30] ++ putUint32 9 ++ [x01];
               docCount := 0 |} in
  (loadData db).2 = Some ReadSizeFailed /\
  (recoverFromWAL db).2 = Some ReadDataFailed.
Proof.
  assert (Forall loadable [dataBodyAge30]) as Hdata.
  { repeat constructor. vm_compute. eauto. }
  assert (Forall replayable [walBodyAge30]) as Hwal.
  { repeat constructor. vm_compute. eauto. }
  split; [exact Hdata|]. split; [exact Hwal|]. intros db.
  destruct (record_stream_end db [dataBodyAge30] [walBodyAge30] Hdata Hwal)
    as [(_ & Hpartial & _) (_ & _ & Hshort)].
  split.
  - apply (Hpartial [x2a; x00]); [reflexivity|simpl; lia].
  - apply (Hshort 9%N [x01]); [reflexivity|reflexivity|simpl; lia].
Defined.

Lemma Insert_failure_leaves_memory_witness :
  let io := {| walFault := BodyWriteFails; dataSeekFails := false; dataFault := NoFault |} in
  let db := CreateIndex (freshDatabase "id") "age" in
  InsertFails io db (ArgMap docAge30) /\
  exists err, (Insert io db (ArgMap docAge30)).2 = Some err /\
              sameMemory db (Insert io db (ArgMap docAge30)).1.
Proof.
  intros io db.
  assert (InsertFails io db (ArgMap docAge30)) as Hfails.
  { eapply (fails_wal_append io db (ArgMap docAge30) docAge30 (VString "1"));
      reflexivity. }
  split; [exact Hfails|].
  exact (Insert_failure_leaves_memory io db (ArgMap docAge30) Hfails).
Defined.

Lemma registry_key_is_shared_witness :
  indexes (freshDatabase "id") !! stringsJoin ["a"; "b"] "-" = None /\
  CreateCompositeIndex (CreateIndex (freshDatabase "id") "a-b") ["a"; "b"]
    = CreateIndex (freshDatabase "id") "a-b" /\
  QueryComposite (CreateCompositeIndex (CreateIndex (freshDatabase "id") "a-b") ["a"; "b"])
    ["a"; "b"] [VString "x"; VString "y"] = [].
Proof.
  split; [reflexivity|].
  destruct (registry_key_is_shared (freshDatabase "id") ["a"; "b"]
              [VString "x"; VString "y"] eq_refl) as (Hnoop & _ & Hquery).
  split; [exact Hnoop|exact Hquery].
Defined.

Lemma deleted_document_returns_witness :
  marshalData "1" docAge30 = Some dataBodyAge30 /\
  unmarshalData dataBodyAge30 = Some ("1"%string, docAge30) /\
  let db1 := (Insert ioOK (freshDatabase "id") (ArgMap docAge30)).1 in
  let db2 := (Delete ioOK db1 "1").1 in
  Get db2 "1" = None /\
  exists db3, NewDatabase "id" (Close db2) = inl db3 /\ Get db3 "1" = Some docAge30.
Proof.
  split; [reflexivity|]. split; [vm_compute; reflexivity|].
  intros db1 db2.
  destruct (deleted_document_returns_after_reopen "id" docAge30 (VString "1") dataBodyAge30)
    as (_ & _ & Hgone & Hback).
  - reflexivity.
  - eexists; reflexivity.
  - eexists; reflexivity.
  - reflexivity.
  - vm_compute; reflexivity.
  - vm_compute; reflexivity.
  - split; [exact Hgone|exact Hback].
Defined.

Lemma reload_counts_every_record_witness :
  unmarshalData dataBodyAge30 = Some ("1"%string, docAge30) /\
  unmarshalData dataBodyAge31 = Some ("1"%string, patchAge31 ∪ docAge30) /\
  let db1 := (Insert ioOK (freshDatabase "id") (ArgMap docAge30)).1 in
  let db2 := (Update ioOK db1 "1" patchAge31).1 in
  exists db3, NewDatabase "id" (Close db2) = inl db3 /\
    Count db3 = 2 /\ size (data db3) = 1%nat.
Proof.
  split; [vm_compute; reflexivity|]. split; [vm_compute; reflexivity|].
  intros db1 db2.
  destruct (reload_counts_every_record "id" docAge30 patchAge31 (VString "1")
              dataBodyAge30 dataBodyAge31) as (_ & _ & Hcount).
  - reflexivity.
  - eexists; reflexivity.
  - eexists; reflexivity.
  - reflexivity.
  - reflexivity.
  - vm_compute; reflexivity.
  - vm_compute; reflexivity.
  - vm_compute; reflexivity.
  - vm_compute; reflexivity.
  - exact Hcount.
Defined.

Lemma update_leaves_id_in_old_bucket_witness :
  is_Some (marshalWAL OperationInsert "1" (Some docAge30)) /\
  is_Some (marshalWAL OperationUpdate "1" (Some (patchAge31 ∪ docAge30))) /\
  let db0 := CreateIndex (freshDatabase "id") "age" in
  let db1 := (Insert ioOK db0 (ArgMap docAge30)).1 in
  let db2 := (Update ioOK db1 "1" patchAge31).1 in
  exists idx, indexes db2 !! "age" = Some (SingleIndex idx) /\
    valuesLoad (VFloat64 30) (values idx) = Some {["1"]} /\
    valuesLoad (VFloat64 31) (values idx) = None /\
    valuesLoad (VInt 31) (values idx) = Some {["1"]}.
Proof.
  assert (is_Some (marshalWAL OperationInsert "1" (Some docAge30))) as H1
    by (eexists; reflexivity).
  assert (is_Some (marshalWAL OperationUpdate "1" (Some (patchAge31 ∪ docAge30)))) as H2
    by (eexists; reflexivity).
  split; [exact H1|]. split; [exact H2|]. intros db0 db1 db2.
  exact (proj2 (proj2 (proj2 (update_leaves_id_in_old_bucket H1 H2)))).
Defined.

Lemma range_query_scan_and_index_differ_witness :
  is_Some (marshalWAL OperationInsert "1" (Some docAge1)) /\
  let db := (Insert ioOK (freshDatabase "id") (ArgMap docAge1)).1 in
  RangeQuery db "age" (VFloat64 1.5) (VFloat64 2.5) = Ok [docAge1] /\
  RangeQuery (CreateIndex db "age") "age" (VFloat64 1.5) (VFloat64 2.5) = Ok [].
Proof.
  assert (is_Some (marshalWAL OperationInsert "1" (Some docAge1))) as H1
    by (eexists; reflexivity).
  split; [exact H1|]. intros db.
  destruct (range_query_scan_and_index_differ H1) as (_ & Hscan & Hindex & _).
  split; [exact Hscan|exact Hindex].
Defined.

Lemma composite_update_key_differs_witness :
  is_Some (marshalWAL OperationInsert "1" (Some docAX)) /\
  is_Some (marshalWAL OperationUpdate "1" (Some (patchAY ∪ docAX))) /\
  let db0 := CreateCompositeIndex (freshDatabase "id") ["a"; "b"] in
  let db1 := (Insert ioOK db0 (ArgMap docAX)).1 in
  let db2 := (Update ioOK db1 "1" patchAY).1 in
  exists idx, indexes db2 !! "a-b" = Some (CompIndex idx) /\
    compositeValues idx !! "x-" = Some {["1"]} /\
    compositeValues idx !! "y-<nil>" = Some {["1"]} /\
    compositeValues idx !! "y-" = None.
Proof.
  assert (is_Some (marshalWAL OperationInsert "1" (Some docAX))) as H1
    by (eexists; reflexivity).
  assert (is_Some (marshalWAL OperationUpdate "1" (Some (patchAY ∪ docAX)))) as H2
    by (eexists; reflexivity).
  split; [exact H1|]. split; [exact H2|]. intros db0 db1 db2.
  destruct (composite_update_key_differs H1 H2) as (_ & _ & _ & _ & _ & _ & Hidx).
  exact Hidx.
Defined.


Lemma Delete_wal_failure_witness :
  let io := {| walFault := SizeWriteFails; dataSeekFails := false; dataFault := NoFault |} in
  let db := (Insert ioOK (freshDatabase "id") (ArgMap docAge30)).1 in
  data db !! "1" = Some docAge30 /\
  (Delete io db "1").2 = Some (ErrWriteWAL SizeWriteFailed) /\
  data (Delete io db "1").1 = delete "1" (data db) /\
  docCount (Delete io db "1").1 = docCount db.
Proof.
  intros io db.
  assert (data db !! "1" = Some docAge30) as Hdoc by (vm_compute; reflexivity).
  destruct (Delete_wal_failure_drops_document io db "1" docAge30 SizeWriteFailed Hdoc)
    as (Herr & Hdata & _ & Hcount); [reflexivity|].
  split; [exact Hdoc|]. split; [exact Herr|]. split; [exact Hdata|exact Hcount].
Defined.

Lemma Insert_records_id_on_spine_witness :
  [103] <> [] /\ [103] `prefix_of` runes "go" /\
  exists n, Trie.nodeAt [103] (Trie.root (Trie.Insert Trie.NewTrie "go" "7")) = Some n /\
            "7" ∈ Trie.docs n.
Proof.
  assert ([103] `prefix_of` runes "go") as Hpre by (exists [111]; reflexivity).
  split; [discriminate|]. split; [exact Hpre|].
  apply (TrieSpine.Insert_records_id_on_spine Trie.NewTrie "go" "7" [103]);
    [discriminate|exact Hpre].
Defined.

Lemma FuzzySearch_finds_inserted_witness :
  "7" ∈ Trie.FuzzySearch (Trie.Insert Trie.NewTrie "go" "7") "g*".
Proof.
  apply (TrieSearchFacts.FuzzySearch_finds_inserted Trie.NewTrie "go" "7" "g*" [103]).
  - discriminate.
  - exists [111]. reflexivity.
  - apply Trie.glob_literal; [discriminate|]. apply Trie.glob_star_empty. apply Trie.glob_end.
Defined.

Lemma FuzzySearch_empty_pattern_witness :
  Trie.FuzzySearch (Trie.Remove (Trie.Insert Trie.NewTrie "go" "7") "go" "7") "" = ∅.
Proof.
  apply (TrieSearchFacts.FuzzySearch_empty_pattern
           (Trie.Remove (Trie.Insert Trie.NewTrie "go" "7") "go" "7")).
  apply Trie.built_remove. apply Trie.built_insert. apply Trie.built_new.
Defined.

Lemma Remove_absent_word_witness :
  Trie.Remove (Trie.Insert Trie.NewTrie "go" "7") "gone" "7"
  = Trie.Insert Trie.NewTrie "go" "7".
Proof.
  apply (TrieSearchFacts.Remove_absent_word (Trie.Insert Trie.NewTrie "go" "7") "gone" "7").
  reflexivity.
Defined.

Lemma FuzzySearch_stale_after_Remove_witness :
  "7" ∈ Trie.FuzzySearch (Trie.Remove (Trie.Insert Trie.NewTrie "go" "7") "go" "7") "g".
Proof.
  apply (TrieSearchFacts.FuzzySearch_stale_after_Remove Trie.NewTrie "go" "7" "g" [103]).
  - discriminate.
  - exists [111]. reflexivity.
  - discriminate.
  - apply Trie.glob_literal; [discriminate|]. apply Trie.glob_end.
Defined.

Lemma Get_after_operations_witness :
  let db := freshDatabase "id" in
  (Insert ioOK db (ArgMap docAge30)).2 = None /\
  exists doc id, decodeArg (ArgMap docAge30) = inl doc /\ doc !! primaryKey db = Some id /\
    Get db (Sprintf id) = None /\
    Get (Insert ioOK db (ArgMap docAge30)).1 (Sprintf id) = Some doc /\
    forall other, other <> Sprintf id ->
      Get (Insert ioOK db (ArgMap docAge30)).1 other = Get db other.
Proof.
  intros db.
  assert ((Insert ioOK db (ArgMap docAge30)).2 = None) as Hok by (vm_compute; reflexivity).
  split; [exact Hok|].
  destruct (Get_after_operations ioOK db) as (Hinsert & _ & _).
  exact (Hinsert (ArgMap docAge30) Hok).
Defined.

Lemma GetAll_after_operations_witness :
  let db := freshDatabase "id" in
  (Insert ioOK db (ArgMap docAge30)).2 = None /\
  exists doc, decodeArg (ArgMap docAge30) = inl doc /\
    GetAll (Insert ioOK db (ArgMap docAge30)).1 ≡ₚ doc :: GetAll db.
Proof.
  intros db.
  assert ((Insert ioOK db (ArgMap docAge30)).2 = None) as Hok by (vm_compute; reflexivity).
  split; [exact Hok|].
  destruct (GetAll_after_operations ioOK db) as (Hinsert & _ & _).
  exact (Hinsert (ArgMap docAge30) Hok).
Defined.



Lemma FuzzyQuery_index_matches_prefix_witness :
  let db := freshDatabase "id" in
  let db' := insertAll ioOK (CreateIndex db "a") [ArgMap docAX] in
  indexes db !! "a" = None /\
  exists found, FuzzyQuery db' "a" "X*" = Ok found /\ docAX ∈ found.
Proof.
  intros db db'. split; [reflexivity|].
  destruct (FuzzyQuery_index_matches_prefix ioOK db "a" [ArgMap docAX] "X*" docAX eq_refl)
    as (found & Hrun & Hfound).
  exists found. split; [exact Hrun|]. apply Hfound.
  exists "1"%string, (VString "x"), [120].
  split; [vm_compute; reflexivity|]. split; [vm_compute; reflexivity|].
  split; [discriminate|]. split; [by exists []|].
  apply Trie.glob_literal; [discriminate|]. apply Trie.glob_star_empty. apply Trie.glob_end.
Defined.

Lemma QueryComposite_matches_joined_key_witness :
  let db := freshDatabase "id" in
  let db' := insertAll ioOK (CreateCompositeIndex db ["a"; "b"]) [ArgMap docAX] in
  indexes db !! stringsJoin ["a"; "b"] "-" = None /\
  (docAX ∈ QueryComposite db' ["a"; "b"] [VString "x"; VString ""] <->
   exists id, Get db' id = Some docAX /\
     compositeKeyOf docAX ["a"; "b"] = stringsJoin (map Sprintf [VString "x"; VString ""]) "-").
Proof.
  intros db db'. split; [reflexivity|].
  apply (QueryComposite_matches_joined_key ioOK db ["a"; "b"] [ArgMap docAX]
           [VString "x"; VString ""] docAX).
  reflexivity.
Defined.

Lemma RangeQuery_scan_integers_witness :
  let db := (Insert ioOK (freshDatabase "id") (ArgMap docAge30)).1 in
  indexes db !! "age" = None /\
  integerOf (VInt 18) = Some 18 /\ integerOf (VInt 40) = Some 40 /\
  exists found, RangeQuery db "age" (VInt 18) (VInt 40) = Ok found /\
    forall doc, doc ∈ found <->
      exists id v n, Get db id = Some doc /\ doc !! "age" = Some v /\
                     integerOf v = Some n /\ 18 <= n <= 40.
Proof.
  intros db.
  assert (data db = <["1" := docAge30]> ∅) as Hdata by (vm_compute; reflexivity).
  split; [vm_compute; reflexivity|]. split; [reflexivity|]. split; [reflexivity|].
  apply (RangeQuery_scan_integers db "age" (VInt 18) (VInt 40) 18 40).
  - vm_compute; reflexivity.
  - reflexivity.
  - reflexivity.
  - unfold Get. rewrite Hdata. intros id d v Hd Hv.
    apply lookup_insert_Some in Hd as [[_ <-]|[_ Hd]]; [|by rewrite lookup_empty in Hd].
    vm_compute in Hv. injection Hv as <-. by exists 30.
Defined.

Lemma restart_keeps_acknowledged_writes_witness :
  let db := freshDatabase "id" in
  restartKeepsStore db /\
  (Insert ioOK db (ArgMap docAge30)).2 = None /\
  dataRecordReadsBack "1" docAge30 /\
  restartKeepsStore (Insert ioOK db (ArgMap docAge30)).1.
Proof.
  intros db.
  assert (restartKeepsStore db) as Hkeeps by (exists db; split; reflexivity).
  assert ((Insert ioOK db (ArgMap docAge30)).2 = None) as Hok by (vm_compute; reflexivity).
  assert (dataRecordReadsBack "1" docAge30) as Hback.
  { exists dataBodyAge30. split; [vm_compute; reflexivity|].
    split; [vm_compute; reflexivity|vm_compute; reflexivity]. }
  split; [exact Hkeeps|]. split; [exact Hok|]. split; [exact Hback|].
  destruct (restart_keeps_acknowledged_writes ioOK db eq_refl eq_refl Hkeeps) as [Hinsert _].
  apply (Hinsert (ArgMap docAge30) docAge30 (VString "1")); [reflexivity|reflexivity|exact Hok|exact Hback].
Defined.

Lemma NewDatabase_restart_fixpoint_witness :
  let disk := {| diskData := []; diskWAL := [x01; x02] |} in
  let db := freshDatabase "id" in
  NewDatabase "id" disk = inl db /\
  indexes db = ∅ /\ walFile db = [] /\ reopen db = inl db.
Proof.
  intros disk db.
  assert (NewDatabase "id" disk = inl db) as Hnew by reflexivity.
  split; [exact Hnew|].
  exact (NewDatabase_restart_fixpoint "id" disk db Hnew).
Defined.

Lemma WAL_replay_rebuilds_store_witness :
  let db := freshDatabase "id" in
  walRebuildsStore ∅ db /\
  (Insert ioOK db (ArgMap docAge30)).2 = None /\
  walRecordReadsBack OperationInsert "1" (Some docAge30) /\
  walRebuildsStore ∅ (Insert ioOK db (ArgMap docAge30)).1.
Proof.
  intros db.
  assert (walRebuildsStore ∅ db) as Hwal by (split; reflexivity).
  assert ((Insert ioOK db (ArgMap docAge30)).2 = None) as Hok by (vm_compute; reflexivity).
  assert (walRecordReadsBack OperationInsert "1" (Some docAge30)) as Hback.
  { exists walBodyAge30, docAge30. split; [vm_compute; reflexivity|].
    split; [vm_compute; reflexivity|]. split; [vm_compute; reflexivity|].
    by intros x [= <-]. }
  split; [exact Hwal|]. split; [exact Hok|]. split; [exact Hback|].
  destruct (WAL_replay_rebuilds_store ioOK ∅ db Hwal) as [Hinsert _].
  apply (Hinsert (ArgMap docAge30) docAge30 (VString "1")); [reflexivity|reflexivity|exact Hok|exact Hback].
Defined.

Lemma Insert_same_key_text_rejected_witness :
  let db := freshDatabase "id" in
  let second := <["id" := VInt 1]> ∅ in
  docAge30 !! "id" = Some (VString "1") /\ second !! "id" = Some (VInt 1) /\
  Sprintf (VInt 1) = Sprintf (VString "1") /\
  (Insert ioOK db (ArgMap docAge30)).2 = None /\
  Insert ioOK (Insert ioOK db (ArgMap docAge30)).1 (ArgMap second)
  = ((Insert ioOK db (ArgMap docAge30)).1, Some ErrAlreadyExists).
Proof.
  intros db second.
  assert ((Insert ioOK db (ArgMap docAge30)).2 = None) as Hok by (vm_compute; reflexivity).
  split; [reflexivity|]. split; [reflexivity|]. split; [reflexivity|]. split; [exact Hok|].
  apply (Insert_same_key_text_rejected ioOK ioOK db (ArgMap docAge30) (ArgMap second)
           docAge30 second (VString "1") (VInt 1));
    [reflexivity|reflexivity|reflexivity|reflexivity|reflexivity|exact Hok].
Defined.

Lemma documents_stored_under_key_witness :
  let db := freshDatabase "id" in
  storedUnderKey db /\
  Get (Insert ioOK db (ArgMap docAge30)).1 "1" = Some docAge30 /\
  storedUnderKey (Insert ioOK db (ArgMap docAge30)).1.
Proof.
  intros db.
  assert (storedUnderKey db) as Hkeyed.
  { intros id doc Hdoc. cbn in Hdoc. by rewrite lookup_empty in Hdoc. }
  split; [exact Hkeyed|]. split; [vm_compute; reflexivity|].
  destruct (documents_stored_under_key ioOK db Hkeyed) as [Hinsert _].
  exact (Hinsert (ArgMap docAge30)).
Defined.

Lemma composite_index_stays_exact_witness :
  let db0 := (Insert ioOK (freshDatabase "id") (ArgMap docAX)).1 in
  let db := CreateCompositeIndex db0 ["a"] in
  indexes db0 !! stringsJoin ["a"] "-" = None /\
  compositeCovered db ["a"] /\
  Get db "1" = Some docAX /\
  (Delete ioOK db "1").2 = None /\
  compositeCovered (Delete ioOK db "1").1 ["a"].
Proof.
  intros db0 db.
  assert (indexes db0 !! stringsJoin ["a"] "-" = None) as Hfree by (vm_compute; reflexivity).
  destruct (composite_index_stays_exact ioOK db0 ["a"]) as [Hcreate _].
  pose proof (Hcreate Hfree) as Hcov. fold db in Hcov.
  assert ((Delete ioOK db "1").2 = None) as Hok by (vm_compute; reflexivity).
  split; [exact Hfree|]. split; [exact Hcov|]. split; [vm_compute; reflexivity|].
  split; [exact Hok|].
  destruct (composite_index_stays_exact ioOK db ["a"]) as [_ Hkept].
  destruct (Hkept Hcov) as (_ & Hdelete & _).
  exact (Hdelete "1"%string Hok).
Defined.

Lemma text_index_stays_exact_witness :
  let db := (Insert ioOK (freshDatabase "id") (ArgMap docAX)).1 in
  indexes db !! "a" = None /\ textField (data db) "a" /\
  textCovered (CreateIndex db "a") "a" /\
  exists found, RangeQuery (CreateIndex db "a") "a" (VString "a") (VString "z") = Ok found /\
                docAX ∈ found.
Proof.
  intros db.
  assert (data db = <["1" := docAX]> ∅) as Hdata by (vm_compute; reflexivity).
  assert (indexes db !! "a" = None) as Hfree by (vm_compute; reflexivity).
  assert (textField (data db) "a") as Htext.
  { rewrite Hdata. intros id d v Hd Hv.
    apply lookup_insert_Some in Hd as [[_ <-]|[_ Hd]]; [|by rewrite lookup_empty in Hd].
    vm_compute in Hv. injection Hv as <-. by exists "x"%string. }
  destruct (text_index_stays_exact ioOK db "a") as [Hcreate _].
  pose proof (Hcreate Hfree Htext) as Hcov.
  split; [exact Hfree|]. split; [exact Htext|]. split; [exact Hcov|].
  destruct (text_index_stays_exact ioOK (CreateIndex db "a") "a") as [_ Hkept].
  destruct (Hkept Hcov) as (_ & _ & _ & Hrange).
  destruct (Hrange "a"%string "z"%string) as (found & Hrun & Hfound).
  exists found. split; [exact Hrun|]. apply Hfound.
  exists "1"%string, "x"%string.
  split; [vm_compute; reflexivity|]. split; [vm_compute; reflexivity|].
  split; vm_compute; discriminate.
Defined.

Lemma RangeQuery_scan_floats_witness :
  let doc := <["id" := VString "1"]> (<["score" := VFloat64 1.5]> ∅) in
  let db := (Insert ioOK (freshDatabase "id") (ArgMap doc)).1 in
  indexes db !! "score" = None /\
  exists found, RangeQuery db "score" (VFloat64 1) (VFloat64 2) = Ok found /\ doc ∈ found.
Proof.
  intros doc db.
  assert (data db = <["1" := doc]> ∅) as Hdata by (vm_compute; reflexivity).
  assert (indexes db !! "score" = None) as Hfree by (vm_compute; reflexivity).
  split; [exact Hfree|].
  destruct (RangeQuery_scan_floats db "score" (VFloat64 1) (VFloat64 2) 1 2 Hfree eq_refl eq_refl)
    as (found & Hrun & Hfound).
  - unfold Get. rewrite Hdata. intros id d v Hd Hv.
    apply lookup_insert_Some in Hd as [[_ <-]|[_ Hd]]; [|by rewrite lookup_empty in Hd].
    vm_compute in Hv. injection Hv as <-. by eexists.
  - exists found. split; [exact Hrun|]. apply Hfound.
    exists "1"%string, (VFloat64 1.5), 1.5%float.
    split; [vm_compute; reflexivity|]. split; [vm_compute; reflexivity|].
    split; [reflexivity|]. split; vm_compute; reflexivity.
Defined.

End Witnesses.
